(** * Link crawl scheduler of [server/api/scrape-links.post.ts]

    A shallow embedding of the POST handler that audits the link graph of
    a set of seed pages, and the properties of its crawl loop.

    The handler is sequential code with three mutable locals ([results],
    [visited], [queue]) and calls into the network.  It is modelled as a
    deterministic small-step machine over a store holding those locals,
    the state of the outside world, and a chronological trace of the
    effectful calls the code makes ([sleep], [fetch], [getRedirectChain],
    [visited.add], [queue.push]).

    The helpers imported from [../utils/link-analyzer] and the platform
    calls ([fetch], [new URL]) are the fields of an environment record;
    every theorem holds for all environments unless it says otherwise.

    Further on come the code that feeds the handler and shows its
    results ([parseUrls], [urlCount], [scrapeLinks] and [addLog] of the
    page, [linkStats] and [getStatusClass] of the results table), the
    HTML scraper on both sides, and the handlers that read and list the
    output directory. *)

From Stdlib Require Import ZArith QArith Qround Lqa Lia.
From Corelib Require Import PrimFloat.
From stdpp Require Import base option list sorting gmap strings.

Local Open Scope Z_scope.

(** ** Values thrown and caught *)

(** A JavaScript [throw] carries any value; the [catch] block of the
    handler only asks whether it is an [Error] and reads its [message]. *)
Inductive Thrown :=
  | ThrownError (message : string)
  | ThrownOther.

(** What a call that may throw comes back with. *)
Inductive outcome (A : Type) :=
  | Ok (a : A)
  | Throw (e : Thrown).
Arguments Ok {A} a.
Arguments Throw {A} e.

(** [error instanceof Error ? error.message : 'Unknown error'] *)
Definition errorMessage (e : Thrown) : string :=
  match e with
  | ThrownError m => m
  | ThrownOther => "Unknown error"
  end.

(** ** Data model *)

(** What [extractLinks] yields for one anchor. *)
Module Link.
Record t := mk {
  targetUrl : string;
  anchorText : string;
  rel : list string;
  isInternal : bool
}.
End Link.

(** [RedirectHop] *)
Module Hop.
Record t := mk { url : string; status : Z }.
End Hop.

(** What [getRedirectChain] returns. *)
Module Redirect.
Record t := mk {
  finalStatus : Z;
  chain : list Hop.t;
  error : option string
}.
End Redirect.

(** Entries of [queue]: [{ url; depth; sourceUrl? }]. *)
Module Item.
Record t := mk {
  url : string;
  depth : nat;
  sourceUrl : option string
}.
End Item.

(** ['internal' | 'external'] *)
Inductive LinkType := internal | external.

(** [interface LinkResult] *)
Module Result.
Record t := mk {
  sourceUrl : string;
  targetUrl : string;
  status : Z;
  redirectChain : string;
  type : LinkType;
  anchorText : string;
  rel : string;
  depth : nat;
  error : option string
}.
End Result.

(** The [urls] field of the request body as the handler's guard sees it:
    absent, some value that is not an array (falsy or truthy), or an
    array of strings. *)
Inductive UrlsField :=
  | UrlsAbsent
  | UrlsNotArray (truthy : bool)
  | UrlsArray (us : list string).

(** [interface ScrapeLinksRequest].  The handler validates [urls] only,
    so the three numbers are whatever numbers the body carries.
    [maxUrls] and [maxDepth] are only ever compared with array lengths
    and depths; they are finite numbers here, kept as the rationals they
    denote, so that a fractional or negative value is compared as the
    code compares it.  [rateLimit] is divided by, and is the
    double-precision number itself, zero, infinities and NaN included. *)
Record Request := {
  urls : UrlsField;
  recursive : bool;
  maxUrls : Q;
  maxDepth : Q;
  rateLimit : float;
  sameDomainOnly : bool
}.

(** What [readBody] hands to the handler: [undefined] or [null] (an empty
    body, or the JSON text [null]), or a value whose properties can be
    read.  Of a value that is not an object (a number, say) every field
    reads as absent. *)
Inductive Body :=
  | BodyNullish
  | BodyObject (body : Request).

(** The [stats] object of the response. *)
Module Stats.
Record t := mk {
  totalLinks : nat;
  visited : nat;
  remaining : nat
}.
End Stats.

(** What the handler returns. *)
Module Response.
Record t := mk {
  results : list Result.t;
  stats : Stats.t
}.
End Response.

(** [createError({ statusCode, message })] *)
Record HttpError := {
  statusCode : Z;
  message : string
}.

(** ** Effects *)

(** The calls of the handler that reach outside of it or mutate the
    visited set or the frontier, in the order they are made. *)
Inductive Event :=
  | EvSleep (ms : float)
  | EvFetch (url : string) (r : outcome string)
  | EvResolve (url : string) (r : outcome Redirect.t)
  | EvVisit (url : string)
  | EvPush (it : Item.t).

(** The environment of one handler invocation: the network and the
    helpers of [../utils/link-analyzer].

    - [fetch] is the page request together with [response.text()]; both
      are awaited inside the [try] block and either may throw.
    - [extractLinks html base] is the sequence of links of a page, as the
      list the [for] loop goes through.
    - [getRedirectChain] reports failures in its result; it is allowed
      to throw all the same.
    - [normalizeUrl u] is the one-argument call made on the seeds, [None]
      standing for [null].
    - [hostname u] is [new URL(u).hostname], which throws on a string
      that is not an absolute URL. *)
Record Env (World : Type) := {
  fetch : string → World → outcome string * World;
  extractLinks : string → string → outcome (list Link.t);
  getRedirectChain : string → World → outcome Redirect.t * World;
  formatRedirectChain : list Hop.t → string;
  normalizeUrl : string → option string;
  hostname : string → outcome string
}.
Arguments fetch {World} _ _ _.
Arguments extractLinks {World} _ _ _.
Arguments getRedirectChain {World} _ _ _.
Arguments formatRedirectChain {World} _ _.
Arguments normalizeUrl {World} _ _.
Arguments hostname {World} _ _.

(** The mutable locals of the handler, the world, and the trace. *)
Record Store (World : Type) := {
  results : list Result.t;
  visited : gset string;
  queue : list Item.t;
  world : World;
  trace : list Event
}.
Arguments results {World} _.
Arguments visited {World} _.
Arguments queue {World} _.
Arguments world {World} _.
Arguments trace {World} _.

(** Where the handler stands: in the seeding loop with the seeds still to
    come, at the [while] test, or inside the [for] loop of a page with
    the links still to come. *)
Inductive Control :=
  | Seeding (rest : list string)
  | AtWhile
  | InLinks (item : Item.t) (rest : list Link.t).

Record Config (World : Type) := {
  control : Control;
  store : Store World
}.
Arguments control {World} _.
Arguments store {World} _.

(** The outcome of running the body of the [try] block once. *)
Inductive TryResult (World : Type) :=
  | Completed (c : Config World)
  | Caught (e : Thrown) (s : Store World).
Arguments Completed {World} c.
Arguments Caught {World} e s.

(** Truthiness of [body.urls]: an absent field is [undefined], an array
    is an object and so always truthy. *)
Definition urlsTruthy (u : UrlsField) : bool :=
  match u with
  | UrlsAbsent => false
  | UrlsNotArray t => t
  | UrlsArray _ => true
  end.

(** [Array.isArray(body.urls)] *)
Definition isArray (u : UrlsField) : bool :=
  match u with
  | UrlsArray _ => true
  | _ => false
  end.

(** The strings [for (const url of body.urls)] goes through. *)
Definition urlList (u : UrlsField) : list string :=
  match u with
  | UrlsArray us => us
  | _ => []
  end.

(** JavaScript truthiness of a string. *)
Definition truthy (s : string) : bool :=
  match s with EmptyString => false | _ => true end.

(** [n < x] for a length or depth [n] and a finite number [x]. *)
Definition below (n : nat) (x : Q) : bool :=
  negb (Qle_bool x (inject_Z (Z.of_nat n))).

Section Handler.
Context {World : Type} (E : Env World) (body : Request).

Abbreviation Store := (Store World).
Abbreviation Config := (Config World).

(** Appending to the trace. *)
Definition logEvent (e : Event) (s : Store) : Store :=
  {| results := results s; visited := visited s; queue := queue s;
     world := world s; trace := trace s ++ [e] |}.

(** The world after a call into the network. *)
Definition setWorld (w : World) (s : Store) : Store :=
  {| results := results s; visited := visited s; queue := queue s;
     world := w; trace := trace s |}.

(** [results.push(r)] *)
Definition pushResult (r : Result.t) (s : Store) : Store :=
  {| results := results s ++ [r]; visited := visited s; queue := queue s;
     world := world s; trace := trace s |}.

(** [visited.add(u)] *)
Definition addVisited (u : string) (s : Store) : Store :=
  logEvent (EvVisit u)
    {| results := results s; visited := {[u]} ∪ visited s; queue := queue s;
       world := world s; trace := trace s |}.

(** [queue.push(it)] *)
Definition pushQueue (it : Item.t) (s : Store) : Store :=
  logEvent (EvPush it)
    {| results := results s; visited := visited s; queue := queue s ++ [it];
       world := world s; trace := trace s |}.

(** The queue after [queue.shift()]. *)
Definition setQueue (q : list Item.t) (s : Store) : Store :=
  {| results := results s; visited := visited s; queue := q;
     world := world s; trace := trace s |}.

(** [await sleep(ms)]: the call and its argument are recorded; how long
    the timer behind it takes is not the handler's doing. *)
Definition sleep (ms : float) (s : Store) : Store := logEvent (EvSleep ms) s.

(** [const delayMs = 1000 / body.rateLimit], a division of doubles. *)
Definition delayMs : float := (1000 / rateLimit body)%float.

(** [delayMs / 2] *)
Definition halfDelay : float := (delayMs / 2)%float.

(** [results.length < body.maxUrls] *)
Definition belowCap (s : Store) : bool :=
  below (length (results s)) (maxUrls body).

(** The hostname of a seed as [baseDomains] keeps it: [null] for a
    string [new URL] rejects, and [filter(Boolean)] drops [null] and the
    empty hostname. *)
Definition seedHost (u : string) : option string :=
  match hostname E u with
  | Ok h => if truthy h then Some h else None
  | Throw _ => None
  end.

(** [baseDomains] for the seeds [us]. *)
Definition baseDomainsOf (us : list string) : gset string :=
  list_to_set (omap seedHost us).

(** [const baseDomains] *)
Definition baseDomains : gset string :=
  baseDomainsOf (urlList (urls body)).

(** Body of the seeding loop for one element of [body.urls]. *)
Definition seedStep (u : string) (s : Store) : Store :=
  match normalizeUrl E u with
  | Some n =>
      if truthy n && negb (bool_decide (n ∈ visited s))
      then addVisited n (pushQueue (Item.mk n 0 None) s)
      else s
  | None => s
  end.

(** The record built for a discovered link. *)
Definition linkResult (item : Item.t) (link : Link.t) (info : Redirect.t)
  : Result.t :=
  {| Result.sourceUrl := Item.url item;
     Result.targetUrl := Link.targetUrl link;
     Result.status := Redirect.finalStatus info;
     Result.redirectChain := formatRedirectChain E (Redirect.chain info);
     Result.type := if Link.isInternal link then internal else external;
     Result.anchorText := Link.anchorText link;
     Result.rel := String.concat ", " (Link.rel link);
     Result.depth := Item.depth item;
     Result.error := Redirect.error info |}.

(** [item.sourceUrl || item.url] *)
Definition sourceOrUrl (item : Item.t) : string :=
  match Item.sourceUrl item with
  | Some s => if truthy s then s else Item.url item
  | None => Item.url item
  end.

(** The record built by the [catch] block. *)
Definition failureResult (item : Item.t) (e : Thrown) : Result.t :=
  {| Result.sourceUrl := sourceOrUrl item;
     Result.targetUrl := Item.url item;
     Result.status := 0;
     Result.redirectChain := "";
     Result.type := internal;
     Result.anchorText := "";
     Result.rel := "";
     Result.depth := Item.depth item;
     Result.error := Some (errorMessage e) |}.

(** [catch (error) { results.push({ ... }) }] *)
Definition catchBlock (item : Item.t) (e : Thrown) (s : Store) : Store :=
  pushResult (failureResult item e) s.

(** The guard of the re-enqueue decision. *)
Definition wantsCrawl (item : Item.t) (link : Link.t) (s : Store) : bool :=
  recursive body
  && Link.isInternal link
  && below (Item.depth item) (maxDepth body)
  && negb (bool_decide (Link.targetUrl link ∈ visited s)).

(** The [try] block up to the [for] loop: rate limiting, the page
    fetch, link extraction.  [s] is the store after [queue.shift()]. *)
Definition tryPage (item : Item.t) (s : Store) : TryResult World :=
  let s1 := if (0 <? length (results s))%nat then sleep delayMs s else s in
  let '(r, w) := fetch E (Item.url item) (world s1) in
  let s2 := logEvent (EvFetch (Item.url item) r) (setWorld w s1) in
  match r with
  | Throw e => Caught e s2
  | Ok html =>
      match extractLinks E html (Item.url item) with
      | Throw e => Caught e s2
      | Ok links => Completed {| control := InLinks item links; store := s2 |}
      end
  end.

(** One round of the [for] loop, for [link] with [rest] behind it. *)
Definition tryLink (item : Item.t) (link : Link.t) (rest : list Link.t)
    (s : Store) : TryResult World :=
  if belowCap s then
    let '(r, w) := getRedirectChain E (Link.targetUrl link) (world s) in
    let s1 := logEvent (EvResolve (Link.targetUrl link) r) (setWorld w s) in
    match r with
    | Throw e => Caught e s1
    | Ok info =>
        let s2 := pushResult (linkResult item link info) s1 in
        if wantsCrawl item link s2 then
          match hostname E (Link.targetUrl link) with
          | Throw e => Caught e s2
          | Ok targetDomain =>
              let s3 :=
                if negb (sameDomainOnly body)
                   || bool_decide (targetDomain ∈ baseDomains)
                then pushQueue
                       (Item.mk (Link.targetUrl link) (Item.depth item + 1) None)
                       (addVisited (Link.targetUrl link) s2)
                else s2 in
              Completed {| control := InLinks item rest;
                           store := sleep halfDelay s3 |}
          end
        else
          Completed {| control := InLinks item rest;
                       store := sleep halfDelay s2 |}
    end
  else
    (* break *)
    Completed {| control := AtWhile; store := s |}.

(** [try { ... } catch (error) { ... }]: after the [catch] block the
    handler is back at the [while] test. *)
Definition tryCatch (item : Item.t) (t : TryResult World) : Config :=
  match t with
  | Completed c => c
  | Caught e s => {| control := AtWhile; store := catchBlock item e s |}
  end.

(** One step of the handler; [None] when the [while] loop has ended. *)
Definition step (c : Config) : option Config :=
  let s := store c in
  match control c with
  | Seeding [] => Some {| control := AtWhile; store := s |}
  | Seeding (u :: rest) =>
      Some {| control := Seeding rest; store := seedStep u s |}
  | AtWhile =>
      match queue s with
      | [] => None
      | item :: q =>
          if belowCap s
          then Some (tryCatch item (tryPage item (setQueue q s)))
          else None
      end
  | InLinks item [] => Some {| control := AtWhile; store := s |}
  | InLinks item (link :: rest) =>
      Some (tryCatch item (tryLink item link rest s))
  end.

(** The locals as declared: no result, nothing visited, an empty queue. *)
Definition emptyStore (w : World) : Store :=
  {| results := []; visited := ∅; queue := []; world := w; trace := [] |}.

(** The handler about to enter the seeding loop over [us]. *)
Definition initial (us : list string) (w : World) : Config :=
  {| control := Seeding us; store := emptyStore w |}.

(** Iterating [step] until the loop ends or the fuel is used up. *)
Fixpoint run (fuel : nat) (c : Config) : Config :=
  match fuel with
  | O => c
  | S n => match step c with
           | Some c' => run n c'
           | None => c
           end
  end.

(** A bound on the number of steps left; [room] is the number of
    results that still fit under [maxUrls]. *)
Definition budget (c : Config) : nat :=
  let s := store c in
  let room :=
    Z.to_nat (Qceiling (maxUrls body) - Z.of_nat (length (results s))) in
  (4 * room + 2 * length (queue s) +
   match control c with
   | Seeding rest => 3 * length rest + 2
   | AtWhile => 1
   | InLinks _ _ => 2
   end)%nat.

(** [return { results, stats: { ... } }] *)
Definition respond (s : Store) : Response.t :=
  {| Response.results := results s;
     Response.stats :=
       {| Stats.totalLinks := length (results s);
          Stats.visited := size (visited s);
          Stats.remaining := length (queue s) |} |}.

(** The handler: an HTTP error or a response, with the world and the
    trace it leaves behind.  The loops are run for [budget] steps, within
    which they end ([run_terminal] below). *)
Definition handler (w : World)
  : (HttpError + Response.t) * World * list Event :=
  if negb (urlsTruthy (urls body)) || negb (isArray (urls body))
  then (inl {| statusCode := 400; message := "urls array required" |}, w, [])
  else
    let c := initial (urlList (urls body)) w in
    let s := store (run (budget c) c) in
    (inr (respond s), world s, trace s).

(** The configurations the handler goes through for the seeds [us]. *)
Inductive reachable (us : list string) (w : World) : Config → Prop :=
  | reach_initial : reachable us w (initial us w)
  | reach_step c c' :
      reachable us w c → step c = Some c' → reachable us w c'.

End Handler.

Arguments reachable {World} E body us w c.

(** How an invocation of the endpoint ends: with a [TypeError] that
    nothing catches, with the error made by [createError], or with the
    object the handler returns. *)
Inductive Ending :=
  | TypeErrorThrown
  | HttpErrorThrown (err : HttpError)
  | Returned (resp : Response.t).

(** The endpoint from [readBody] on.  Reading [body.urls] of [undefined]
    or [null] throws a [TypeError]; the guard stands outside of every
    [try] block, so the error leaves the handler, before anything else
    is done. *)
Definition endpoint {World : Type} (E : Env World) (b : Body) (w : World)
  : Ending * World * list Event :=
  match b with
  | BodyNullish => (TypeErrorThrown, w, [])
  | BodyObject body =>
      match handler E body w with
      | (inl err, w', tr) => (HttpErrorThrown err, w', tr)
      | (inr resp, w', tr) => (Returned resp, w', tr)
      end
  end.

(** ** Reading the trace *)

(** The arguments of the [visited.add], [queue.push] and [fetch] calls
    of a trace, in order. *)
Definition visitedUrls (tr : list Event) : list string :=
  omap (λ e, match e with EvVisit u => Some u | _ => None end) tr.

Definition pushedItems (tr : list Event) : list Item.t :=
  omap (λ e, match e with EvPush it => Some it | _ => None end) tr.

Definition fetchedUrls (tr : list Event) : list string :=
  omap (λ e, match e with EvFetch u _ => Some u | _ => None end) tr.

Definition pushedUrls (tr : list Event) : list string :=
  Item.url <$> pushedItems tr.

(** *** Pauses between outbound requests *)

(** The outbound requests: page fetches and redirect checks. *)
Definition isRequest (e : Event) : bool :=
  match e with
  | EvFetch _ _ | EvResolve _ _ => true
  | _ => false
  end.

Definition isResolve (e : Event) : bool :=
  match e with
  | EvResolve _ _ => true
  | _ => false
  end.

Definition isFetch (e : Event) : bool :=
  match e with
  | EvFetch _ _ => true
  | _ => false
  end.

(** The arguments of the [sleep] calls of a trace, in order. *)
Definition sleeps (evs : list Event) : list float :=
  omap (λ e, match e with EvSleep ms => Some ms | _ => None end) evs.

(** Whenever a request selected by [from] is followed by another request
    [r2], with no request in between, the [sleep] calls made in between
    are as [ok r2] says. *)
Definition gapsAfter (from : Event → bool) (ok : Event → list float → Prop)
    (tr : list Event) : Prop :=
  ∀ pre r1 mid r2 post,
    tr = pre ++ r1 :: mid ++ r2 :: post →
    from r1 = true → isRequest r2 = true →
    Forall (λ e, isRequest e = false) mid →
    ok r2 (sleeps mid).

(** The last request of a trace and the [sleep] calls made since,
    updated by one more event. *)
Definition stepGap (st : option (Event * list float)) (e : Event)
  : option (Event * list float) :=
  if isRequest e then Some (e, [])
  else match st with
       | Some (r, a) => Some (r, a ++ sleeps [e])
       | None => None
       end.

(** The last request of a trace and the [sleep] calls made since. *)
Definition sinceLast (tr : list Event) : option (Event * list float) :=
  fold_left stepGap tr None.

(** ** Invariants and step shapes *)

Section Specification.
Context {World : Type} (E : Env World) (body : Request).
Implicit Types (c : Config World) (s : Store World) (w : World).

(** *** The moves of the machine

    What one step does to the control point, the results and the
    frontier, read off [step] once and for all. *)
Inductive Move c c' : Prop :=
  | MoveSeedSkip u rest
      (Hctl : control c = Seeding (u :: rest))
      (Hctl' : control c' = Seeding rest)
      (Hres : results (store c') = results (store c))
      (Hq : queue (store c') = queue (store c))
  | MoveSeedPush u rest n
      (Hctl : control c = Seeding (u :: rest))
      (Hctl' : control c' = Seeding rest)
      (Hnorm : normalizeUrl E u = Some n)
      (Hres : results (store c') = results (store c))
      (Hq : queue (store c') = queue (store c) ++ [Item.mk n 0 None])
  | MoveSeeded
      (Hctl : control c = Seeding [])
      (Hctl' : control c' = AtWhile)
      (Hres : results (store c') = results (store c))
      (Hq : queue (store c') = queue (store c))
  | MoveExpand item html links
      (Hctl : control c = AtWhile)
      (Hcap : belowCap body (store c) = true)
      (Hctl' : control c' = InLinks item links)
      (Hfetch : EvFetch (Item.url item) (Ok html) ∈ trace (store c'))
      (Hext : extractLinks E html (Item.url item) = Ok links)
      (Hres : results (store c') = results (store c))
      (Hq : queue (store c) = item :: queue (store c'))
  | MovePageFailed item e
      (Hctl : control c = AtWhile)
      (Hcap : belowCap body (store c) = true)
      (Hctl' : control c' = AtWhile)
      (Hres : results (store c') = results (store c) ++ [failureResult item e])
      (Hq : queue (store c) = item :: queue (store c'))
  | MoveLeave item rest
      (Hctl : control c = InLinks item rest)
      (Hwhy : rest = [] ∨ belowCap body (store c) = false)
      (Hctl' : control c' = AtWhile)
      (Hres : results (store c') = results (store c))
      (Hq : queue (store c') = queue (store c))
  | MoveLink item link rest info
      (Hctl : control c = InLinks item (link :: rest))
      (Hcap : belowCap body (store c) = true)
      (Hctl' : control c' = InLinks item rest)
      (Hresolve : EvResolve (Link.targetUrl link) (Ok info)
                  ∈ trace (store c'))
      (Hres : results (store c')
              = results (store c) ++ [linkResult E item link info])
      (Hq : queue (store c') = queue (store c)
            ∨ queue (store c')
              = queue (store c)
                ++ [Item.mk (Link.targetUrl link) (Item.depth item + 1) None])
  | MoveLinkFailed item link rest e
      (Hctl : control c = InLinks item (link :: rest))
      (Hcap : belowCap body (store c) = true)
      (Hctl' : control c' = AtWhile)
      (Hres : results (store c') = results (store c) ++ [failureResult item e])
      (Hq : queue (store c') = queue (store c))
  | MoveHostFailed item link rest info e
      (Hctl : control c = InLinks item (link :: rest))
      (Hcap : belowCap body (store c) = true)
      (Hhost : hostname E (Link.targetUrl link) = Throw e)
      (Hctl' : control c' = AtWhile)
      (Hresolve : EvResolve (Link.targetUrl link) (Ok info)
                  ∈ trace (store c'))
      (Hres : results (store c')
              = results (store c)
                ++ [linkResult E item link info; failureResult item e])
      (Hq : queue (store c') = queue (store c)).

(** [new URL(u)] accepts [u]. *)
Definition parseable (u : string) : Prop := ∃ h, hostname E u = Ok h.

(** The contract of the link extractor: every target it yields is an
    absolute URL, so [new URL(link.targetUrl)] does not throw. *)
Definition extractsAbsolute : Prop :=
  ∀ html base links l,
    extractLinks E html base = Ok links → l ∈ links →
    parseable (Link.targetUrl l).

(** The cap holds, up to the next integer, and the links still to come
    can be parsed. *)
Definition Capped c : Prop :=
  Z.of_nat (length (results (store c))) ≤ Qceiling (maxUrls body)
  ∧ match control c with
    | InLinks _ rest => ∀ l, l ∈ rest → parseable (Link.targetUrl l)
    | _ => True
    end.

(** No frontier item carries a [sourceUrl]: none is ever pushed with
    one. *)
Definition Unsourced c : Prop :=
  (∀ it, it ∈ queue (store c) → Item.sourceUrl it = None)
  ∧ match control c with
    | InLinks item _ => Item.sourceUrl item = None
    | _ => True
    end.

(** Results and frontier are both ordered by depth.  There is a current
    level [lvl]: no result is deeper than [lvl], and the frontier holds
    pages of depth [lvl] and [lvl + 1] only. *)
Record LevelAt (lvl : nat) c : Prop := {
  lv_results : StronglySorted le (Result.depth <$> results (store c));
  lv_queue : StronglySorted le (Item.depth <$> queue (store c));
  lv_done : ∀ d, d ∈ Result.depth <$> results (store c) → (d ≤ lvl)%nat;
  lv_todo : ∀ e, e ∈ Item.depth <$> queue (store c) →
                 (lvl ≤ e ≤ lvl + 1)%nat;
  lv_control :
    match control c with
    | Seeding _ =>
        results (store c) = [] ∧ lvl = 0%nat
        ∧ ∀ e, e ∈ Item.depth <$> queue (store c) → e = 0%nat
    | AtWhile => True
    | InLinks item _ => Item.depth item = lvl
    end
}.

(** The crawl proceeds level by level. *)
Definition Levels c : Prop := ∃ lvl, LevelAt lvl c.

(** [r] was built for a link found on a page that was fetched, from
    the answer of the redirect resolver for that link. *)
Definition fromLink (tr : list Event) (r : Result.t) : Prop :=
  ∃ item html links link info,
    EvFetch (Item.url item) (Ok html) ∈ tr
    ∧ extractLinks E html (Item.url item) = Ok links
    ∧ link ∈ links
    ∧ EvResolve (Link.targetUrl link) (Ok info) ∈ tr
    ∧ r = linkResult E item link info.

(** [r] was built by the [catch] block, for a frontier item (which has
    no [sourceUrl]). *)
Definition fromFailure (r : Result.t) : Prop :=
  ∃ item e, Item.sourceUrl item = None ∧ r = failureResult item e.

(** Every result has one of these two origins, and the links still to
    come were extracted from the page being expanded. *)
Definition Provenance c : Prop :=
  (∀ r, r ∈ results (store c) →
        fromLink (trace (store c)) r ∨ fromFailure r)
  ∧ match control c with
    | InLinks item rest =>
        ∃ html links,
          EvFetch (Item.url item) (Ok html) ∈ trace (store c)
          ∧ extractLinks E html (Item.url item) = Ok links
          ∧ ∀ l, l ∈ rest → l ∈ links
    | _ => True
    end.

(** The events a step appends to the trace. *)
Definition emits c c' (evs : list Event) : Prop :=
  trace (store c') = trace (store c) ++ evs.

(** A seed is pushed: first on the frontier, then in the visited set. *)
Definition seedPush c (it : Item.t) : Prop :=
  ∃ u rest n,
    control c = Seeding (u :: rest)
    ∧ normalizeUrl E u = Some n
    ∧ it = Item.mk n 0 None.

(** A discovered link is pushed. *)
Definition linkPush c (it : Item.t) : Prop :=
  ∃ item link rest,
    control c = InLinks item (link :: rest)
    ∧ it = Item.mk (Link.targetUrl link) (Item.depth item + 1) None
    ∧ recursive body = true
    ∧ Link.isInternal link = true
    ∧ (inject_Z (Z.of_nat (Item.depth item)) < maxDepth body)%Q
    ∧ (sameDomainOnly body = true →
       ∃ h, hostname E (Link.targetUrl link) = Ok h ∧ h ∈ baseDomains E body).

(** An item pushed by the seeding loop. *)
Definition seedItem (us : list string) (it : Item.t) : Prop :=
  Item.depth it = 0%nat
  ∧ ∃ u, u ∈ us ∧ normalizeUrl E u = Some (Item.url it).

(** An item that went through the re-enqueue decision. *)
Definition crawledItem (it : Item.t) : Prop :=
  (0 < Item.depth it)%nat
  ∧ recursive body = true
  ∧ (sameDomainOnly body = true →
     ∃ h, hostname E (Item.url it) = Ok h ∧ h ∈ baseDomains E body).

(** The seeding loop goes through [us], and everything ever pushed is a
    seed or went through the re-enqueue decision. *)
Record Scope (us : list string) c : Prop := {
  sc_seeds :
    match control c with
    | Seeding rest => rest `suffix_of` us
    | _ => True
    end;
  sc_pushed : ∀ it, it ∈ pushedItems (trace (store c)) →
                    seedItem us it ∨ crawledItem it
}.

(** Without recursion only the seeding loop pushes. *)
Definition Flat (us : list string) c : Prop :=
  (length (pushedItems (trace (store c)))
   + match control c with Seeding rest => length rest | _ => 0 end
   ≤ length us)%nat.

(** The [sleep] calls between a redirect check and the request [r2]
    that follows it: [sleep(delayMs / 2)] before another redirect check;
    before a page fetch [sleep(delayMs)], after [sleep(delayMs / 2)]
    unless the round of the link loop was cut short by a [throw]. *)
Definition afterCheck (r2 : Event) (l : list float) : Prop :=
  if isResolve r2 then l = [halfDelay body]
  else l = [delayMs body] ∨ l = [halfDelay body; delayMs body].

(** The [sleep] calls between a page fetch and the request [r2] that
    follows it: none before a redirect check, at most [sleep(delayMs)]
    before another page fetch. *)
Definition afterFetch (r2 : Event) (l : list float) : Prop :=
  if isResolve r2 then l = []
  else l = [] ∨ l = [delayMs body].

(** After a redirect check a result is on record, and the handler has
    either called [sleep(delayMs / 2)] already or stands at the [while]
    test, so that the next fetch comes after [sleep(delayMs)].  After a
    page fetch it has not slept yet. *)
Record Paced c : Prop := {
  pc_gaps : gapsAfter isResolve afterCheck (trace (store c));
  pc_fetch : gapsAfter isFetch afterFetch (trace (store c));
  pc_fixed : ∀ ms,
    EvSleep ms ∈ trace (store c) →
    ms = delayMs body ∨ ms = halfDelay body;
  pc_pending :
    match sinceLast (trace (store c)) with
    | Some (r1, a) =>
        (isResolve r1 = true →
         (0 < length (results (store c)))%nat
         ∧ (a = [halfDelay body] ∨ (a = [] ∧ control c = AtWhile)))
        ∧ (isFetch r1 = true → a = [])
    | None => True
    end
}.

(** The page being expanded, if any, has been fetched; the frontier
    holds exactly the pushed URLs that have not been fetched yet, in
    the order they were pushed. *)
Record Books c : Prop := {
  books_visited : visited (store c) = list_to_set (visitedUrls (trace (store c)));
  books_nodup : NoDup (visitedUrls (trace (store c)));
  books_pushed : pushedUrls (trace (store c)) = visitedUrls (trace (store c));
  books_fifo :
    fetchedUrls (trace (store c)) ++ (Item.url <$> queue (store c))
    = pushedUrls (trace (store c));
  books_item :
    match control c with
    | InLinks item _ => Item.url item ∈ fetchedUrls (trace (store c))
    | _ => True
    end
}.

(** The [try] block entered from [c] on behalf of [item] throws [e],
    leaving the store [s] to the [catch] block. *)
Definition raises c (item : Item.t) (e : Thrown) (s : Store World) : Prop :=
  match control c with
  | AtWhile =>
      ∃ q, queue (store c) = item :: q
           ∧ belowCap body (store c) = true
           ∧ tryPage E body item (setQueue q (store c)) = Caught e s
  | InLinks item' (link :: rest) =>
      item' = item ∧ tryLink E body item link rest (store c) = Caught e s
  | _ => False
  end.

End Specification.

(** ** A small site to run the handler on

    Three pages on [a.test], one of which cannot be fetched, and a link
    to another host.  The markup of a page is represented by its URL. *)

Definition home : string := "https://a.test/".
Definition pageB : string := "https://a.test/b".
Definition pageC : string := "https://a.test/c".
Definition pageDown : string := "https://a.test/down".
Definition elsewhere : string := "https://x.test/".

Definition anchor (u : string) (inside : bool) : Link.t :=
  Link.mk u "link" ["nofollow"; "noopener"] inside.

Definition site : Env unit := {|
  fetch u w :=
    (if String.eqb u pageDown then Throw (ThrownError "fetch failed") else Ok u,
     w);
  extractLinks html base :=
    if String.eqb html home
    then Ok [anchor pageB true; anchor pageDown true; anchor elsewhere false]
    else if String.eqb html pageB
    then Ok [anchor home true; anchor pageC true]
    else Ok [];
  getRedirectChain u w :=
    (if String.eqb u pageB
     then Ok (Redirect.mk 200 [Hop.mk pageB 301; Hop.mk pageC 200] None)
     else Ok (Redirect.mk 200 [] None),
     w);
  formatRedirectChain hops := String.concat " -> " (Hop.url <$> hops);
  normalizeUrl u := if String.eqb u "" then None else Some u;
  hostname u :=
    Ok (if String.prefix "https://a.test/" u then "a.test" else "x.test")
|}.

Definition auditRequest : Request := {|
  urls := UrlsArray [home];
  recursive := true;
  maxUrls := 10;
  maxDepth := 3;
  rateLimit := 2;
  sameDomainOnly := true
|}.

(** The same request with a negative cap. *)
Definition negativeCap : Request := {|
  urls := UrlsArray [home];
  recursive := true;
  maxUrls := -1;
  maxDepth := 3;
  rateLimit := 2;
  sameDomainOnly := true
|}.

(** The same request with a cap of two and a half. *)
Definition fractionalCap : Request := {|
  urls := UrlsArray [home];
  recursive := true;
  maxUrls := 5 # 2;
  maxDepth := 3;
  rateLimit := 2;
  sameDomainOnly := true
|}.

(** The same request at [rate] requests per second. *)
Definition auditAt (rate : float) : Request := {|
  urls := UrlsArray [home];
  recursive := true;
  maxUrls := 10;
  maxDepth := 3;
  rateLimit := rate;
  sameDomainOnly := true
|}.

(** The frontier item of the page that cannot be fetched, and what
    fetching it throws. *)
Definition downItem : Item.t := Item.mk pageDown 1 None.
Definition fetchFailed : Thrown := ThrownError "fetch failed".

(** The configuration of the audit after [n] steps. *)
Definition auditAfter (n : nat) : Config unit :=
  run site auditRequest n (initial [home] tt).

(** ** More to read off a run *)

(** The arguments of the [getRedirectChain] calls of a trace, in order. *)
Definition resolvedUrls (tr : list Event) : list string :=
  omap (λ e, match e with EvResolve u _ => Some u | _ => None end) tr.

(** The [await sleep(...)] calls. *)
Definition isSleep (e : Event) : bool :=
  match e with
  | EvSleep _ => true
  | _ => false
  end.

(** A list with every element kept where it occurs first, and dropped
    where it occurs again. *)
Fixpoint firstOccurrences (l : list string) : list string :=
  match l with
  | [] => []
  | x :: l => x :: filter (λ y, y ≠ x) (firstOccurrences l)
  end.

Section Accounting.
Context {World : Type} (E : Env World) (body : Request).
Implicit Types (c : Config World) (s : Store World) (w : World).

(** What the seeding loop keeps of a seed: its normalization, unless
    that is [null] or empty. *)
Definition validSeed (u : string) : option string :=
  match normalizeUrl E u with
  | Some n => if truthy n then Some n else None
  | None => None
  end.

Definition validSeeds (us : list string) : list string := omap validSeed us.

(** Frontier items, the page under expansion and the pages results come
    from were all pushed once, and the latter were fetched. *)
Record Origins c : Prop := {
  or_queue : ∀ it, it ∈ queue (store c) → it ∈ pushedItems (trace (store c));
  or_item :
    match control c with
    | InLinks item _ => item ∈ pushedItems (trace (store c))
    | _ => True
    end;
  or_results : ∀ r, r ∈ results (store c) →
    ∃ it, it ∈ pushedItems (trace (store c))
          ∧ Item.url it ∈ fetchedUrls (trace (store c))
          ∧ Result.sourceUrl r = Item.url it
          ∧ Result.depth r = Item.depth it
}.

(** Every page pushed by the link loop is the target of a recorded
    internal link, found one level up. *)
Definition Discovered c : Prop :=
  ∀ it, it ∈ pushedItems (trace (store c)) →
        Item.depth it = 0%nat
        ∨ ∃ r, r ∈ results (store c)
               ∧ Result.targetUrl r = Item.url it
               ∧ Result.type r = internal
               ∧ S (Result.depth r) = Item.depth it.

(** One redirect check per result at most, and one push per seed or
    redirect check at most. *)
Definition Traffic (us : list string) c : Prop :=
  (length (resolvedUrls (trace (store c))) ≤ length (results (store c)))%nat
  ∧ (length (pushedItems (trace (store c)))
     + match control c with Seeding rest => length rest | _ => 0 end
     ≤ length us + length (resolvedUrls (trace (store c))))%nat.

(** Nothing has happened but pushes of seeds. *)
Record Quiet (w0 : World) c : Prop := {
  qt_results : results (store c) = [];
  qt_world : world (store c) = w0;
  qt_trace : Forall (λ e, isRequest e = false ∧ isSleep e = false)
               (trace (store c));
  qt_control : match control c with InLinks _ _ => False | _ => True end
}.

(** The seeding loop has gone through [done]: the frontier holds the
    valid seeds among them, each once and in the order of [done], and
    nothing else has happened. *)
Record SeededWith (w0 : World) (done : list string) c : Prop := {
  sd_results : results (store c) = [];
  sd_world : world (store c) = w0;
  sd_first : Item.url <$> queue (store c)
             = firstOccurrences (validSeeds done);
  sd_sublist : (Item.url <$> queue (store c)) `sublist_of` validSeeds done;
  sd_all : ∀ u, u ∈ validSeeds done → u ∈ Item.url <$> queue (store c);
  sd_items : ∀ it, it ∈ queue (store c) →
                   Item.depth it = 0%nat ∧ Item.sourceUrl it = None;
  sd_visited : visited (store c) = list_to_set (Item.url <$> queue (store c));
  sd_trace : trace (store c)
             = flat_map (λ it, [EvPush it; EvVisit (Item.url it)])
                 (queue (store c))
}.

(** The seeding loop does this seed by seed; the [while] loop starts
    from there, and its first act is a page fetch. *)
Definition Seeded (w0 : World) (us : list string) c : Prop :=
  match control c with
  | Seeding rest => ∃ done, us = done ++ rest ∧ SeededWith w0 done c
  | AtWhile => fetchedUrls (trace (store c)) = [] → SeededWith w0 us c
  | InLinks _ _ => fetchedUrls (trace (store c)) ≠ []
  end.

(** Nothing has happened at all. *)
Definition Idle (w0 : World) c : Prop :=
  store c = emptyStore w0
  ∧ match control c with
    | Seeding rest => validSeeds rest = []
    | AtWhile => True
    | InLinks _ _ => False
    end.

(** A depth the crawl may reach: 0, or anything below [maxDepth + 1],
    which is to say no more than [maxDepth] rounded up to the next
    integer, and no more than [maxDepth] when that is an integer. *)
Definition depthAllowed (d : nat) : Prop :=
  (d = 0%nat ∨ (inject_Z (Z.of_nat d) < maxDepth body + 1)%Q)
  ∧ Z.of_nat d ≤ Z.max 0 (Qceiling (maxDepth body))
  ∧ ∀ k : Z, (maxDepth body == inject_Z k)%Q → 0 ≤ k → Z.of_nat d ≤ k.

(** The [sleep] calls so far are paid for by the pages fetched and the
    results, one call each. *)
Definition Rested c : Prop :=
  (length (sleeps (trace (store c)))
   ≤ length (fetchedUrls (trace (store c))) + length (results (store c)))%nat.

End Accounting.

(** ** More requests to the small site *)

(** A request whose only seed is not a URL. *)
Definition blankRequest : Request := {|
  urls := UrlsArray [""];
  recursive := true;
  maxUrls := 10;
  maxDepth := 3;
  rateLimit := 2;
  sameDomainOnly := true
|}.

(** The audit with room for two results only. *)
Definition shortAudit : Request := {|
  urls := UrlsArray [home];
  recursive := true;
  maxUrls := 2;
  maxDepth := 3;
  rateLimit := 2;
  sameDomainOnly := true
|}.

(** The audit with half a level of depth. *)
Definition shallowAudit : Request := {|
  urls := UrlsArray [home];
  recursive := true;
  maxUrls := 10;
  maxDepth := 1 # 2;
  rateLimit := 2;
  sameDomainOnly := true
|}.

(** An audit without recursion, one seed given twice. *)
Definition flatAudit : Request := {|
  urls := UrlsArray [home; pageB; home];
  recursive := false;
  maxUrls := 10;
  maxDepth := 3;
  rateLimit := 2;
  sameDomainOnly := true
|}.

(** The small site as seen through URLs without a host name, such as
    [file:] URLs. *)
Definition hostless : Env unit := {|
  fetch := fetch site;
  extractLinks := extractLinks site;
  getRedirectChain := getRedirectChain site;
  formatRedirectChain := formatRedirectChain site;
  normalizeUrl := normalizeUrl site;
  hostname u := Ok ""
|}.

(** The audit without recursion after [n] steps. *)
Definition flatAfter (n : nat) : Config unit :=
  run site flatAudit n (initial [home; pageB; home] tt).

(** The configuration a request to the small site ends in. *)
Definition lastConfig (body : Request) : Config unit :=
  let c := initial (urlList (urls body)) tt in
  run site body (budget body c) c.


(** ** The results table of [app/components/ResultsTable.vue]

    The table shows the [LinkResult] records of a response, with a badge
    per row and a bar of counts above. *)

(** [getStatusClass] *)
Definition getStatusClass (status : Z) : string :=
  if (200 <=? status) && (status <? 300) then "status-ok"
  else if (300 <=? status) && (status <? 400) then "status-redirect"
  else "status-error".

(** The object [linkStats] computes. *)
Module LinkStats.
Record t := mk {
  total : nat;
  status200 : nat;
  status3xx : nat;
  status4xx : nat;
  status5xx : nat;
  errors : nat;
  internal : nat;
  external : nat
}.
End LinkStats.

(** [array.filter(p).length] *)
Definition countWhere {A : Type} (p : A → bool) (l : list A) : nat :=
  length (List.filter p l).

(** [r.type === t] *)
Definition hasType (t : LinkType) (r : Result.t) : bool :=
  match Result.type r, t with
  | internal, internal | external, external => true
  | _, _ => false
  end.

(** [linkStats], for the [linkResults] prop, which may be left out:
    [null] when there is no result to count. *)
Definition linkStats (linkResults : option (list Result.t))
  : option LinkStats.t :=
  match linkResults with
  | None | Some [] => None
  | Some rs =>
      Some {|
        LinkStats.total := length rs;
        LinkStats.status200 :=
          countWhere (λ r, (200 <=? Result.status r) && (Result.status r <? 300)) rs;
        LinkStats.status3xx :=
          countWhere (λ r, (300 <=? Result.status r) && (Result.status r <? 400)) rs;
        LinkStats.status4xx :=
          countWhere (λ r, (400 <=? Result.status r) && (Result.status r <? 500)) rs;
        LinkStats.status5xx := countWhere (λ r, 500 <=? Result.status r) rs;
        LinkStats.errors := countWhere (λ r, Result.status r =? 0) rs;
        LinkStats.internal := countWhere (hasType internal) rs;
        LinkStats.external := countWhere (hasType external) rs
      |}
  end.

(** The rows whose badge has the class [cls]. *)
Definition badged (cls : string) (rs : list Result.t) : nat :=
  countWhere (λ r, String.eqb (getStatusClass (Result.status r)) cls) rs.

(** A status no bucket of [linkStats] counts: negative, or from 1 to
    199. *)
Definition uncounted (r : Result.t) : bool :=
  (Result.status r <? 0)
  || (0 <? Result.status r) && (Result.status r <? 200).

(** ** The page [app/pages/index.vue] and its URL input

    The text typed into the URL field is looked at character by
    character, so here a JavaScript string is the sequence of its UTF-16
    code units. *)

Abbreviation JsString := (list N).

(** The characters of the class [[\n,]]: line feed and comma. *)
Definition isSeparator (u : N) : bool := ((u =? 10) || (u =? 44))%N.

(** The white space and line terminators that [trim] strips. *)
Definition isWhiteSpace (u : N) : bool :=
  ((9 <=? u) && (u <=? 13) || (u =? 32) || (u =? 160) || (u =? 5760)
   || (8192 <=? u) && (u <=? 8202) || (u =? 8232) || (u =? 8233)
   || (u =? 8239) || (u =? 8287) || (u =? 12288) || (u =? 65279))%N.

(** [s.split(/[\n,]+/)], reading [s] from the left: [cur] is the piece
    read so far, [inRun] tells that the last character was a separator.
    A run of separators ends one piece; the piece before a leading run
    and the one after a trailing run are empty, and the empty string
    splits into one empty piece. *)
Fixpoint splitRuns (cur : JsString) (inRun : bool) (s : JsString)
  : list JsString :=
  match s with
  | [] => [cur]
  | u :: s' =>
      if isSeparator u
      then if inRun then splitRuns [] true s' else cur :: splitRuns [] true s'
      else splitRuns (cur ++ [u]) false s'
  end.

Definition split (s : JsString) : list JsString := splitRuns [] false s.

(** [s.trimStart()], [s.trimEnd()] and [s.trim()] *)
Fixpoint trimStart (s : JsString) : JsString :=
  match s with
  | [] => []
  | u :: s' => if isWhiteSpace u then trimStart s' else s
  end.

Definition trimEnd (s : JsString) : JsString :=
  reverse (trimStart (reverse s)).

Definition trim (s : JsString) : JsString := trimEnd (trimStart s).

(** Truthiness of a string. *)
Definition nonEmpty (s : JsString) : bool :=
  match s with
  | [] => false
  | _ => true
  end.

Section UrlInput.

(** [isUrl s]: [new URL(s)] does not throw. *)
Variable isUrl : JsString → bool.

(** [isValidUrl] of the URL input *)
Definition isValidUrl (str : JsString) : bool := isUrl str.

(** [parseUrls] *)
Definition parseUrls (input : JsString) : list JsString :=
  List.filter (λ url, if negb (nonEmpty url) then false else isUrl url)
    (trim <$> split input).

(** [urlCount] of the URL input, for the text [modelValue] *)
Definition urlCount (modelValue : JsString) : nat :=
  length (List.filter (λ u, (0 <? length u)%nat && isValidUrl u)
            (trim <$> split modelValue)).

End UrlInput.

(** An entry of the log shown on the page. *)
Module Log.
Inductive kind := info | success | error | progress.
Record t := mk {
  timestamp : string;
  message : string;
  type : kind
}.
End Log.

(** [addLog], called when the clock reads [timestamp]; [type] is left
    out by some callers and then is ['info'].  The log keeps 100
    entries at most: one entry too many makes the oldest go. *)
Definition addLog (timestamp message : string) (type : option Log.kind)
    (logs : list Log.t) : list Log.t :=
  let logs1 := logs ++ [Log.mk timestamp message (default Log.info type)] in
  if (100 <? length logs1)%nat then tail logs1 else logs1.

(** The entry a call of [addLog] writes, and the log after a sequence
    of calls. *)
Definition logEntry (call : string * string * option Log.kind) : Log.t :=
  Log.mk call.1.1 call.1.2 (default Log.info call.2).

Definition addLogs (calls : list (string * string * option Log.kind))
    (logs : list Log.t) : list Log.t :=
  foldl (λ l call, addLog call.1.1 call.1.2 call.2 l) logs calls.

(** ** The output browser: [getFilesRecursive] of [/api/get-output-dir] *)

Module OutputDir.

(** [OutputFile['type']] *)
Inductive FileType := json | csv | html | folder | other.

(** [interface OutputFile] *)
Record OutputFile := {
  name : string;
  path : string;
  size : nat;
  modified : string;
  type : FileType
}.

(** What [stat] resolves to, as far as it is read: the size and
    [mtime.toISOString()]. *)
Record Stat := {
  statSize : nat;
  mtime : string
}.

(** An entry of a directory as [readdir] lists it, with what the file
    system holds behind it: what [stat] comes back with and, for a
    directory, what [readdir] comes back with. *)
Inductive Entry :=
  | File (entryName : string) (st : outcome Stat)
  | Directory (entryName : string) (st : outcome Stat)
      (entries : outcome (list Entry)).

Section Listing.

(** [join] of [path], and [extname(name).toLowerCase()]. *)
Variable join : string → string → string.
Variable extension : string → string.

(** [entry.name.startsWith('.')] *)
Definition hidden (entryName : string) : bool := String.prefix "." entryName.

(** The type of a file by its extension. *)
Definition typeOf (entryName : string) : FileType :=
  let ext := extension entryName in
  if String.eqb ext ".json" then json
  else if String.eqb ext ".csv" then csv
  else if String.eqb ext ".html" then html
  else other.

(** [subFiles.reduce((sum, f) => sum + f.size, 0)] *)
Definition totalSize (subFiles : list OutputFile) : nat :=
  foldl (λ sum f, sum + size f)%nat 0%nat subFiles.

(** [{ ...subFile, name: `${entry.name}/${subFile.name}` }] *)
Definition prefixed (entryName : string) (subFile : OutputFile) : OutputFile :=
  {| name := String.append entryName (String.append "/" (name subFile));
     path := path subFile;
     size := size subFile;
     modified := modified subFile;
     type := type subFile |}.

(** One round of the [for] loop, for [entry] of the directory [dir]:
    what it pushes, unless it throws. *)
Fixpoint round (dir : string) (entry : Entry) : outcome (list OutputFile) :=
  match entry with
  | File entryName st =>
      if hidden entryName then Ok []
      else
        match st with
        | Throw e => Throw e
        | Ok fileStat =>
            Ok [ {| name := entryName;
                    path := join dir entryName;
                    size := statSize fileStat;
                    modified := mtime fileStat;
                    type := typeOf entryName |} ]
        end
  | Directory entryName st entries =>
      if hidden entryName then Ok []
      else
        let fullPath := join dir entryName in
        let subFiles :=
          match entries with
          | Throw _ => []
          | Ok es =>
              (fix rounds (es : list Entry) : list OutputFile :=
                 match es with
                 | [] => []
                 | e :: es' =>
                     match round fullPath e with
                     | Ok pushed => pushed ++ rounds es'
                     | Throw _ => []
                     end
                 end) es
          end in
        match st with
        | Throw e => Throw e
        | Ok folderStat =>
            Ok ({| name := entryName;
                   path := fullPath;
                   size := totalSize subFiles;
                   modified := mtime folderStat;
                   type := folder |}
                :: (prefixed entryName <$> subFiles))
        end
  end.

(** The [for] loop: a round that throws ends it, and what was pushed
    before stays. *)
Fixpoint rounds (dir : string) (es : list Entry) : list OutputFile :=
  match es with
  | [] => []
  | e :: es' =>
      match round dir e with
      | Ok pushed => pushed ++ rounds dir es'
      | Throw _ => []
      end
  end.

(** [getFilesRecursive(dir, baseDir)], for what [readdir(dir)] comes
    back with. *)
Definition getFilesRecursive (dir : string) (entries : outcome (list Entry))
  : list OutputFile :=
  match entries with
  | Throw _ => []
  | Ok es => rounds dir es
  end.

End Listing.

(** Nothing throws below this entry. *)
Fixpoint readable (entry : Entry) : Prop :=
  match entry with
  | File _ st => ∃ s, st = Ok s
  | Directory _ st entries =>
      (∃ s, st = Ok s)
      ∧ match entries with
        | Throw _ => False
        | Ok es =>
            (fix all (es : list Entry) : Prop :=
               match es with
               | [] => True
               | e :: es' => readable e ∧ all es'
               end) es
        end
  end.

(** The files below an entry that are not hidden, each with its size
    and the number of folders between. *)
Fixpoint filesBelow (depth : nat) (entry : Entry) : list (nat * nat) :=
  match entry with
  | File entryName st =>
      if hidden entryName then []
      else match st with
           | Ok s => [(depth, statSize s)]
           | Throw _ => []
           end
  | Directory entryName _ entries =>
      if hidden entryName then []
      else match entries with
           | Throw _ => []
           | Ok es =>
               (fix below (es : list Entry) : list (nat * nat) :=
                  match es with
                  | [] => []
                  | e :: es' => filesBelow (S depth) e ++ below es'
                  end) es
           end
  end.

(** The same over the entries of a directory. *)
Definition filesIn (depth : nat) (es : list Entry) : list (nat * nat) :=
  flat_map (filesBelow depth) es.

(** A size counted once per folder level, twice per level in between. *)
Definition inflated (files : list (nat * nat)) : nat :=
  sum_list_with (λ file, 2 ^ file.1 * file.2)%nat files.

(** A name made of names of entries that are not hidden. *)
Inductive VisibleName : string → Prop :=
  | visible_entry entryName :
      hidden entryName = false → VisibleName entryName
  | visible_below entryName rest :
      hidden entryName = false → VisibleName rest →
      VisibleName (String.append entryName (String.append "/" rest)).

End OutputDir.

(** ** A text for the URL field

    The code units of an ASCII text, and a stand-in for [new URL] that
    accepts the strings with a colon in them. *)

Definition units (s : string) : JsString :=
  Ascii.N_of_ascii <$> String.list_ascii_of_string s.

Definition hasScheme (s : JsString) : bool := bool_decide (58%N ∈ s).

(** *** [scrapeLinks] and [saveResults] of the page

    The log lines written on the way are left out: [addLog] touches
    the log only. *)

Module LinkPage.

(** [interface Settings], as far as the two functions read it. *)
Record Settings := {
  recursive : bool;
  maxUrls : Q;
  maxDepth : Q;
  rateLimit : float;
  sameDomainOnly : bool;
  saveFormat : string
}.

(** The body of the request to [/api/save-results]. *)
Record SaveRequest := {
  results : list Result.t;
  format : string;
  mode : string
}.

(** The two endpoints as the page reaches them with [$fetch], which
    throws when the request fails or is answered with an error. *)
Record Client := {
  post : Request → outcome Response.t;
  save : SaveRequest → outcome (list string)
}.

(** The state of the page the two functions write, and the requests to
    [/api/save-results] made so far. *)
Record t := mk {
  linkResults : list Result.t;
  progressDone : nat;
  progressTotal : nat;
  savedFiles : list string;
  saves : list SaveRequest
}.

Section Functions.
Context (C : Client) (settings : Settings) (parsedUrls : list string).

(** The body of the request to [/api/scrape-links]. *)
Definition linkRequest : Request :=
  Build_Request (UrlsArray parsedUrls) (recursive settings)
    (maxUrls settings) (maxDepth settings) (rateLimit settings)
    (sameDomainOnly settings).

(** [saveResults(results)], in the mode ['links']: the page after it,
    and what it throws if it does. *)
Definition saveResults (rs : list Result.t) (page : t)
  : t * option Thrown :=
  match rs with
  | [] => (page, None)
  | _ =>
      let request :=
        {| results := rs; format := saveFormat settings;
           mode := "links" |} in
      let page1 :=
        {| linkResults := linkResults page;
           progressDone := progressDone page;
           progressTotal := progressTotal page;
           savedFiles := savedFiles page;
           saves := saves page ++ [request] |} in
      match save C request with
      | Throw e => (page1, Some e)
      | Ok files =>
          ({| linkResults := linkResults page1;
              progressDone := progressDone page1;
              progressTotal := progressTotal page1;
              savedFiles := files;
              saves := saves page1 |}, None)
      end
  end.

(** [scrapeLinks] *)
Definition scrapeLinks (page : t) : t * option Thrown :=
  match post C linkRequest with
  | Throw e => (page, Some e)
  | Ok response =>
      let total := Stats.totalLinks (Response.stats response) in
      saveResults (Response.results response)
        {| linkResults := Response.results response;
           progressDone := total;
           progressTotal := total;
           savedFiles := savedFiles page;
           saves := saves page |}
  end.

End Functions.

(** The contract of the server, as the page relies on it: [totalLinks]
    counts the results of the response. *)
Definition countsResults (C : Client) : Prop :=
  ∀ request response,
    post C request = Ok response →
    Stats.totalLinks (Response.stats response)
    = length (Response.results response).

End LinkPage.

(** ** The HTML scraper: the handler of [/api/scrape-html] and
    [scrapeHtml] of the page *)

(** [array.slice(from, to)]: a negative index counts from the end, and
    both are clamped to the array. *)
Definition sliceIndex (n : nat) (k : Z) : nat :=
  if k <? 0 then Z.to_nat (Z.max (Z.of_nat n + k) 0)
  else Z.to_nat (Z.min k (Z.of_nat n)).

Definition slice {A : Type} (from to : Z) (l : list A) : list A :=
  let a := sliceIndex (length l) from in
  let b := sliceIndex (length l) to in
  take (b - a) (drop a l).

(** [parts.join(sep)] *)
Fixpoint joinWith (sep : JsString) (parts : list JsString) : JsString :=
  match parts with
  | [] => []
  | [p] => p
  | p :: rest => p ++ sep ++ joinWith sep rest
  end.

(** [interface ScrapeHtmlResult] *)
Module HtmlResult.
Record t := mk {
  url : string;
  status : Z;
  contentType : string;
  size : nat;
  html : JsString;
  error : option string
}.
End HtmlResult.

(** What [fetch] resolves to: the status, the [content-type] header if
    there is one, and the body, reading which may throw. *)
Module Page.
Record t := mk {
  status : Z;
  contentType : option string;
  text : outcome JsString
}.
End Page.

Module ScrapeHtml.

(** [interface ScrapeHtmlRequest] *)
Record Request := {
  urls : UrlsField;
  cssSelector : option JsString
}.

(** The network and the HTML parser as one invocation sees them.

    - [fetchPage i url] is what the [fetch] for the URL at position [i]
      of [body.urls] comes back with; the requests of a batch are in
      flight together.
    - [select selector html] is the outer HTML of the elements of
      [html] that match [selector], as [cheerio] finds them; it throws
      on a selector it cannot parse. *)
Record Env := {
  fetchPage : nat → string → outcome Page.t;
  select : JsString → JsString → outcome (list JsString)
}.

(** The records built in the [catch] blocks, on the server and on the
    page. *)
Definition failed (url : string) (message : string) : HtmlResult.t :=
  {| HtmlResult.url := url;
     HtmlResult.status := 0;
     HtmlResult.contentType := "error";
     HtmlResult.size := 0;
     HtmlResult.html := [];
     HtmlResult.error := Some message |}.

Section Server.
Context (E : Env) (body : Request).

(** [const cssSelector = body.cssSelector?.trim() || ''] *)
Definition selector : JsString :=
  match cssSelector body with
  | Some s => trim s
  | None => []
  end.

(** The comment put before a page none of whose elements matches. *)
Definition noMatch (html : JsString) : JsString :=
  units "<!-- Kein Element gefunden f" ++ [252%N] ++ units "r Selector: "
  ++ selector ++ units " -->" ++ [10%N] ++ html.

(** The part of the page the selector asks for. *)
Definition applySelector (html : JsString) : outcome JsString :=
  if nonEmpty selector then
    match select E selector html with
    | Throw e => Throw e
    | Ok [] => Ok (noMatch html)
    | Ok selected => Ok (joinWith [10%N] selected)
    end
  else Ok html.

(** [response.headers.get('content-type') || 'unknown'] *)
Definition contentTypeOf (page : Page.t) : string :=
  match Page.contentType page with
  | Some c => if truthy c then c else "unknown"
  | None => "unknown"
  end.

(** The task run for the URL at position [i]: whatever is thrown on
    the way ends up in the record. *)
Definition scrapeOne (i : nat) (url : string) : HtmlResult.t :=
  match fetchPage E i url with
  | Throw e => failed url (errorMessage e)
  | Ok page =>
      match Page.text page with
      | Throw e => failed url (errorMessage e)
      | Ok html =>
          match applySelector html with
          | Throw e => failed url (errorMessage e)
          | Ok html' =>
              {| HtmlResult.url := url;
                 HtmlResult.status := Page.status page;
                 HtmlResult.contentType := contentTypeOf page;
                 HtmlResult.size := length html';
                 HtmlResult.html := html';
                 HtmlResult.error := None |}
          end
      end
  end.

Definition batchSize : Z := 5.

(** One round of the [for] loop over the batches, from the index [i]
    and the [results] so far; [None] when the loop has ended. *)
Definition batchStep (st : Z * list HtmlResult.t)
  : option (Z * list HtmlResult.t) :=
  let '(i, results) := st in
  if i <? Z.of_nat (length (urlList (urls body))) then
    let batch := slice i (i + batchSize) (urlList (urls body)) in
    let batchResults := imap (λ j url, scrapeOne (Z.to_nat i + j) url) batch in
    Some (i + batchSize, results ++ batchResults)
  else None.

Fixpoint batchLoop (fuel : nat) (st : Z * list HtmlResult.t)
  : Z * list HtmlResult.t :=
  match fuel with
  | O => st
  | S n => match batchStep st with
           | Some st' => batchLoop n st'
           | None => st
           end
  end.

(** The handler; the loop is run for as many rounds as there are URLs,
    within which it ends. *)
Definition handler : HttpError + list HtmlResult.t :=
  if negb (urlsTruthy (urls body)) || negb (isArray (urls body))
  then inl {| statusCode := 400; message := "urls array required" |}
  else inr (batchLoop (length (urlList (urls body))) (0, [])).2.

End Server.

(** *** [scrapeHtml] of the page

    The log lines written on the way are left out: [addLog] touches
    the log only.  A response is taken to be what its type says, an
    array of records. *)

(** [interface Settings], as far as [scrapeHtml] reads it. *)
Record Settings := {
  settingsSelector : JsString;
  parallelRequests : Z
}.

(** [post k request] is what the [k]-th [$fetch] of
    [/api/scrape-html] comes back with. *)
Record Client := {
  post : nat → Request → outcome (list HtmlResult.t)
}.

(** The locals of [scrapeHtml] and the state of the page it writes. *)
Record Progress := {
  index : Z;
  calls : nat;
  results : list HtmlResult.t;
  progressDone : Z;
  htmlResults : list HtmlResult.t
}.

Section ClientSide.
Context (C : Client) (settings : Settings) (parsedUrls : list string).

(** [const batchSize = settings.value.parallelRequests || 5] *)
Definition clientBatchSize : Z :=
  if parallelRequests settings =? 0 then 5 else parallelRequests settings.

(** [e instanceof Error ? e.message : 'Fehler'] *)
Definition clientMessage (e : Thrown) : string :=
  match e with
  | ThrownError m => m
  | ThrownOther => "Fehler"
  end.

(** One round of the [for] loop of [scrapeHtml]. *)
Definition scrapeStep (st : Progress) : option Progress :=
  let i := index st in
  if i <? Z.of_nat (length parsedUrls) then
    let batch := slice i (i + clientBatchSize) parsedUrls in
    let request :=
      {| urls := UrlsArray batch;
         cssSelector := Some (settingsSelector settings) |} in
    let results1 :=
      match post C (calls st) request with
      | Ok response => results st ++ response
      | Throw e =>
          results st ++ ((λ url, failed url (clientMessage e)) <$> batch)
      end in
    Some {| index := i + clientBatchSize;
            calls := S (calls st);
            results := results1;
            progressDone :=
              Z.min (i + clientBatchSize) (Z.of_nat (length parsedUrls));
            htmlResults := results1 |}
  else None.

Fixpoint scrapeLoop (fuel : nat) (st : Progress) : Progress :=
  match fuel with
  | O => st
  | S n => match scrapeStep st with
           | Some st' => scrapeLoop n st'
           | None => st
           end
  end.

(** [scrapeHtml] entered with the progress [done] and the table
    [shown], up to the call of [saveResults]. *)
Definition scrapeHtml (fuel : nat) (done : Z) (shown : list HtmlResult.t)
  : Progress :=
  scrapeLoop fuel
    {| index := 0; calls := 0; results := []; progressDone := done;
       htmlResults := shown |}.

(** What holds after every round: the loop has made [calls] requests
    and stands at [calls * batchSize], not more than one batch past
    the end; there is one row per URL before that index; and the page
    shows the progress and the rows. *)
Record Batched (st : Progress) : Prop := {
  bt_index : index st = Z.of_nat (calls st) * clientBatchSize;
  bt_results :
    HtmlResult.url <$> results st = take (Z.to_nat (index st)) parsedUrls;
  bt_last :
    calls st = 0%nat
    ∨ index st - clientBatchSize < Z.of_nat (length parsedUrls);
  bt_shown :
    calls st = 0%nat
    ∨ (progressDone st = Z.min (index st) (Z.of_nat (length parsedUrls))
       ∧ htmlResults st = results st)
}.

(** The contract of the server, as the page relies on it: a batch is
    answered with one record per URL, in order. *)
Definition answersInOrder : Prop :=
  ∀ k request response,
    post C k request = Ok response →
    HtmlResult.url <$> response = urlList (urls request).

End ClientSide.

End ScrapeHtml.

(** ** File access: the handler of [/api/read-file] *)

Module ReadFile.

(** [query.path]: absent, one value, or the list of values of a
    parameter given more than once. *)
Inductive PathParam :=
  | PathAbsent
  | PathString (s : string)
  | PathList (l : list string).

(** How the handler answers: with the content of a file, with an HTTP
    error of its own, or with an error it does not catch. *)
Inductive Answer :=
  | Content (content : string)
  | Refused (e : HttpError)
  | Uncaught.

(** The file system as the handler reaches it: [resolve p] is
    [path.resolve(p)], [outputDir] is what [resolve(process.cwd(),
    'output')] gives, [readFile p] is the content of the file at [p] or
    throws. *)
Record Env := {
  resolve : string → string;
  outputDir : string;
  readFile : string → outcome string
}.

(** The handler, with the paths it has called [readFile] on.
    [path.resolve] throws a [TypeError] on an argument that is not a
    string. *)
Definition handler (E : Env) (path : PathParam) : Answer * list string :=
  match path with
  | PathAbsent =>
      (Refused {| statusCode := 400; message := "path parameter required" |},
       [])
  | PathList _ => (Uncaught, [])
  | PathString filePath =>
      if negb (truthy filePath) then
        (Refused {| statusCode := 400;
                    message := "path parameter required" |}, [])
      else
        let resolvedPath := resolve E filePath in
        if negb (String.prefix (String.append (outputDir E) "/") resolvedPath)
           && negb (String.eqb resolvedPath (outputDir E))
        then (Refused {| statusCode := 403; message := "Access denied" |}, [])
        else
          match readFile E resolvedPath with
          | Ok content => (Content content, [resolvedPath])
          | Throw _ =>
              (Refused {| statusCode := 404; message := "File not found" |},
               [resolvedPath])
          end
  end.

End ReadFile.

(** ** A server and settings for the HTML scraper

    Every page of the small site but [pageDown] is served, its markup
    standing for itself. *)

Definition pages : ScrapeHtml.Env := {|
  ScrapeHtml.fetchPage i url :=
    if String.eqb url pageDown then Throw fetchFailed
    else Ok (Page.mk 200 (Some "text/html") (Ok (units url)));
  ScrapeHtml.select selector html := Ok []
|}.

Definition htmlRequest : ScrapeHtml.Request := {|
  ScrapeHtml.urls := UrlsArray [home; pageB; pageDown; pageC; elsewhere; home];
  ScrapeHtml.cssSelector := Some (units " h1 ")
|}.

(** The page talks to that server. *)
Definition served : ScrapeHtml.Client := {|
  ScrapeHtml.post k request :=
    match ScrapeHtml.handler pages request with
    | inl e => Throw (ThrownError (message e))
    | inr response => Ok response
    end
|}.

Definition twoAtATime : ScrapeHtml.Settings := {|
  ScrapeHtml.settingsSelector := [];
  ScrapeHtml.parallelRequests := 2
|}.

Definition backwards : ScrapeHtml.Settings := {|
  ScrapeHtml.settingsSelector := [];
  ScrapeHtml.parallelRequests := -1
|}.

(** ** A file system for the file handler *)

Definition disk : ReadFile.Env := {|
  ReadFile.resolve p := p;
  ReadFile.outputDir := "/srv/output";
  ReadFile.readFile p :=
    if String.eqb p "/srv/output/a.json" then Ok "[]"
    else Throw (ThrownError "ENOENT")
|}.

(** ** A full log *)

Definition fullLog : list Log.t :=
  replicate 100 (Log.mk "12:00:00" "old" Log.info).

(** ** The page in front of the small site *)

Definition linked : LinkPage.Client := {|
  LinkPage.post request :=
    match handler site request tt with
    | (inl e, _, _) => Throw (ThrownError (message e))
    | (inr response, _, _) => Ok response
    end;
  LinkPage.save request := Ok ["links.json"]
|}.

Definition auditSettings : LinkPage.Settings := {|
  LinkPage.recursive := true;
  LinkPage.maxUrls := 10;
  LinkPage.maxDepth := 3;
  LinkPage.rateLimit := 2;
  LinkPage.sameDomainOnly := true;
  LinkPage.saveFormat := "json"
|}.

Definition blankPage : LinkPage.t := LinkPage.mk [] 0 1 [] [].

(** ** An output directory

    A folder [a] with a hidden file and a folder [b] in it, which holds
    one file of 10 bytes. *)

Definition slashJoin (dir entryName : string) : string :=
  String.append dir (String.append "/" entryName).

Definition noon : OutputDir.Stat :=
  {| OutputDir.statSize := 4096;
     OutputDir.mtime := "2024-01-01T12:00:00.000Z" |}.

Definition folderB : list OutputDir.Entry :=
  [ OutputDir.File "c.json"
      (Ok {| OutputDir.statSize := 10;
             OutputDir.mtime := "2024-01-01T12:00:00.000Z" |}) ].

Definition folderA : list OutputDir.Entry :=
  [ OutputDir.File ".keep"
      (Ok {| OutputDir.statSize := 5;
             OutputDir.mtime := "2024-01-01T12:00:00.000Z" |});
    OutputDir.Directory "b" (Ok noon) (Ok folderB) ].

(** ** Proof automation *)

(** Unfolding the operations on the store. *)
Ltac store_ops :=
  unfold tryCatch, catchBlock, sleep, pushQueue, addVisited, pushResult,
    logEvent, setWorld, setQueue in *; simpl in *.

(** Case analysis on every branch a step can take. *)
Ltac step_cases H :=
  unfold step, tryPage, tryLink, seedStep, wantsCrawl in H; simpl in H;
  repeat (case_match; simplify_eq; simpl in * );
  simplify_eq; store_ops.

(** ** Comparing with a number of the request *)

Lemma lt_ceiling (k : Z) (x : Q) : (inject_Z k < x)%Q ↔ k < Qceiling x.
Proof.
  split.
  - intros H. rewrite Zlt_Qlt.
    eapply Qlt_le_trans; [exact H|apply Qle_ceiling].
  - intros H. eapply Qle_lt_trans; [|apply Qceiling_lt].
    rewrite <- Zle_Qle. lia.
Qed.

(** The test [n < x] is the test [n < ⌈x⌉] on integers. *)
Lemma below_ceiling (n : nat) (x : Q) :
  below n x = (Z.of_nat n <? Qceiling x).
Proof.
  unfold below. destruct (Z.ltb_spec (Z.of_nat n) (Qceiling x)) as [H|H].
  - apply negb_true_iff, not_true_iff_false. rewrite Qle_bool_iff.
    apply Qlt_not_le. by apply lt_ceiling.
  - apply negb_false_iff, Qle_bool_iff. apply Qnot_lt_le.
    rewrite lt_ceiling. lia.
Qed.

(** [n ≤ ⌈x⌉] says that [n] is less than [x + 1]. *)
Lemma le_ceiling (n : Z) (x : Q) : n ≤ Qceiling x ↔ (inject_Z n < x + 1)%Q.
Proof.
  transitivity (n - 1 < Qceiling x); [lia|]. rewrite <- lt_ceiling.
  unfold Z.sub. rewrite inject_Z_plus.
  change (inject_Z (- (1))) with (- (1))%Q. split; intros; lra.
Qed.

Lemma ceiling_le (k : Z) (x : Q) : (x <= inject_Z k)%Q ↔ Qceiling x ≤ k.
Proof.
  split.
  - intros H. apply Z.nlt_ge. rewrite <- lt_ceiling. by apply Qle_not_lt.
  - intros H. apply Qnot_lt_le. rewrite lt_ceiling. lia.
Qed.

Lemma below_lt (n : nat) (x : Q) :
  below n x = true ↔ (inject_Z (Z.of_nat n) < x)%Q.
Proof. by rewrite below_ceiling, Z.ltb_lt, lt_ceiling. Qed.

Lemma below_ge (n : nat) (x : Q) :
  below n x = false ↔ (x <= inject_Z (Z.of_nat n))%Q.
Proof.
  rewrite <- not_true_iff_false, below_lt. split; [apply Qnot_lt_le|].
  intros ??. by eapply Qlt_not_le.
Qed.

(** ** Termination of the loops *)

Section Termination.
Context {World : Type} (E : Env World) (body : Request).

Lemma belowCap_room (s : Store World) :
  belowCap body s = true →
  (0 < Z.to_nat (Qceiling (maxUrls body) - Z.of_nat (length (results s))))%nat.
Proof. unfold belowCap. rewrite below_ceiling. intros H%Z.ltb_lt. lia. Qed.

Lemma step_budget (c c' : Config World) :
  step E body c = Some c' → (budget body c' < budget body c)%nat.
Proof.
  intros H. destruct c as [ctl [rs vs q w tr]]. unfold budget.
  destruct ctl as [[|u rest]| |item [|link rest]];
    step_cases H;
    repeat match goal with
           | Hb : belowCap _ _ = true |- _ =>
               apply belowCap_room in Hb; simpl in Hb
           end;
    rewrite ?length_app in *; simpl in *; try lia.
Qed.

Lemma run_terminal (n : nat) (c : Config World) :
  (budget body c ≤ n)%nat → step E body (run E body n c) = None.
Proof.
  revert c. induction n as [|n IH]; intros c Hn; simpl.
  - destruct (step E body c) as [c'|] eqn:Hs; [|done].
    apply step_budget in Hs. lia.
  - destruct (step E body c) as [c'|] eqn:Hs; [|done].
    apply IH. apply step_budget in Hs. lia.
Qed.

Lemma run_reachable us w (n : nat) (c : Config World) :
  reachable E body us w c → reachable E body us w (run E body n c).
Proof.
  revert c. induction n as [|n IH]; intros c Hc; simpl; [done|].
  destruct (step E body c) as [c'|] eqn:Hs; [|done].
  apply IH. by eapply reach_step.
Qed.

End Termination.

(** ** Traces grow at the end *)

Lemma visitedUrls_snoc tr e :
  visitedUrls (tr ++ [e]) =
  visitedUrls tr ++ match e with EvVisit u => [u] | _ => [] end.
Proof. unfold visitedUrls. rewrite omap_app. by destruct e. Qed.

Lemma pushedItems_snoc tr e :
  pushedItems (tr ++ [e]) =
  pushedItems tr ++ match e with EvPush it => [it] | _ => [] end.
Proof. unfold pushedItems. rewrite omap_app. by destruct e. Qed.

Lemma fetchedUrls_snoc tr e :
  fetchedUrls (tr ++ [e]) =
  fetchedUrls tr ++ match e with EvFetch u _ => [u] | _ => [] end.
Proof. unfold fetchedUrls. rewrite omap_app. by destruct e. Qed.

Lemma pushedUrls_snoc tr e :
  pushedUrls (tr ++ [e]) =
  pushedUrls tr ++ match e with EvPush it => [Item.url it] | _ => [] end.
Proof.
  unfold pushedUrls. rewrite pushedItems_snoc, fmap_app. by destruct e.
Qed.

Ltac trace_snoc :=
  rewrite ?visitedUrls_snoc, ?pushedUrls_snoc, ?pushedItems_snoc,
    ?fetchedUrls_snoc in *; simpl in *;
  rewrite ?app_nil_r in *.

Lemma sinceLast_snoc tr e : sinceLast (tr ++ [e]) = stepGap (sinceLast tr) e.
Proof. unfold sinceLast. by rewrite fold_left_app. Qed.

Lemma sleeps_snoc tr e :
  sleeps (tr ++ [e]) =
  sleeps tr ++ match e with EvSleep ms => [ms] | _ => [] end.
Proof. unfold sleeps. rewrite omap_app. by destruct e. Qed.

Lemma sinceLast_from a r1 mid :
  Forall (λ e, isRequest e = false) mid →
  fold_left stepGap mid (Some (r1, a)) = Some (r1, a ++ sleeps mid).
Proof.
  intros Hmid. revert a.
  induction Hmid as [|e mid He _ IH]; intros a.
  - simpl. by rewrite app_nil_r.
  - cbn [fold_left]. unfold stepGap at 2. rewrite He, IH, <- app_assoc.
    by destruct e.
Qed.

Lemma sinceLast_after pre r1 mid :
  isRequest r1 = true → Forall (λ e, isRequest e = false) mid →
  sinceLast (pre ++ r1 :: mid) = Some (r1, sleeps mid).
Proof.
  intros Hr Hmid. unfold sinceLast. rewrite fold_left_app. simpl.
  unfold stepGap at 2. rewrite Hr. by rewrite sinceLast_from.
Qed.

Lemma gapsAfter_nil from ok : gapsAfter from ok [].
Proof. intros pre r1 mid r2 post H. by destruct pre. Qed.

Lemma gapsAfter_snoc from ok tr e :
  (∀ r, from r = true → isRequest r = true) →
  gapsAfter from ok tr →
  (isRequest e = true →
   ∀ r1 a, sinceLast tr = Some (r1, a) → from r1 = true → ok e a) →
  gapsAfter from ok (tr ++ [e]).
Proof.
  intros Hsub Htr He pre r1 mid r2 post Heq Hfrom Hreq Hmid.
  destruct post as [|x post _] using rev_ind.
  - replace (pre ++ r1 :: mid ++ [r2]) with ((pre ++ r1 :: mid) ++ [r2]) in Heq
      by (by rewrite <- app_assoc).
    apply app_inj_tail in Heq as [-> ->].
    eapply He; [done| |done]. apply sinceLast_after; [|done].
    by apply Hsub.
  - replace (pre ++ r1 :: mid ++ r2 :: post ++ [x])
      with ((pre ++ r1 :: mid ++ r2 :: post) ++ [x]) in Heq
      by (repeat (rewrite <- app_assoc; simpl); done).
    apply app_inj_tail in Heq as [-> ->]. by eapply Htr.
Qed.

(** Boolean tests of the code as propositions. *)
Ltac bool_props :=
  repeat match goal with
    | H : _ && _ = true |- _ => apply andb_true_iff in H; destruct H
    | H : _ || _ = true |- _ => apply orb_true_iff in H
    | H : negb _ = true |- _ => apply negb_true_iff in H
    | H : negb _ = false |- _ => apply negb_false_iff in H
    | H : bool_decide _ = true |- _ => apply bool_decide_eq_true in H
    | H : bool_decide _ = false |- _ => apply bool_decide_eq_false in H
    | H : below _ _ = _ |- _ => rewrite below_ceiling in H
    | H : (_ <? _) = true |- _ => apply Z.ltb_lt in H
    | H : (_ <? _) = false |- _ => apply Z.ltb_ge in H
    | H : (_ <? _)%nat = true |- _ => apply Nat.ltb_lt in H
    | H : (_ <? _)%nat = false |- _ => apply Nat.ltb_ge in H
    end.

(** ** The invariants hold along every run *)

Section Invariants.
Context {World : Type} (E : Env World) (body : Request).
Implicit Types (c : Config World) (s : Store World) (w : World).

(** An invariant holds in every reachable configuration as soon as it
    holds initially and every step keeps it. *)
Lemma reachable_ind_inv (P : Config World → Prop) us w :
  P (initial us w) →
  (∀ c c', P c → step E body c = Some c' → P c') →
  ∀ c, reachable E body us w c → P c.
Proof. intros H0 Hstep c Hc. induction Hc; eauto. Qed.

Lemma step_Move c c' : step E body c = Some c' → Move E body c c'.
Proof.
  intros H. destruct c as [ctl [rs vs q w tr]].
  destruct ctl as [[|u rest]| |item [|link rest]];
    step_cases H;
    solve [ econstructor; simpl; rewrite <- ?app_assoc;
            rewrite ?elem_of_app, ?list_elem_of_singleton; eauto; done ].
Qed.

(** Steps only ever append to the trace. *)
Lemma step_trace_prefix c c' :
  step E body c = Some c' → trace (store c) `prefix_of` trace (store c').
Proof.
  intros H. destruct c as [ctl [rs vs q w tr]].
  destruct ctl as [[|u rest]| |item [|link rest]];
    step_cases H; rewrite <- ?app_assoc;
    solve [ by apply prefix_app_r | done ].
Qed.

(** *** The cap on the number of results *)

Lemma Capped_step c c' :
  extractsAbsolute E → Capped E body c → step E body c = Some c' → Capped E body c'.
Proof.
  intros Hext [Hlen Hctl] Hs%step_Move. unfold Capped.
  destruct Hs; unfold belowCap in *;
    rewrite Hres, ?length_app, Hctl'; simpl;
    rewrite ?Hctl0 in Hctl; bool_props; try (split; [lia|]); try done.
  - intros l Hl. by eapply Hext.
  - intros l Hl. apply Hctl. by right.
  - destruct (Hctl link) as [h Hh]; [by left|]. congruence.
Qed.

(** *** Frontier items carry no [sourceUrl] *)

Lemma Unsourced_step c c' :
  Unsourced c → step E body c = Some c' → Unsourced c'.
Proof.
  intros [Hq0 Hctl] Hs%step_Move. unfold Unsourced.
  destruct Hs; rewrite Hctl'; rewrite ?Hctl0 in Hctl; simpl;
    try destruct Hq as [Hq|Hq]; rewrite ?Hq in *;
    (split; [|done || (apply Hq0; by left)]);
    intros it; rewrite ?elem_of_app, ?list_elem_of_singleton;
    try (intros [?| ->]; [eauto|done]); eauto;
    intros Hit; apply Hq0; by right.
Qed.

(** *** Depth levels *)

Lemma sorted_snoc (l : list nat) (x : nat) :
  StronglySorted le l → (∀ y, y ∈ l → (y ≤ x)%nat) →
  StronglySorted le (l ++ [x]).
Proof.
  intros Hl Hx. apply StronglySorted_app. split_and!; [|done|].
  - intros y z Hy ->%list_elem_of_singleton. by apply Hx.
  - repeat constructor.
Qed.

Lemma Levels_initial us w : Levels (initial us w).
Proof.
  exists 0%nat. split; simpl; try constructor; try done; intros; set_solver.
Qed.

Ltac levels_elems :=
  intros;
  repeat match goal with
    | H : _ ∈ _ ++ _ |- _ => apply elem_of_app in H; destruct H
    | H : _ ∈ [_] |- _ => apply list_elem_of_singleton in H; subst
    | H : _ ∈ _ :: _ |- _ => apply elem_of_cons in H; destruct H; subst
    | H : _ ∈ [] |- _ => by apply elem_of_nil in H
    end;
  repeat match goal with
    | H : ∀ e, e ∈ Item.depth <$> _ → _, He : _ ∈ Item.depth <$> _ |- _ =>
        pose proof (H _ He); clear H
    | H : ∀ d, d ∈ Result.depth <$> _ → _, Hd : _ ∈ Result.depth <$> _ |- _ =>
        pose proof (H _ Hd); clear H
    end;
  simpl in *; try lia.

Ltac levels_goal :=
  split; simpl;
  repeat match goal with
    | H : control _ = _ |- _ => rewrite H
    | H : results _ = _ |- _ => rewrite H
    | H : queue _ = _ |- _ => rewrite H
    end;
  rewrite ?fmap_app; simpl;
  try done; try split_and!; try done; try apply SSorted_nil;
  try (change [?x; ?y] with ([x] ++ [y]); rewrite app_assoc);
  repeat apply sorted_snoc; try done;
  levels_elems.

Lemma Levels_step c c' : Levels c → step E body c = Some c' → Levels c'.
Proof.
  intros [lvl [Hr Hq0 Hd Ht Hctl]] Hs%step_Move.
  destruct Hs; rewrite ?Hctl0 in Hctl; destruct_and?; subst.
  - exists 0%nat. levels_goal.
  - exists 0%nat. levels_goal.
  - exists 0%nat. levels_goal.
  - rewrite Hq in Hq0, Ht. rewrite fmap_cons in Hq0, Ht.
    apply StronglySorted_inv in Hq0 as [Hq0 Hhd].
    rewrite Forall_forall in Hhd.
    pose proof (Ht (Item.depth item) ltac:(by left)).
    exists (Item.depth item). split; rewrite ?Hctl', ?Hres; try done.
    + intros d Hd'%Hd. lia.
    + intros e He. pose proof (Hhd e He).
      pose proof (Ht e ltac:(by right)). lia.
  - rewrite Hq in Hq0, Ht. rewrite fmap_cons in Hq0, Ht.
    apply StronglySorted_inv in Hq0 as [Hq0 Hhd].
    rewrite Forall_forall in Hhd.
    pose proof (Ht (Item.depth item) ltac:(by left)).
    exists (Item.depth item). split; rewrite ?Hctl', ?Hres, ?fmap_app;
      simpl; try done.
    + apply sorted_snoc; [done|]. intros d Hd'%Hd. lia.
    + levels_elems.
    + intros e' He. pose proof (Hhd e' He).
      pose proof (Ht e' ltac:(by right)). lia.
  - exists (Item.depth item). levels_goal.
  - exists (Item.depth item). destruct Hq as [Hq|Hq]; levels_goal.
  - exists (Item.depth item). levels_goal.
  - exists (Item.depth item). levels_goal.
Qed.

(** *** Where results come from *)

Lemma fromLink_prefix tr tr' r :
  tr `prefix_of` tr' → fromLink E tr r → fromLink E tr' r.
Proof.
  intros [k ->] (item & html & links & link & info & ? & ? & ? & ? & ?).
  exists item, html, links, link, info.
  rewrite !elem_of_app. naive_solver.
Qed.

Lemma Provenance_step c c' :
  Unsourced c → Provenance E c → step E body c = Some c' → Provenance E c'.
Proof.
  intros [Hq0 Hsrc] [Hr Hctl] Hs.
  pose proof (step_trace_prefix _ _ Hs) as Hpre.
  apply step_Move in Hs.
  assert (∀ r, r ∈ results (store c) →
               fromLink E (trace (store c')) r ∨ fromFailure r) as Hr'.
  { intros r [?|?]%Hr; [left|by right]. by eapply fromLink_prefix. }
  assert (∀ item e, Item.sourceUrl item = None →
                    fromFailure (failureResult item e)) as Hfail.
  { intros item e ?. by exists item, e. }
  split.
  - destruct Hs; rewrite Hres; try done;
      rewrite ?Hctl0 in Hsrc;
      try (assert (Item.sourceUrl item = None)
             by (apply Hq0; rewrite Hq; by left));
      intros r; rewrite ?elem_of_app, ?elem_of_cons, ?elem_of_nil;
      intros Hin; destruct_or?; subst; eauto;
      rewrite Hctl0 in Hctl;
      destruct Hctl as (html & links & Hf & Hx & Hsub);
      left; exists item, html, links, link, info;
      split_and!; try done;
      solve [ destruct Hpre as [k ->]; rewrite elem_of_app; by left
            | apply Hsub; by left ].
  - destruct Hs; rewrite Hctl'; try done.
    + exists html, links. done.
    + rewrite Hctl0 in Hctl.
      destruct Hctl as (html & links & Hf & Hx & Hsub).
      exists html, links. split_and!; [|done|].
      * destruct Hpre as [k ->]; rewrite elem_of_app; by left.
      * intros l Hl. apply Hsub. by right.
Qed.

(** *** The re-enqueue decision *)

Lemma app_inv_self {A} (l k : list A) : l = l ++ k → k = [].
Proof.
  intros H. symmetry. apply (app_inv_head l). by rewrite app_nil_r.
Qed.

Ltac emitted Hev Hin :=
  unfold emits in Hev; simpl in Hev; rewrite <- ?app_assoc in Hev;
  first [ apply app_inv_self in Hev | apply app_inv_head in Hev ];
  subst; simpl in Hin;
  repeat (rewrite ?elem_of_cons, ?elem_of_nil in Hin);
  destruct_or?; simplify_eq.

Lemma push_decision c c' evs it :
  step E body c = Some c' → emits c c' evs → EvPush it ∈ evs →
  (seedPush E c it ∨ linkPush E body c it)
  ∧ (Item.url it ∉ visited (store c))
  ∧ Item.url it ∈ visited (store c')
  ∧ EvVisit (Item.url it) ∈ evs.
Proof.
  intros H Hev Hin. destruct c as [ctl [rs vs q w tr]].
  destruct ctl as [[|u rest]| |item [|link rest]];
    step_cases H; emitted Hev Hin; bool_props; simpl.
  - split_and!; [left; by eexists _, _, _|done|set_solver|set_solver].
  - split_and!; [right|done|set_solver|set_solver].
    eexists _, _, _. split_and!; try done; [by apply lt_ceiling|].
    intros Hsame. rewrite Hsame in *. simpl in *. destruct_or?; [done|].
    bool_props. eauto.
Qed.

(** The order of the calls in a pushing step: the seeding loop pushes,
    then adds to the visited set; the link loop adds, then pushes. *)
Lemma push_events c c' evs it :
  step E body c = Some c' → emits c c' evs → EvPush it ∈ evs →
  evs = [EvPush it; EvVisit (Item.url it)]
  ∨ ∃ r, evs = [EvResolve (Item.url it) r; EvVisit (Item.url it); EvPush it;
                EvSleep (halfDelay body)].
Proof.
  intros H Hev Hin. destruct c as [ctl [rs vs q w tr]].
  destruct ctl as [[|u rest]| |item [|link rest]];
    step_cases H; emitted Hev Hin; simpl; eauto.
Qed.

(** Nothing but [queue.push] makes the frontier grow, and it grows at
    the tail. *)
Lemma queue_growth c c' evs :
  step E body c = Some c' → emits c c' evs →
  ∃ dropped,
    dropped ++ queue (store c') = queue (store c) ++ pushedItems evs
    ∧ (length dropped ≤ 1)%nat.
Proof.
  intros H Hev. destruct c as [ctl [rs vs q w tr]].
  destruct ctl as [[|u rest]| |item [|link rest]];
    step_cases H;
    (unfold emits in Hev; simpl in Hev; rewrite <- ?app_assoc in Hev;
     first [ apply app_inv_self in Hev | apply app_inv_head in Hev ];
     subst; simpl; rewrite ?app_nil_r);
    first [ exists []; split; [done|simpl; lia]
          | eexists [_]; split; [done|simpl; lia] ].
Qed.

Lemma pushedItems_elem tr it : it ∈ pushedItems tr ↔ EvPush it ∈ tr.
Proof.
  unfold pushedItems. rewrite list_elem_of_omap. split.
  - intros (e & He & Heq). destruct e; by simplify_eq.
  - intros He. by exists (EvPush it).
Qed.

Lemma pushedItems_app tr1 tr2 :
  pushedItems (tr1 ++ tr2) = pushedItems tr1 ++ pushedItems tr2.
Proof. apply omap_app. Qed.

Lemma Scope_initial us w : Scope E body us (initial us w).
Proof. split; simpl; [done|]. intros it Hit. by apply elem_of_nil in Hit. Qed.

Lemma Scope_step us c c' :
  Scope E body us c → step E body c = Some c' → Scope E body us c'.
Proof.
  intros [Hseeds Hpushed] Hs.
  destruct (step_trace_prefix _ _ Hs) as [evs Hev]. split.
  - apply step_Move in Hs. destruct Hs; rewrite Hctl'; try done;
      rewrite Hctl in Hseeds; by eapply suffix_cons_l.
  - intros it. rewrite Hev, pushedItems_app, elem_of_app.
    intros [Hit|Hit]; [by apply Hpushed|].
    apply pushedItems_elem in Hit.
    destruct (push_decision _ _ _ _ Hs Hev Hit) as [[Hpush|Hpush] _].
    + destruct Hpush as (u & rest & n & Hctl & Hn & ->).
      rewrite Hctl in Hseeds. destruct Hseeds as [k ->].
      left. split; [done|]. exists u. split; [|done].
      rewrite elem_of_app. right. by left.
    + destruct Hpush as (item & link & rest & Hctl & -> & ? & ? & ? & ?).
      right. split_and!; simpl; [lia|done|done].
Qed.

Lemma Flat_step us c c' :
  recursive body = false →
  Flat us c → step E body c = Some c' → Flat us c'.
Proof.
  intros Hrec HF H. unfold Flat in *. destruct c as [ctl [rs vs q w tr]].
  destruct ctl as [[|u rest]| |item [|link rest]];
    step_cases H; bool_props; trace_snoc; rewrite ?length_app; simpl in *;
    solve [ lia | congruence ].
Qed.

(** *** Pacing of the requests *)

Lemma isResolve_isRequest e : isResolve e = true → isRequest e = true.
Proof. by destruct e. Qed.

Lemma isFetch_isRequest e : isFetch e = true → isRequest e = true.
Proof. by destruct e. Qed.

Lemma Paced_initial us w : Paced body (initial us w).
Proof.
  split; simpl; [apply gapsAfter_nil|apply gapsAfter_nil| |done].
  intros ms H. by apply elem_of_nil in H.
Qed.

Lemma Paced_step c c' :
  Paced body c → step E body c = Some c' → Paced body c'.
Proof.
  intros [Hg Hg' Hf Hp] H.
  destruct c as [ctl [rs vs q w tr]]. simpl in *.
  destruct (sinceLast tr) as [[r1 a]|] eqn:Hlast;
  destruct ctl as [[|u rest]| |item [|link rest]];
    step_cases H; bool_props;
    split; simpl;
    try done;
    try (repeat (apply gapsAfter_snoc;
                 [first [apply isResolve_isRequest|apply isFetch_isRequest]|
                 |try (intros; discriminate)]);
         try done;
         intros _ r1' a'; rewrite ?sinceLast_snoc, Hlast;
         unfold stepGap, afterCheck, afterFetch; simpl;
         intros Heq Hfrom; simplify_eq;
         destruct Hp as [Hp Hp'];
         first [ destruct (Hp Hfrom) as [? [?|[? ?]]]
               | specialize (Hp' Hfrom) ];
         simplify_eq; simpl in *; solve [ eauto | lia | done ]);
    try (intros ms; rewrite ?elem_of_app, ?list_elem_of_singleton;
         intros; destruct_or?; simplify_eq; eauto; fail);
    try (rewrite ?sinceLast_snoc, Hlast; unfold stepGap; simpl;
         first
           [ done
           | rewrite ?app_nil_r, ?length_app; simpl;
             try destruct Hp as [Hp Hp'];
             split; [|solve [done | eauto]];
             intros Hres;
             first
               [ done
               | split; [lia|]; solve [eauto]
               | destruct (Hp Hres) as [? [?|[? ?]]]; simplify_eq;
                 split; [lia || done|]; solve [eauto] ] ]).
Qed.

(** *** Bookkeeping of the visited set and the frontier *)

Lemma Books_initial us w : Books (initial us w).
Proof. split; simpl; try done. constructor. Qed.

Lemma Books_step c c' : Books c → step E body c = Some c' → Books c'.
Proof.
  intros [Hv Hn Hp Hf Hi] H. destruct c as [ctl [rs vs q w tr]].
  simpl in *.
  destruct ctl as [[|u rest]| |item [|link rest]];
    step_cases H; bool_props; split; simpl; trace_snoc;
    rewrite ?fmap_app, ?list_to_set_app_L in *; simpl in *;
    try done;
    try (rewrite NoDup_app; split_and!; [done| |apply NoDup_singleton];
         intros x Hx ->%list_elem_of_singleton; set_solver);
    try set_solver;
    try (by rewrite <- Hf, <- app_assoc);
    try (rewrite ?app_assoc; congruence).
Qed.

Lemma Books_reachable us w c : reachable E body us w c → Books c.
Proof.
  apply reachable_ind_inv; [apply Books_initial | apply Books_step].
Qed.

End Invariants.

(** ** Properties of the handler *)

Section Properties.
Context {World : Type} (E : Env World) (body : Request).
Implicit Types (c : Config World) (s : Store World) (w : World).

Lemma Capped_reachable us w c :
  (0 <= maxUrls body)%Q → extractsAbsolute E →
  reachable E body us w c → Capped E body c.
Proof.
  intros Hcap Hext. apply reachable_ind_inv.
  - split; simpl; [|done]. apply le_ceiling.
    change (0 < maxUrls body + 1)%Q. lra.
  - intros ????. by eapply Capped_step.
Qed.

Lemma handler_run_of req us w :
  urls req = UrlsArray us →
  ∃ c, reachable E req us w c
       ∧ step E req c = None
       ∧ handler E req w
         = (inr (respond (store c)), world (store c), trace (store c)).
Proof.
  intros Hus. unfold handler. rewrite Hus. simpl.
  exists (run E req (budget req (initial us w)) (initial us w)).
  split_and!; [|by apply run_terminal|done].
  apply run_reachable, reach_initial.
Qed.

Lemma handler_run us w :
  urls body = UrlsArray us →
  ∃ c, reachable E body us w c
       ∧ step E body c = None
       ∧ handler E body w
         = (inr (respond (store c)), world (store c), trace (store c)).
Proof. apply handler_run_of. Qed.

Lemma handler_results us w resp w' tr :
  urls body = UrlsArray us → handler E body w = (inr resp, w', tr) →
  ∃ c, reachable E body us w c ∧ Response.results resp = results (store c).
Proof.
  intros Hus Hh. destruct (handler_run us w Hus) as (c & Hc & _ & Heq).
  rewrite Heq in Hh. simplify_eq. by exists c.
Qed.

(** C1, amended: for every request with a valid [urls] array and a
    non-negative [maxUrls], and a link extractor that yields absolute
    target URLs only, the number of results stays below [maxUrls + 1]:
    it never exceeds [maxUrls] rounded up to the next integer, and never
    [maxUrls] itself when that is an integer.  This holds in every
    configuration the handler goes through, and in the response. *)
Theorem results_within_cap us w :
  urls body = UrlsArray us → (0 <= maxUrls body)%Q → extractsAbsolute E →
  (∀ c, reachable E body us w c →
        (inject_Z (Z.of_nat (length (results (store c)))) < maxUrls body + 1)%Q
        ∧ Z.of_nat (length (results (store c))) ≤ Qceiling (maxUrls body)
        ∧ ∀ k : Z, (maxUrls body == inject_Z k)%Q →
                   Z.of_nat (length (results (store c))) ≤ k)
  ∧ (∀ resp w' tr,
       handler E body w = (inr resp, w', tr) →
       (inject_Z (Z.of_nat (length (Response.results resp)))
        < maxUrls body + 1)%Q
       ∧ Z.of_nat (length (Response.results resp)) ≤ Qceiling (maxUrls body)
       ∧ ∀ k : Z, (maxUrls body == inject_Z k)%Q →
                  Z.of_nat (length (Response.results resp)) ≤ k).
Proof.
  intros Hus Hcap Hext.
  assert (∀ c, reachable E body us w c →
    (inject_Z (Z.of_nat (length (results (store c)))) < maxUrls body + 1)%Q
    ∧ Z.of_nat (length (results (store c))) ≤ Qceiling (maxUrls body)
    ∧ ∀ k : Z, (maxUrls body == inject_Z k)%Q →
               Z.of_nat (length (results (store c))) ≤ k) as Hall.
  { intros c Hc. destruct (Capped_reachable us w c Hcap Hext Hc) as [Hlen _].
    split_and!; [by apply le_ceiling|done|].
    intros k Hk. by rewrite Hk, Qceiling_Z in Hlen. }
  split; [done|]. intros resp w' tr Hh.
  destruct (handler_results us w resp w' tr Hus Hh) as (c & Hc & ->).
  by apply Hall.
Qed.

Lemma Scope_reachable us w c : reachable E body us w c → Scope E body us c.
Proof.
  apply reachable_ind_inv; [apply Scope_initial|]. intros ??. apply Scope_step.
Qed.

Lemma Flat_reachable us w c :
  recursive body = false → reachable E body us w c → Flat us c.
Proof.
  intros Hrec. apply reachable_ind_inv.
  - unfold Flat. simpl. lia.
  - intros ??. by apply Flat_step.
Qed.

Lemma fifo_lengths c :
  Books c →
  (length (queue (store c)) ≤ length (pushedItems (trace (store c))))%nat.
Proof.
  intros [_ _ _ Hf _]. apply (f_equal length) in Hf.
  unfold pushedUrls in Hf. rewrite length_app, !length_fmap in Hf. lia.
Qed.

(** C2: the frontier grows by [queue.push] only, at its tail.  A push is
    either a seed pushed by the seeding loop or a discovered link pushed
    at the depth of its page plus one, and the latter only if [recursive]
    is set, the link is internal, the page's depth is below [maxDepth],
    the target is not in the visited set and, under [sameDomainOnly], the
    target's hostname is a seed hostname.  Hence without [recursive]
    nothing but seeds is ever pushed and the frontier never holds more
    items than there are seeds, and under [sameDomainOnly] every item
    pushed by the crawl has a seed hostname. *)
Theorem enqueue_only_if us w :
  urls body = UrlsArray us →
  (∀ c c' evs,
     step E body c = Some c' → emits c c' evs →
     (∃ dropped,
        dropped ++ queue (store c') = queue (store c) ++ pushedItems evs
        ∧ (length dropped ≤ 1)%nat)
     ∧ ∀ it, EvPush it ∈ evs →
             (seedPush E c it ∨ linkPush E body c it)
             ∧ Item.url it ∉ visited (store c))
  ∧ (recursive body = false →
     ∀ c, reachable E body us w c →
          (∀ it, it ∈ pushedItems (trace (store c)) → seedItem E us it)
          ∧ (length (pushedItems (trace (store c))) ≤ length us)%nat
          ∧ (length (queue (store c)) ≤ length us)%nat)
  ∧ (sameDomainOnly body = true →
     ∀ c it, reachable E body us w c →
             it ∈ pushedItems (trace (store c)) →
             seedItem E us it
             ∨ ∃ h, hostname E (Item.url it) = Ok h ∧ h ∈ baseDomainsOf E us).
Proof.
  intros Hus. split_and!.
  - intros c c' evs Hs Hev. split; [by eapply queue_growth|].
    intros it Hin.
    destruct (push_decision E body _ _ _ _ Hs Hev Hin) as (? & ? & _). done.
  - intros Hrec c Hc.
    pose proof (Scope_reachable _ _ _ Hc) as [_ Hp].
    pose proof (Flat_reachable _ _ _ Hrec Hc) as HF.
    pose proof (fifo_lengths _ (Books_reachable E body _ _ _ Hc)) as HL.
    unfold Flat in HF. split_and!; [|lia|lia].
    intros it [?|(_ & Hr & _)]%Hp; [done|congruence].
  - intros Hsame c it Hc Hit.
    pose proof (Scope_reachable _ _ _ Hc) as [_ Hp].
    destruct (Hp it Hit) as [?|(_ & _ & Hh)]; [by left|right].
    unfold baseDomains in Hh. rewrite Hus in Hh. by apply Hh.
Qed.

(** C3: every URL is added to the visited set at most once.  A URL that
    is pushed onto the frontier was not in the visited set before and is
    added to it in the same uninterrupted step: by the statement after
    the push in the seeding loop, by the statement before the push in the
    link loop.  So all pushed and all queued URLs are in the visited set,
    no URL is ever pushed twice, and the frontier never holds a URL
    twice. *)
Theorem visited_before_frontier us w c :
  reachable E body us w c →
  NoDup (visitedUrls (trace (store c)))
  ∧ visited (store c) = list_to_set (visitedUrls (trace (store c)))
  ∧ NoDup (pushedUrls (trace (store c)))
  ∧ (∀ u, u ∈ pushedUrls (trace (store c)) → u ∈ visited (store c))
  ∧ NoDup (Item.url <$> queue (store c))
  ∧ (∀ it, it ∈ queue (store c) → Item.url it ∈ visited (store c))
  ∧ (∀ c' evs it,
       step E body c = Some c' → emits c c' evs → EvPush it ∈ evs →
       (Item.url it ∉ visited (store c))
       ∧ Item.url it ∈ visited (store c')
       ∧ (evs = [EvPush it; EvVisit (Item.url it)]
          ∨ ∃ r, evs = [EvResolve (Item.url it) r; EvVisit (Item.url it);
                        EvPush it; EvSleep (halfDelay body)])).
Proof.
  intros Hc. destruct (Books_reachable E body _ _ _ Hc) as [Hv Hn Hp Hf _].
  assert (NoDup (pushedUrls (trace (store c)))) as Hnp by by rewrite Hp.
  split_and!; try done.
  - intros u Hu. rewrite Hv, elem_of_list_to_set. by rewrite <- Hp.
  - rewrite <- Hf in Hnp. by apply NoDup_app in Hnp as (_ & _ & ?).
  - intros it Hit. rewrite Hv, elem_of_list_to_set, <- Hp, <- Hf.
    apply elem_of_app. right. by apply list_elem_of_fmap_2.
  - intros c' evs it Hs Hev Hin.
    destruct (push_decision E body _ _ _ _ Hs Hev Hin) as (_ & ? & ? & _).
    split_and!; [done|done|]. by eapply push_events.
Qed.

Lemma Levels_reachable us w c : reachable E body us w c → Levels c.
Proof.
  apply reachable_ind_inv; [apply Levels_initial|]. intros ??. apply Levels_step.
Qed.

(** C4: the frontier is served first in, first out, and holds pages in
    order of depth; results are appended in order of depth; and whenever
    a result of some depth exists, no page of a smaller depth is left in
    the frontier or under expansion. *)
Theorem breadth_first us w c :
  reachable E body us w c →
  fetchedUrls (trace (store c)) ++ (Item.url <$> queue (store c))
  = pushedUrls (trace (store c))
  ∧ StronglySorted le (Item.depth <$> queue (store c))
  ∧ StronglySorted le (Result.depth <$> results (store c))
  ∧ (∀ r it, r ∈ results (store c) → it ∈ queue (store c) →
             (Result.depth r ≤ Item.depth it)%nat)
  ∧ (∀ r item rest, r ∈ results (store c) → control c = InLinks item rest →
                    (Result.depth r ≤ Item.depth item)%nat).
Proof.
  intros Hc. destruct (Books_reachable E body _ _ _ Hc) as [_ _ _ Hf _].
  destruct (Levels_reachable _ _ _ Hc) as [lvl [Hr Hq Hd Ht Hctl]].
  split_and!; try done.
  - intros r it Hr'%(list_elem_of_fmap_2 Result.depth)
      Hit%(list_elem_of_fmap_2 Item.depth).
    apply Hd in Hr'. apply Ht in Hit. lia.
  - intros r item rest Hr'%(list_elem_of_fmap_2 Result.depth) Hi.
    rewrite Hi in Hctl. apply Hd in Hr'. lia.
Qed.

Lemma Unsourced_reachable us w c : reachable E body us w c → Unsourced c.
Proof.
  apply reachable_ind_inv.
  - split; simpl; [|done]. intros it Hit. by apply elem_of_nil in Hit.
  - intros ??. apply Unsourced_step.
Qed.

Lemma Provenance_reachable us w c :
  reachable E body us w c → Provenance E c.
Proof.
  intros Hc. induction Hc as [|c c' Hc IH Hs].
  - split; simpl; [|done]. intros r Hr. by apply elem_of_nil in Hr.
  - eapply Provenance_step; [|done|done]. by eapply Unsourced_reachable.
Qed.

(** C5: every result comes from the [catch] block or was built for a
    link [link] found on a fetched page, and then its [targetUrl] is
    [link.targetUrl], the URL as found on the page, and its [status] is
    the [finalStatus] the redirect resolver returned for that very URL.
    A round of the link loop whose resolver call returns appends exactly
    that record. *)
Theorem link_result_reports_discovered_url us w c :
  reachable E body us w c →
  (∀ r, r ∈ results (store c) →
        fromFailure r
        ∨ ∃ item html links link info,
            EvFetch (Item.url item) (Ok html) ∈ trace (store c)
            ∧ extractLinks E html (Item.url item) = Ok links
            ∧ link ∈ links
            ∧ EvResolve (Link.targetUrl link) (Ok info) ∈ trace (store c)
            ∧ Result.sourceUrl r = Item.url item
            ∧ Result.targetUrl r = Link.targetUrl link
            ∧ Result.status r = Redirect.finalStatus info)
  ∧ (∀ item link rest info w',
       control c = InLinks item (link :: rest) →
       belowCap body (store c) = true →
       getRedirectChain E (Link.targetUrl link) (world (store c))
       = (Ok info, w') →
       ∃ c' r tail,
         step E body c = Some c'
         ∧ results (store c') = results (store c) ++ r :: tail
         ∧ r = linkResult E item link info
         ∧ Result.targetUrl r = Link.targetUrl link
         ∧ Result.status r = Redirect.finalStatus info).
Proof.
  intros Hc. split.
  - intros r Hr. destruct (Provenance_reachable _ _ _ Hc) as [Hp _].
    destruct (Hp r Hr) as [Hl|?]; [right|by left].
    destruct Hl as (item & html & links & link & info & ? & ? & ? & ? & ->).
    by exists item, html, links, link, info.
  - intros item link rest info w' Hctl Hcap Hres.
    destruct c as [ctl st]. simpl in *. subst ctl.
    unfold step, tryLink. simpl. rewrite Hcap, Hres.
    repeat case_match; simpl;
      eexists _, (linkResult E item link info), _;
      (split; [reflexivity|]); store_ops; rewrite <- ?app_assoc; simpl;
      split_and!; reflexivity.
Qed.

(** C6: the statistics of a response are those of the configuration in
    which the loop ended: [totalLinks] is the number of results,
    [visited] the size of the visited set (the number of URLs ever added
    to it), [remaining] the length of the frontier; and [remaining] is
    non-zero only if the loop ended on the [maxUrls] test. *)
Theorem stats_exact us w resp w' tr :
  urls body = UrlsArray us →
  handler E body w = (inr resp, w', tr) →
  ∃ c, reachable E body us w c
       ∧ step E body c = None
       ∧ Response.results resp = results (store c)
       ∧ tr = trace (store c)
       ∧ Stats.totalLinks (Response.stats resp)
         = length (Response.results resp)
       ∧ Stats.visited (Response.stats resp) = size (visited (store c))
       ∧ Stats.visited (Response.stats resp) = length (visitedUrls tr)
       ∧ Stats.remaining (Response.stats resp) = length (queue (store c))
       ∧ (Stats.remaining (Response.stats resp) ≠ 0%nat →
          (maxUrls body
           <= inject_Z (Z.of_nat (length (Response.results resp))))%Q).
Proof.
  intros Hus Hh. destruct (handler_run us w Hus) as (c & Hc & Hend & Heq).
  rewrite Heq in Hh. simplify_eq. exists c.
  destruct (Books_reachable E body _ _ _ Hc) as [Hv Hn _ _ _].
  split_and!; simpl; try done.
  - rewrite Hv. by apply size_list_to_set.
  - intros Hrem. destruct c as [ctl [rs vs q w0 tr]]. simpl in *.
    destruct ctl as [[|u rest]| |item [|link rest]]; try done.
    unfold step in Hend. simpl in Hend. destruct q as [|it q]; [done|].
    destruct (belowCap _ _) eqn:Hcap; [done|].
    unfold belowCap in Hcap. simpl in Hcap. by apply below_ge in Hcap.
Qed.

Lemma raises_step c item e s :
  raises E body c item e s →
  step E body c = Some {| control := AtWhile; store := catchBlock item e s |}.
Proof.
  unfold raises, step. destruct c as [ctl st]. simpl.
  destruct ctl as [[|u rest]| |item' [|link rest]]; try done.
  - intros (q & -> & -> & ->). done.
  - intros [-> ->]. done.
Qed.

Lemma raises_results c item e s :
  raises E body c item e s →
  results s = results (store c)
  ∨ ∃ link info, results s = results (store c) ++ [linkResult E item link info].
Proof.
  unfold raises. destruct c as [ctl [rs vs q w tr]]. simpl.
  destruct ctl as [[|u rest]| |item' [|link rest]]; try done.
  - intros (q' & -> & _ & H). left. unfold tryPage in H. simpl in H.
    repeat case_match; simplify_eq; done.
  - intros [-> H]. unfold tryLink in H. simpl in H.
    repeat case_match; simplify_eq; simpl; eauto.
Qed.

Lemma raises_fetched c item e s :
  Books c → raises E body c item e s →
  Item.url item ∈ fetchedUrls (trace s).
Proof.
  intros [_ _ _ _ Hi]. unfold raises. destruct c as [ctl [rs vs q w tr]].
  simpl in *. destruct ctl as [[|u rest]| |item' [|link rest]]; try done.
  - intros (q' & -> & _ & H). unfold tryPage in H. simpl in H.
    repeat case_match; simplify_eq; store_ops; trace_snoc;
      rewrite elem_of_app; right; by left.
  - intros [-> H]. unfold tryLink in H. simpl in H.
    repeat case_match; simplify_eq; store_ops; trace_snoc; done.
Qed.

Lemma raises_unsourced c item e s :
  Unsourced c → raises E body c item e s → Item.sourceUrl item = None.
Proof.
  intros [Hq Hi]. unfold raises. destruct (control c) as [| |item' [|link rest]];
    try done.
  - intros (q & Heq & _). apply Hq. rewrite Heq. by left.
  - by intros [-> _].
Qed.


Lemma endpoint_object req w :
  endpoint E (BodyObject req) w
  = match handler E req w with
    | (inl err, w', tr) => (HttpErrorThrown err, w', tr)
    | (inr resp, w', tr) => (Returned resp, w', tr)
    end.
Proof. done. Qed.


(** C10: a record appended by the [catch] block for a frontier page has
    the page's URL as [sourceUrl] and as [targetUrl] (frontier items are
    pushed without a [sourceUrl]), type [internal], and empty
    [redirectChain], [anchorText] and [rel], whatever the page is; and
    every result that was not built for a link is such a record. *)
Theorem failure_record_shape us w c :
  reachable E body us w c →
  (∀ item e s,
     raises E body c item e s →
     ∃ c', step E body c = Some c'
           ∧ last (results (store c')) = Some (failureResult item e)
           ∧ Result.sourceUrl (failureResult item e) = Item.url item
           ∧ Result.targetUrl (failureResult item e) = Item.url item)
  ∧ (∀ r, r ∈ results (store c) →
          fromLink E (trace (store c)) r
          ∨ (Result.sourceUrl r = Result.targetUrl r
             ∧ Result.type r = internal
             ∧ Result.redirectChain r = EmptyString
             ∧ Result.anchorText r = EmptyString
             ∧ Result.rel r = EmptyString
             ∧ Result.status r = 0
             ∧ ∃ item e, r = failureResult item e)).
Proof.
  intros Hc. pose proof (Unsourced_reachable _ _ _ Hc) as Hu. split.
  - intros item e s Hr. eexists. split; [by apply raises_step|].
    simpl. rewrite last_snoc. split_and!; [done| |done].
    unfold sourceOrUrl. by rewrite (raises_unsourced _ _ _ _ Hu Hr).
  - intros r Hr. destruct (Provenance_reachable _ _ _ Hc) as [Hp _].
    destruct (Hp r Hr) as [?|(item & e & Hnone & ->)]; [by left|right].
    assert (sourceOrUrl item = Item.url item) as Hsrc
      by (unfold sourceOrUrl; by rewrite Hnone).
    unfold failureResult. simpl. rewrite Hsrc.
    split_and!; try done. exists item, e. by rewrite Hsrc.
Qed.

Lemma Paced_reachable us w c : reachable E body us w c → Paced body c.
Proof.
  apply reachable_ind_inv; [apply Paced_initial|].
  intros ??. by apply Paced_step.
Qed.

Lemma fetch_events c c' item q :
  control c = AtWhile → queue (store c) = item :: q →
  step E body c = Some c' →
  ∃ r, emits c c'
         ((if (0 <? length (results (store c)))%nat
           then [EvSleep (delayMs body)] else [])
          ++ [EvFetch (Item.url item) r]).
Proof.
  intros Hctl Hq H. destruct c as [ctl [rs vs q0 w tr]]. simpl in *. subst.
  unfold emits. step_cases H; rewrite <- ?app_assoc; eauto.
Qed.

(** C9, amended: the handler paces its requests by [sleep] calls with
    fixed arguments, not by measuring time.  Every call is
    [sleep(delayMs)] or [sleep(delayMs / 2)], for the double
    [delayMs = 1000 / rateLimit].  Between a redirect check and the
    request that follows it the handler calls [sleep(delayMs / 2)] and
    nothing else when that request is a redirect check, and
    [sleep(delayMs)], alone or after [sleep(delayMs / 2)], when it is a
    page fetch.  Between a page fetch and the request that follows it,
    it does not sleep at all when that request is a redirect check, and
    at most calls [sleep(delayMs)] when it is a page fetch.  A page
    fetch comes after [sleep(delayMs)] exactly when a result is on
    record already.  Requests are neither dropped nor reordered: pages
    are fetched in the order in which they were pushed, and none is
    fetched twice. *)
Theorem pacing_after_redirect_checks us w c :
  reachable E body us w c →
  gapsAfter isResolve (afterCheck body) (trace (store c))
  ∧ gapsAfter isFetch (afterFetch body) (trace (store c))
  ∧ (∀ ms, EvSleep ms ∈ trace (store c) →
           ms = delayMs body ∨ ms = halfDelay body)
  ∧ (∀ c' item q,
       control c = AtWhile → queue (store c) = item :: q →
       step E body c = Some c' →
       ∃ r, emits c c'
              ((if (0 <? length (results (store c)))%nat
                then [EvSleep (delayMs body)] else [])
               ++ [EvFetch (Item.url item) r]))
  ∧ fetchedUrls (trace (store c)) ++ (Item.url <$> queue (store c))
    = pushedUrls (trace (store c))
  ∧ NoDup (fetchedUrls (trace (store c))).
Proof.
  intros Hc. destruct (Paced_reachable _ _ _ Hc) as [Hg Hg' Hfix _].
  destruct (Books_reachable E body _ _ _ Hc) as [_ Hn Hp Hf _].
  split_and!; try done.
  - intros c' item q. apply fetch_events.
  - rewrite <- Hp, <- Hf in Hn. by apply NoDup_app in Hn as (? & _).
Qed.

End Properties.

(** ** The theorems at work on the small site *)

(** Every URL parses on the small site. *)
Lemma site_extractsAbsolute : extractsAbsolute site.
Proof. intros html base links l _ _. by eexists. Qed.

(** The audit goes through [auditAfter n]. *)
Lemma audit_reachable n : reachable site auditRequest [home] tt (auditAfter n).
Proof. apply run_reachable, reach_initial. Qed.

(** Eleven steps into the audit the handler is about to fetch
    [pageDown], which throws. *)
Lemma audit_raises :
  ∃ s, raises site auditRequest (auditAfter 11) downItem fetchFailed s.
Proof.
  assert (control (auditAfter 11) = AtWhile) as Hctl
    by (vm_compute; reflexivity).
  eexists. unfold raises. rewrite Hctl.
  exists [Item.mk pageC 2 None]. split_and!; vm_compute; reflexivity.
Qed.

(** C1, amended, on the small site, twelve steps into the audit: no
    more than the ten results asked for. *)
Lemma results_within_cap_witness :
  (0 <= maxUrls auditRequest)%Q
  ∧ Z.of_nat (length (results (store (auditAfter 12)))) ≤ 10.
Proof.
  assert (0 <= maxUrls auditRequest)%Q as Hcap by (vm_compute; discriminate).
  assert (maxUrls auditRequest == inject_Z 10)%Q as Hten by reflexivity.
  split; [exact Hcap|].
  exact (proj2 (proj2 (proj1 (results_within_cap site auditRequest [home] tt
                                eq_refl Hcap site_extractsAbsolute)
                         (auditAfter 12) (audit_reachable 12)))
           10 Hten).
Defined.

(** C1 as stated fails for a negative [maxUrls]: the loop never runs, the
    response carries no result, and 0 exceeds the cap. *)
Lemma cap_exceeded_when_negative :
  urls negativeCap = UrlsArray [home]
  ∧ ∃ resp,
      (handler site negativeCap tt).1.1 = inr resp
      ∧ Response.results resp = []
      ∧ (maxUrls negativeCap
         < inject_Z (Z.of_nat (length (Response.results resp))))%Q.
Proof.
  split; [reflexivity|]. eexists. split_and!.
  - vm_compute. reflexivity.
  - reflexivity.
  - reflexivity.
Qed.

(** A cap that is not an integer is exceeded as well: asked for two and
    a half results at most, the handler returns three. *)
Lemma cap_exceeded_when_fractional :
  urls fractionalCap = UrlsArray [home]
  ∧ (0 <= maxUrls fractionalCap)%Q
  ∧ ∃ resp,
      (handler site fractionalCap tt).1.1 = inr resp
      ∧ length (Response.results resp) = 3%nat
      ∧ (maxUrls fractionalCap
         < inject_Z (Z.of_nat (length (Response.results resp))))%Q.
Proof.
  split; [reflexivity|]. split; [vm_compute; discriminate|].
  eexists. split_and!.
  - vm_compute. reflexivity.
  - reflexivity.
  - reflexivity.
Qed.

(** C2 on the small site: everything pushed during the audit is the seed
    or lies on the seed's host. *)
Lemma enqueue_only_if_witness :
  urls auditRequest = UrlsArray [home]
  ∧ sameDomainOnly auditRequest = true
  ∧ ∀ it, it ∈ pushedItems (trace (store (auditAfter 14))) →
          seedItem site [home] it
          ∨ ∃ h, hostname site (Item.url it) = Ok h
                 ∧ h ∈ baseDomainsOf site [home].
Proof.
  split; [reflexivity|]. split; [reflexivity|]. intros it Hit.
  destruct (enqueue_only_if site auditRequest [home] tt eq_refl)
    as (_ & _ & Hscope).
  exact (Hscope eq_refl (auditAfter 14) it (audit_reachable 14) Hit).
Defined.

(** C3 on the small site. *)
Lemma visited_before_frontier_witness :
  NoDup (visitedUrls (trace (store (auditAfter 14))))
  ∧ NoDup (pushedUrls (trace (store (auditAfter 14))))
  ∧ ∀ it, it ∈ queue (store (auditAfter 11)) →
          Item.url it ∈ visited (store (auditAfter 11)).
Proof.
  destruct (visited_before_frontier site auditRequest [home] tt
              (auditAfter 14) (audit_reachable 14)) as (Hv & _ & Hp & _).
  destruct (visited_before_frontier site auditRequest [home] tt
              (auditAfter 11) (audit_reachable 11))
    as (_ & _ & _ & _ & _ & Hq & _).
  exact (conj Hv (conj Hp Hq)).
Defined.

(** C4 on the small site. *)
Lemma breadth_first_witness :
  StronglySorted le (Result.depth <$> results (store (auditAfter 14)))
  ∧ ∀ r it, r ∈ results (store (auditAfter 11)) →
            it ∈ queue (store (auditAfter 11)) →
            (Result.depth r ≤ Item.depth it)%nat.
Proof.
  destruct (breadth_first site auditRequest [home] tt
              (auditAfter 14) (audit_reachable 14)) as (_ & _ & Hs & _).
  destruct (breadth_first site auditRequest [home] tt
              (auditAfter 11) (audit_reachable 11)) as (_ & _ & _ & Hb & _).
  exact (conj Hs Hb).
Defined.

(** C5 on the small site: the link to [pageB] redirects to [pageC]; its
    record keeps [pageB] as target and reports the final status. *)
Lemma link_result_reports_discovered_url_witness :
  ∃ c' r tail,
    step site auditRequest (auditAfter 3) = Some c'
    ∧ results (store c') = results (store (auditAfter 3)) ++ r :: tail
    ∧ r = linkResult site (Item.mk home 0 None) (anchor pageB true)
            (Redirect.mk 200 [Hop.mk pageB 301; Hop.mk pageC 200] None)
    ∧ Result.targetUrl r = pageB
    ∧ Result.status r = 200.
Proof.
  destruct (link_result_reports_discovered_url site auditRequest [home] tt
              (auditAfter 3) (audit_reachable 3)) as [_ Hstep].
  assert (control (auditAfter 3)
          = InLinks (Item.mk home 0 None)
              (anchor pageB true
               :: [anchor pageDown true; anchor elsewhere false])) as Hctl
    by (vm_compute; reflexivity).
  assert (belowCap auditRequest (store (auditAfter 3)) = true) as Hcap
    by (vm_compute; reflexivity).
  assert (getRedirectChain site (Link.targetUrl (anchor pageB true))
            (world (store (auditAfter 3)))
          = (Ok (Redirect.mk 200 [Hop.mk pageB 301; Hop.mk pageC 200] None),
             tt)) as Hres
    by (vm_compute; reflexivity).
  exact (Hstep _ _ _ _ _ Hctl Hcap Hres).
Defined.

(** C6 on the small site: the audit ends with six results. *)
Lemma stats_exact_witness :
  ∃ c, reachable site auditRequest [home] tt c
       ∧ step site auditRequest c = None
       ∧ Stats.totalLinks (Response.stats (respond (store (auditAfter 45))))
         = 6%nat
       ∧ Stats.visited (Response.stats (respond (store (auditAfter 45))))
         = size (visited (store c))
       ∧ Stats.remaining (Response.stats (respond (store (auditAfter 45))))
         = length (queue (store c)).
Proof.
  destruct (stats_exact site auditRequest [home] tt
              (respond (store (auditAfter 45))) tt
              (trace (store (auditAfter 45))) eq_refl)
    as (c & Hc & Hend & _ & _ & _ & Hv & _ & Hr & _).
  - vm_compute. reflexivity.
  - exists c.
    split_and!; [exact Hc|exact Hend|vm_compute; reflexivity|exact Hv|exact Hr].
Defined.



(** The delays of the audit are 500 and 250; at three requests per
    second they are the doubles next to 1000/3 and 500/3, and at a rate
    of zero they are infinite. *)
Lemma delays_are_doubles :
  delayMs auditRequest = 500%float
  ∧ halfDelay auditRequest = 250%float
  ∧ delayMs (auditAt 3) = 0x1.4d55555555555p+8%float
  ∧ halfDelay (auditAt 3) = 0x1.4d55555555555p+7%float
  ∧ delayMs (auditAt 0) = infinity
  ∧ halfDelay (auditAt 0) = infinity.
Proof. split_and!; vm_compute; reflexivity. Qed.

(** C9, amended, on the small site. *)
Lemma pacing_after_redirect_checks_witness :
  gapsAfter isResolve (afterCheck auditRequest)
    (trace (store (auditAfter 14)))
  ∧ (∀ ms, EvSleep ms ∈ trace (store (auditAfter 14)) →
           ms = delayMs auditRequest ∨ ms = halfDelay auditRequest)
  ∧ NoDup (fetchedUrls (trace (store (auditAfter 14)))).
Proof.
  destruct (pacing_after_redirect_checks site auditRequest [home] tt
              (auditAfter 14) (audit_reachable 14))
    as (Hg & _ & Hfix & _ & _ & Hn).
  exact (conj Hg (conj Hfix Hn)).
Defined.

(** C9 as stated fails: with two requests per second the interval is
    500 ms, yet the first redirect check follows the fetch of the seed
    page without any [sleep] call in between. *)
Lemma no_pause_between_fetch_and_first_check :
  reachable site auditRequest [home] tt (auditAfter 4)
  ∧ delayMs auditRequest = 500%float
  ∧ (∃ pre info post,
       trace (store (auditAfter 4))
       = pre ++ EvFetch home (Ok home) :: EvResolve pageB (Ok info) :: post)
  ∧ ¬ gapsAfter isRequest (λ _ l, l ≠ []) (trace (store (auditAfter 4))).
Proof.
  split; [apply run_reachable, reach_initial|].
  split; [vm_compute; reflexivity|].
  assert (trace (store (auditAfter 4))
          = [EvPush (Item.mk home 0 None); EvVisit home]
            ++ EvFetch home (Ok home)
            :: [] ++ EvResolve pageB
                       (Ok (Redirect.mk 200
                              [Hop.mk pageB 301; Hop.mk pageC 200] None))
            :: [EvVisit pageB; EvPush (Item.mk pageB 1 None);
                EvSleep (halfDelay auditRequest)]) as Htr
    by (vm_compute; reflexivity).
  split; [eexists _, _, _; exact Htr|].
  intros Hgaps.
  by apply (Hgaps _ _ _ _ _ Htr eq_refl eq_refl (List.Forall_nil _)).
Qed.

(** C10 on the small site. *)
Lemma failure_record_shape_witness :
  ∃ s, raises site auditRequest (auditAfter 11) downItem fetchFailed s
       ∧ ∃ c', step site auditRequest (auditAfter 11) = Some c'
               ∧ last (results (store c'))
                 = Some (failureResult downItem fetchFailed)
               ∧ Result.sourceUrl (failureResult downItem fetchFailed)
                 = pageDown
               ∧ Result.targetUrl (failureResult downItem fetchFailed)
                 = pageDown.
Proof.
  destruct audit_raises as [s Hs]. exists s. split; [exact Hs|].
  destruct (failure_record_shape site auditRequest [home] tt
              (auditAfter 11) (audit_reachable 11)) as [Hshape _].
  exact (Hshape downItem fetchFailed s Hs).
Defined.

(** ** More invariants of the crawl *)

Section CrawlInvariants.
Context {World : Type} (E : Env World) (body : Request).
Implicit Types (c : Config World) (s : Store World) (w : World).

Lemma resolvedUrls_snoc tr e :
  resolvedUrls (tr ++ [e]) =
  resolvedUrls tr ++ match e with EvResolve u _ => [u] | _ => [] end.
Proof. unfold resolvedUrls. rewrite omap_app. by destruct e. Qed.

Lemma pushedItems_prefix tr tr' it :
  tr `prefix_of` tr' → it ∈ pushedItems tr → it ∈ pushedItems tr'.
Proof. intros [k ->]. rewrite pushedItems_app, elem_of_app. by left. Qed.

Lemma fetchedUrls_prefix tr tr' u :
  tr `prefix_of` tr' → u ∈ fetchedUrls tr → u ∈ fetchedUrls tr'.
Proof.
  intros [k ->]. unfold fetchedUrls. rewrite omap_app, elem_of_app. by left.
Qed.

(** The page taken off the frontier is fetched in the same step. *)
Lemma dequeue_fetched c c' item q :
  control c = AtWhile → queue (store c) = item :: q →
  step E body c = Some c' →
  Item.url item ∈ fetchedUrls (trace (store c')).
Proof.
  intros Hctl Hq Hs.
  destruct (fetch_events E body _ _ _ _ Hctl Hq Hs) as [r Hev].
  unfold emits in Hev. rewrite Hev. unfold fetchedUrls.
  rewrite !omap_app, !elem_of_app. right. right. simpl. by left.
Qed.

Lemma Origins_initial us w : Origins (initial us w).
Proof.
  split; simpl; [|done|]; intros x Hx; by apply elem_of_nil in Hx.
Qed.

Lemma Origins_step c c' :
  Books c → Unsourced c → Origins c → step E body c = Some c' → Origins c'.
Proof.
  intros HB [Hsrcq Hsrci] [Hq Hi Hr] Hs.
  pose proof (step_trace_prefix E body _ _ Hs) as Hpre.
  destruct (Hpre) as [evs Hev].
  destruct (queue_growth E body _ _ _ Hs Hev) as (dropped & Hgrow & _).
  pose proof (Books_step E body _ _ HB Hs) as HB'.
  assert (∀ it, it ∈ queue (store c') → it ∈ pushedItems (trace (store c')))
    as Hq'.
  { intros it Hit.
    assert (it ∈ queue (store c) ++ pushedItems evs) as Hin
      by (rewrite <- Hgrow, elem_of_app; by right).
    rewrite Hev, pushedItems_app, elem_of_app.
    apply elem_of_app in Hin as [Hin|Hin]; [left; by apply Hq|by right]. }
  assert (∀ r, r ∈ results (store c) →
    ∃ it, it ∈ pushedItems (trace (store c'))
          ∧ Item.url it ∈ fetchedUrls (trace (store c'))
          ∧ Result.sourceUrl r = Item.url it
          ∧ Result.depth r = Item.depth it) as Hr'.
  { intros r (it & ? & ? & ? & ?)%Hr. exists it.
    split_and!; eauto using pushedItems_prefix, fetchedUrls_prefix. }
  assert (∀ item e, item ∈ pushedItems (trace (store c')) →
            Item.url item ∈ fetchedUrls (trace (store c')) →
            Item.sourceUrl item = None →
            ∃ it, it ∈ pushedItems (trace (store c'))
                  ∧ Item.url it ∈ fetchedUrls (trace (store c'))
                  ∧ Result.sourceUrl (failureResult item e) = Item.url it
                  ∧ Result.depth (failureResult item e) = Item.depth it)
    as Hfail.
  { intros item e ?? Hnone. exists item. split_and!; try done.
    simpl. unfold sourceOrUrl. by rewrite Hnone. }
  pose proof Hs as HM%step_Move.
  destruct HM.
  - split; [done|by rewrite Hctl'|]. by rewrite Hres.
  - split; [done|by rewrite Hctl'|]. by rewrite Hres.
  - split; [done|by rewrite Hctl'|]. by rewrite Hres.
  - assert (item ∈ pushedItems (trace (store c'))) as Hin.
    { eapply pushedItems_prefix; [done|]. apply Hq. rewrite Hq0. by left. }
    split; [done|by rewrite Hctl'|]. by rewrite Hres.
  - assert (item ∈ pushedItems (trace (store c'))) as Hin.
    { eapply pushedItems_prefix; [done|]. apply Hq. rewrite Hq0. by left. }
    split; [done|by rewrite Hctl'|]. rewrite Hres. intros r.
    rewrite elem_of_app, list_elem_of_singleton. intros [?| ->]; [eauto|].
    apply Hfail; [done| |apply Hsrcq; rewrite Hq0; by left].
    by apply (dequeue_fetched c c' item (queue (store c'))).
  - split; [done|by rewrite Hctl'|]. by rewrite Hres.
  - rewrite Hctl in Hi, Hsrci.
    assert (item ∈ pushedItems (trace (store c'))) as Hin
      by by eapply pushedItems_prefix.
    assert (Item.url item ∈ fetchedUrls (trace (store c'))) as Hfe.
    { eapply fetchedUrls_prefix; [done|]. destruct HB as [_ _ _ _ HBi].
      by rewrite Hctl in HBi. }
    split; [done|by rewrite Hctl'|]. rewrite Hres. intros r.
    rewrite elem_of_app, list_elem_of_singleton. intros [?| ->]; [eauto|].
    by exists item.
  - rewrite Hctl in Hi, Hsrci.
    assert (item ∈ pushedItems (trace (store c'))) as Hin
      by by eapply pushedItems_prefix.
    assert (Item.url item ∈ fetchedUrls (trace (store c'))) as Hfe.
    { eapply fetchedUrls_prefix; [done|]. destruct HB as [_ _ _ _ HBi].
      by rewrite Hctl in HBi. }
    split; [done|by rewrite Hctl'|]. rewrite Hres. intros r.
    rewrite elem_of_app, list_elem_of_singleton. intros [?| ->]; eauto.
  - rewrite Hctl in Hi, Hsrci.
    assert (item ∈ pushedItems (trace (store c'))) as Hin
      by by eapply pushedItems_prefix.
    assert (Item.url item ∈ fetchedUrls (trace (store c'))) as Hfe.
    { eapply fetchedUrls_prefix; [done|]. destruct HB as [_ _ _ _ HBi].
      by rewrite Hctl in HBi. }
    split; [done|by rewrite Hctl'|]. rewrite Hres. intros r.
    rewrite elem_of_app, !elem_of_cons, elem_of_nil.
    intros [?|[->|[->|[]]]]; eauto.
Qed.

Lemma Origins_reachable us w c : reachable E body us w c → Origins c.
Proof.
  intros Hc. induction Hc as [|c c' Hc IH Hs]; [apply Origins_initial|].
  eapply Origins_step; [| |done|done].
  - by eapply Books_reachable.
  - by eapply Unsourced_reachable.
Qed.

(** What a step appends to the trace, and the push under scrutiny. *)
Ltac appended Hev Hin :=
  unfold emits in Hev; simpl in Hev; rewrite <- ?app_assoc in Hev;
  first [ apply app_inv_self in Hev | apply app_inv_head in Hev ];
  subst; simpl in Hin;
  repeat (rewrite ?elem_of_cons, ?elem_of_nil in Hin);
  destruct_or?; simplify_eq.

(** Results are only appended to, the visited set only grows. *)
Lemma step_grows c c' :
  step E body c = Some c' →
  results (store c) `prefix_of` results (store c')
  ∧ visited (store c) ⊆ visited (store c')
  ∧ trace (store c) `prefix_of` trace (store c').
Proof.
  intros H. split_and!; [| |by eapply step_trace_prefix].
  - apply step_Move in H. destruct H; rewrite Hres;
      solve [ done | by apply prefix_app_r ].
  - destruct c as [ctl [rs vs q w tr]].
    destruct ctl as [[|u rest]| |item [|link rest]];
      step_cases H; set_solver.
Qed.

Lemma run_grows n c :
  results (store c) `prefix_of` results (store (run E body n c))
  ∧ visited (store c) ⊆ visited (store (run E body n c))
  ∧ trace (store c) `prefix_of` trace (store (run E body n c)).
Proof.
  revert c. induction n as [|n IH]; intros c; simpl; [done|].
  destruct (step E body c) as [c'|] eqn:Hs; [|done].
  destruct (step_grows _ _ Hs) as (? & ? & ?).
  destruct (IH c') as (? & ? & ?).
  split_and!; by etrans.
Qed.

(** The record of the link behind a push of the link loop. *)
Lemma link_push_result c c' evs it :
  step E body c = Some c' → emits c c' evs → EvPush it ∈ evs →
  Item.depth it = 0%nat
  ∨ ∃ r, r ∈ results (store c')
         ∧ Result.targetUrl r = Item.url it
         ∧ Result.type r = internal
         ∧ S (Result.depth r) = Item.depth it.
Proof.
  intros H Hev Hin. destruct c as [ctl [rs vs q w tr]].
  destruct ctl as [[|u rest]| |item [|link rest]];
    step_cases H; appended Hev Hin; bool_props; simpl; [by left|right].
  eexists. split; [apply elem_of_app; right; by left|]. simpl.
  split_and!; [done| |lia].
  by destruct (Link.isInternal link).
Qed.

Lemma Discovered_step c c' :
  Discovered c → step E body c = Some c' → Discovered c'.
Proof.
  intros HD Hs. destruct (step_trace_prefix E body _ _ Hs) as [evs Hev].
  destruct (step_grows _ _ Hs) as ([k Hk] & _). intros it.
  rewrite Hev, pushedItems_app, elem_of_app. intros [Hit|Hit].
  - destruct (HD it Hit) as [?|(r & ? & ?)]; [by left|right].
    exists r. split; [|done]. rewrite Hk, elem_of_app. by left.
  - apply pushedItems_elem in Hit. by eapply link_push_result.
Qed.

Lemma Discovered_reachable us w c : reachable E body us w c → Discovered c.
Proof.
  apply reachable_ind_inv.
  - intros it Hit. by apply elem_of_nil in Hit.
  - apply Discovered_step.
Qed.

Lemma Traffic_step us c c' :
  Traffic us c → step E body c = Some c' → Traffic us c'.
Proof.
  intros [HR HP] H. unfold Traffic in *. destruct c as [ctl [rs vs q w tr]].
  destruct ctl as [[|u rest]| |item [|link rest]];
    step_cases H; trace_snoc; rewrite ?resolvedUrls_snoc in *; simpl in *;
    rewrite ?app_nil_r, ?length_app in *; simpl in *; lia.
Qed.

Lemma Traffic_reachable us w c : reachable E body us w c → Traffic us c.
Proof.
  apply reachable_ind_inv; [|apply Traffic_step].
  unfold Traffic. simpl. lia.
Qed.

Lemma Quiet_step w0 c c' :
  (maxUrls body <= 0)%Q →
  Quiet w0 c → step E body c = Some c' → Quiet w0 c'.
Proof.
  intros Hcap%(ceiling_le 0) [HR HW HT HC] H.
  destruct c as [ctl [rs vs q w tr]].
  simpl in *. subst.
  destruct ctl as [[|u rest]| |item [|link rest]]; try done;
    step_cases H; unfold belowCap in *; simpl in *; bool_props; try lia;
    split; simpl; try done;
    rewrite ?Forall_app; split_and?; try done;
    by repeat constructor.
Qed.

Lemma Quiet_reachable us w c :
  (maxUrls body <= 0)%Q → reachable E body us w c → Quiet w c.
Proof.
  intros Hcap. apply reachable_ind_inv.
  - split; simpl; by try constructor.
  - intros ??. by apply Quiet_step.
Qed.

Lemma firstOccurrences_elem l x : x ∈ firstOccurrences l ↔ x ∈ l.
Proof.
  induction l as [|a l IH]; [done|]. simpl.
  rewrite !elem_of_cons, list_elem_of_filter, IH.
  destruct (decide (x = a)); naive_solver.
Qed.

(** Going through a list from the left, an element is appended unless
    it was met before. *)
Lemma firstOccurrences_snoc l x :
  firstOccurrences (l ++ [x])
  = if decide (x ∈ l) then firstOccurrences l else firstOccurrences l ++ [x].
Proof.
  induction l as [|a l IH]; [done|]. simpl. rewrite IH.
  destruct (decide (x ∈ l)) as [Hin|Hin].
  - rewrite decide_True by (by right). done.
  - rewrite filter_app. destruct (decide (x = a)) as [->|Hne].
    + rewrite decide_True by (by left).
      rewrite filter_cons_False by (by intros ?). simpl.
      by rewrite app_nil_r.
    + rewrite decide_False by (rewrite elem_of_cons; naive_solver).
      by rewrite filter_cons_True.
Qed.

Lemma validSeeds_snoc done u :
  validSeeds E (done ++ [u])
  = validSeeds E done ++ match validSeed E u with Some n => [n] | None => [] end.
Proof. unfold validSeeds. rewrite omap_app. simpl. by destruct (validSeed E u). Qed.

Lemma fetchedUrls_app tr tr' :
  fetchedUrls (tr ++ tr') = fetchedUrls tr ++ fetchedUrls tr'.
Proof. unfold fetchedUrls. by rewrite omap_app. Qed.

Lemma Seeded_step w0 us c c' :
  Seeded E w0 us c → step E body c = Some c' → Seeded E w0 us c'.
Proof.
  intros HS H. unfold Seeded in *. destruct c as [ctl [rs vs q w tr]].
  destruct ctl as [[|u rest]| |item [|link rest]]; simpl in *.
  - (* the seeding loop ends *)
    destruct HS as (done & -> & HS). rewrite app_nil_r.
    step_cases H. intros _. by destruct HS.
  - (* one more seed *)
    destruct HS as (done & -> & [HR HW Hfirst Hsub Hall Hit Hv Htr]).
    simpl in *.
    assert (validSeeds E (done ++ [u])
            = validSeeds E done
              ++ match validSeed E u with Some n => [n] | None => [] end)
      as Hsnoc by apply validSeeds_snoc.
    unfold validSeed in Hsnoc.
    step_cases H; exists (done ++ [u]);
      (split; [by rewrite <- app_assoc|]);
      repeat match goal with
        | Hn : normalizeUrl E u = _ |- _ => rewrite Hn in Hsnoc
        end.
    + (* pushed *)
      bool_props.
      try match goal with Ht : truthy _ = true |- _ => rewrite Ht in Hsnoc end.
      split; simpl; rewrite ?Hsnoc, ?fmap_app; simpl; try done.
      * rewrite firstOccurrences_snoc, decide_False, Hfirst; [done|].
        intros Hin%Hall.
        match goal with Hs : _ ∉ list_to_set _ |- _ => apply Hs end.
        by apply elem_of_list_to_set.
      * by apply sublist_app.
      * intros x [?| ->%list_elem_of_singleton]%elem_of_app;
          apply elem_of_app; [left; auto|right; by left].
      * intros it [?| ->%list_elem_of_singleton]%elem_of_app; auto.
      * rewrite list_to_set_app_L. simpl. set_solver.
      * rewrite flat_map_app. simpl. by rewrite <- app_assoc.
    + (* seen before *)
      bool_props. split; simpl; rewrite ?Hsnoc; try done.
      * rewrite firstOccurrences_snoc, decide_True; [done|].
        rewrite <- firstOccurrences_elem, <- Hfirst.
        match goal with
        | Hs : _ ∈ list_to_set _ |- _ => by apply elem_of_list_to_set in Hs
        end.
      * by apply sublist_inserts_r.
      * intros x [?| ->%list_elem_of_singleton]%elem_of_app; [auto|].
        match goal with
        | Hs : _ ∈ list_to_set _ |- _ => by apply elem_of_list_to_set in Hs
        end.
    + (* normalized to the empty string *)
      rewrite app_nil_r in Hsnoc. split; simpl; rewrite ?Hsnoc; done.
    + (* not a URL *)
      rewrite app_nil_r in Hsnoc. split; simpl; rewrite ?Hsnoc; done.
  - (* a page is fetched *)
    step_cases H; rewrite ?fetchedUrls_app; simpl;
      try (intros Hnil; apply app_eq_nil in Hnil as [_ Hnil]; done);
      intros [_ Hnil]%app_eq_nil; done.
  - (* back to the loop test *)
    step_cases H. done.
  - (* one more link *)
    step_cases H; rewrite ?fetchedUrls_app; simpl; rewrite ?app_nil_r; done.
Qed.

Lemma Seeded_reachable us w c : reachable E body us w c → Seeded E w us c.
Proof.
  apply reachable_ind_inv; [|apply Seeded_step].
  exists []. split; [done|]. split; simpl; try done.
  intros u Hu. by apply elem_of_nil in Hu.
Qed.

Lemma Idle_step w0 c c' :
  Idle E w0 c → step E body c = Some c' → Idle E w0 c'.
Proof.
  intros [HS HC] H. destruct c as [ctl s]. simpl in *. subst s.
  destruct ctl as [[|u rest]| |item links]; try done.
  - step_cases H. by split.
  - simpl in HC. unfold validSeed in HC.
    step_cases H; by split.
Qed.

Lemma Idle_reachable us w c :
  validSeeds E us = [] → reachable E body us w c → Idle E w c.
Proof.
  intros Hus. apply reachable_ind_inv; [by split|].
  intros ??. apply Idle_step.
Qed.

Lemma depthAllowed_ceiling (d : nat) :
  Z.of_nat d ≤ Z.max 0 (Qceiling (maxDepth body)) → depthAllowed body d.
Proof.
  intros Hd. destruct (decide (d = 0%nat)) as [->|Hne].
  - split_and!; [by left|lia|]. intros k _ ?. lia.
  - assert (Z.of_nat d ≤ Qceiling (maxDepth body)) as Hle by lia.
    split_and!; [right; by apply le_ceiling|done|].
    intros k Hk _. by rewrite Hk, Qceiling_Z in Hle.
Qed.

(** No page is pushed deeper than [maxDepth], rounded up. *)
Lemma pushed_depth us w c :
  reachable E body us w c →
  ∀ it, it ∈ pushedItems (trace (store c)) →
        Z.of_nat (Item.depth it) ≤ Z.max 0 (Qceiling (maxDepth body)).
Proof.
  intros Hc. induction Hc as [|c c' Hc IH Hs].
  - intros it Hit. by apply elem_of_nil in Hit.
  - destruct (step_trace_prefix E body _ _ Hs) as [evs Hev]. intros it.
    rewrite Hev, pushedItems_app, elem_of_app. intros [Hit|Hit]; [auto|].
    apply pushedItems_elem in Hit.
    destruct (push_decision E body _ _ _ _ Hs Hev Hit) as [[Hp|Hp] _].
    + destruct Hp as (? & ? & ? & _ & _ & ->). simpl. lia.
    + destruct Hp as (? & ? & ? & _ & -> & _ & _ & Hd%lt_ceiling & _).
      simpl. lia.
Qed.

Lemma pushed_allowed us w c it :
  reachable E body us w c → it ∈ pushedItems (trace (store c)) →
  depthAllowed body (Item.depth it).
Proof. intros Hc Hit. by eapply depthAllowed_ceiling, pushed_depth. Qed.

Lemma Rested_step c c' :
  Rested c → step E body c = Some c' → Rested c'.
Proof.
  intros HR H. unfold Rested in *.
  destruct c as [ctl [rs vs q w tr]].
  destruct ctl as [[|u rest]| |item [|link rest]];
    step_cases H;
    rewrite ?sleeps_snoc; simpl;
    rewrite ?fetchedUrls_app; simpl;
    rewrite ?sleeps_snoc; simpl;
    rewrite ?app_nil_r, ?length_app; simpl;
    rewrite ?app_nil_r, ?length_app; simpl;
    try lia.
Qed.

End CrawlInvariants.

(** ** More properties of the handler *)

Section CrawlProperties.
Context {World : Type} (E : Env World) (body : Request).
Implicit Types (c : Config World) (s : Store World) (w : World).

(** The loops have ended: the handler stands at the [while] test, with
    an empty frontier or no room for another result. *)
Lemma step_None c :
  step E body c = None →
  control c = AtWhile
  ∧ (queue (store c) = [] ∨ belowCap body (store c) = false).
Proof.
  intros H. destruct c as [ctl [rs vs q w tr]].
  destruct ctl as [[|u rest]| |item [|link rest]]; try done.
  unfold step in H. simpl in *. destruct q as [|item q]; [by auto|].
  destruct (belowCap _ _); [done|by auto].
Qed.

(** What a response tells about the configuration the loops end in. *)
Lemma handler_end us w resp w' tr :
  urls body = UrlsArray us →
  handler E body w = (inr resp, w', tr) →
  ∃ c, reachable E body us w c
       ∧ step E body c = None
       ∧ resp = respond (store c) ∧ w' = world (store c)
       ∧ tr = trace (store c).
Proof.
  intros Hus Hh. destruct (handler_run E body us w Hus) as (c & Hc & Hend & Heq).
  rewrite Heq in Hh. simplify_eq. by exists c.
Qed.

Lemma run_add n m c : run E body (n + m) c = run E body m (run E body n c).
Proof.
  revert c. induction n as [|n IH]; intros c; simpl; [done|].
  destruct (step E body c) as [c'|] eqn:Hs; [apply IH|].
  destruct m; simpl; by rewrite ?Hs.
Qed.

Lemma requests_count tr :
  length (List.filter isRequest tr)
  = (length (fetchedUrls tr) + length (resolvedUrls tr))%nat.
Proof.
  induction tr as [|[] tr IH]; simpl; rewrite ?IH; lia.
Qed.

(** X1: no page is crawled deeper than [maxDepth] allows.  Along every
    run the depth of every result and of every frontier page is 0 or
    below [maxDepth + 1]: it is at most [maxDepth] rounded up to the
    next integer (at most 0 when [maxDepth] is negative), hence at most
    [maxDepth] when that is an integer; and it is 0 throughout when
    [recursive] is off. *)
Theorem depth_within_limit us w c :
  reachable E body us w c →
  (∀ r, r ∈ results (store c) →
        depthAllowed body (Result.depth r)
        ∧ (recursive body = false → Result.depth r = 0%nat))
  ∧ (∀ it, it ∈ queue (store c) →
           depthAllowed body (Item.depth it)
           ∧ (recursive body = false → Item.depth it = 0%nat)).
Proof.
  intros Hc.
  destruct (Origins_reachable E body us w c Hc) as [Hq _ Hr].
  destruct (Scope_reachable E body us w c Hc) as [_ Hp].
  assert (∀ it, it ∈ pushedItems (trace (store c)) →
                depthAllowed body (Item.depth it)
                ∧ (recursive body = false → Item.depth it = 0%nat)) as Hd.
  { intros it Hit. split; [by eapply pushed_allowed|]. intros Hrec.
    destruct (Hp it Hit) as [[? _]|(_ & ? & _)]; [done|congruence]. }
  split.
  - intros r (it & Hit & _ & _ & ->)%Hr. auto.
  - intros it Hit%Hq. auto.
Qed.

(** X2: the number of outbound requests is bounded by the seeds and the
    results.  There is at most one redirect check per result, every
    page fetched or waiting was pushed for a seed or after a redirect
    check, and so the handler makes at most [|urls| + 2 * |results|]
    requests. *)
Theorem requests_bounded us w c :
  reachable E body us w c →
  (length (resolvedUrls (trace (store c))) ≤ length (results (store c)))%nat
  ∧ (length (fetchedUrls (trace (store c))) + length (queue (store c))
     ≤ length us + length (resolvedUrls (trace (store c))))%nat
  ∧ (length (List.filter isRequest (trace (store c)))
     ≤ length us + 2 * length (results (store c)))%nat.
Proof.
  intros Hc.
  destruct (Traffic_reachable E body us w c Hc) as [Hr Hp].
  destruct (Books_reachable E body us w c Hc) as [_ _ _ Hf _].
  apply (f_equal length) in Hf. unfold pushedUrls in Hf.
  rewrite length_app, !length_fmap in Hf. rewrite requests_count.
  split_and!; lia.
Qed.

(** X3: in a response, the size of the visited set is the number of
    pages fetched plus the number of pages left on the frontier, and it
    is at most the number of seeds plus the number of results. *)
Theorem visited_fetched_or_remaining us w resp w' tr :
  urls body = UrlsArray us →
  handler E body w = (inr resp, w', tr) →
  Stats.visited (Response.stats resp)
  = (length (fetchedUrls tr) + Stats.remaining (Response.stats resp))%nat
  ∧ (Stats.visited (Response.stats resp)
     ≤ length us + Stats.totalLinks (Response.stats resp))%nat.
Proof.
  intros Hus Hh.
  destruct (handler_end us w resp w' tr Hus Hh) as (c & Hc & _ & -> & _ & ->).
  destruct (Traffic_reachable E body us w c Hc) as [Hr Hp].
  destruct (Books_reachable E body us w c Hc) as [Hv Hn Hpv Hf _]. simpl.
  assert (size (visited (store c))
          = (length (fetchedUrls (trace (store c)))
             + length (queue (store c)))%nat) as Hsize.
  { rewrite Hv, size_list_to_set by done.
    rewrite <- Hpv, <- Hf, length_app, length_fmap. done. }
  split; [done|]. rewrite Hsize.
  apply (f_equal length) in Hf. unfold pushedUrls in Hf.
  rewrite length_app, !length_fmap in Hf. lia.
Qed.

(** X4: with [maxUrls] at most 0 the [while] loop never runs.  The
    response has no result, no request was made and no pause taken, the
    world is as it was, and both [visited] and [remaining] count the
    distinct valid seeds. *)
Theorem no_room_no_request us w resp w' tr :
  urls body = UrlsArray us →
  (maxUrls body <= 0)%Q →
  handler E body w = (inr resp, w', tr) →
  Response.results resp = []
  ∧ w' = w
  ∧ Forall (λ e, isRequest e = false ∧ isSleep e = false) tr
  ∧ Stats.visited (Response.stats resp)
    = size (list_to_set (validSeeds E us) : gset string)
  ∧ Stats.remaining (Response.stats resp)
    = Stats.visited (Response.stats resp).
Proof.
  intros Hus Hcap Hh.
  destruct (handler_end us w resp w' tr Hus Hh) as (c & Hc & Hend & -> & -> & ->).
  destruct (Quiet_reachable E body us w c Hcap Hc) as [HR HW HT _].
  apply step_None in Hend as [Hctl _].
  pose proof (Seeded_reachable E body us w c Hc) as HS.
  unfold Seeded in HS. rewrite Hctl in HS.
  assert (fetchedUrls (trace (store c)) = []) as Hnil.
  { clear -HT. induction HT as [|[] tr [Hreq _] _ IH]; simpl; try done. }
  destruct (HS Hnil) as [_ _ _ Hsub Hall _ Hv _].
  destruct (Books_reachable E body us w c Hc) as [_ Hn Hpv Hf _].
  rewrite Hnil in Hf. simpl in Hf. rewrite Hpv in Hf.
  assert (visited (store c) = list_to_set (validSeeds E us)) as Hset.
  { rewrite Hv. apply set_eq. intros u. rewrite !elem_of_list_to_set.
    split; [|by auto]. intros Hu. eapply sublist_submseteq, elem_of_submseteq in Hsub; done. }
  simpl. split_and!; try done.
  - by rewrite Hset.
  - rewrite Hv, size_list_to_set, length_fmap; [done|]. by rewrite Hf.
Qed.

(** X5: when the [while] loop starts, the frontier holds the valid
    seeds, each once, in the order they come in [urls], at depth 0 and
    without a source; the visited set holds the same URLs, no result is
    recorded, and the trace holds one push and one visit per frontier
    page and nothing else. *)
Theorem frontier_after_seeding us w c :
  reachable E body us w c →
  control c = AtWhile →
  fetchedUrls (trace (store c)) = [] →
  queue (store c)
  = (λ u, Item.mk u 0 None) <$> firstOccurrences (validSeeds E us)
  ∧ (∀ it, it ∈ queue (store c) → it = Item.mk (Item.url it) 0 None)
  ∧ NoDup (Item.url <$> queue (store c))
  ∧ (Item.url <$> queue (store c)) `sublist_of` validSeeds E us
  ∧ (∀ u, u ∈ validSeeds E us → u ∈ Item.url <$> queue (store c))
  ∧ visited (store c) = list_to_set (Item.url <$> queue (store c))
  ∧ results (store c) = []
  ∧ trace (store c)
    = flat_map (λ it, [EvPush it; EvVisit (Item.url it)]) (queue (store c)).
Proof.
  intros Hc Hctl Hnil.
  pose proof (Seeded_reachable E body us w c Hc) as HS.
  unfold Seeded in HS. rewrite Hctl in HS.
  destruct (HS Hnil) as [HR _ Hfirst Hsub Hall Hit Hv Htr].
  destruct (Books_reachable E body us w c Hc) as [_ Hn Hpv Hf _].
  rewrite Hnil in Hf. simpl in Hf. rewrite Hpv in Hf.
  assert (∀ it, it ∈ queue (store c) → it = Item.mk (Item.url it) 0 None)
    as Hshape.
  { intros [u d src] [??]%Hit. simpl in *. by subst. }
  split_and!; try done.
  - rewrite <- Hfirst, <- list_fmap_compose.
    rewrite <- (list_fmap_id (queue (store c))) at 1.
    apply list_fmap_ext. intros _ it Hit'%list_elem_of_lookup_2.
    by apply Hshape.
  - by rewrite Hf.
Qed.

(** X6: a request none of whose seeds is valid is answered at once:
    no result, empty statistics, no effect at all. *)
Theorem no_valid_seed_no_work us w :
  urls body = UrlsArray us →
  validSeeds E us = [] →
  handler E body w
  = (inr {| Response.results := [];
            Response.stats := {| Stats.totalLinks := 0; Stats.visited := 0;
                                 Stats.remaining := 0 |} |}, w, []).
Proof.
  intros Hus Hnone.
  destruct (handler_run E body us w Hus) as (c & Hc & _ & ->).
  destruct (Idle_reachable E body us w c Hnone Hc) as [-> _].
  reflexivity.
Qed.

(** X7: results below the seeds trace back to a recorded link.  A
    result at depth [d + 1] is sourced from a page that an internal-link
    result at depth [d] has as its target. *)
Theorem deeper_results_trace_back us w c :
  reachable E body us w c →
  ∀ r, r ∈ results (store c) → (0 < Result.depth r)%nat →
       ∃ r', r' ∈ results (store c)
             ∧ Result.targetUrl r' = Result.sourceUrl r
             ∧ Result.type r' = internal
             ∧ S (Result.depth r') = Result.depth r.
Proof.
  intros Hc r Hr Hd.
  destruct (Origins_reachable E body us w c Hc) as [_ _ Ho].
  destruct (Ho r Hr) as (it & Hit & _ & Hsrc & Hdep).
  destruct (Discovered_reachable E body us w c Hc it Hit)
    as [Hz|(r' & ? & ? & ? & ?)]; [lia|].
  exists r'. rewrite Hsrc, Hdep. done.
Qed.

(** X8: the source of every result, whether built for a link or by
    the [catch] block, is a page the handler has requested with [fetch]
    before, and it is in the visited set. *)
Theorem results_come_from_fetched_pages us w c :
  reachable E body us w c →
  ∀ r, r ∈ results (store c) →
       Result.sourceUrl r ∈ fetchedUrls (trace (store c))
       ∧ Result.sourceUrl r ∈ visited (store c).
Proof.
  intros Hc r Hr.
  destruct (Origins_reachable E body us w c Hc) as [_ _ Ho].
  destruct (Ho r Hr) as (it & Hit & Hf & -> & _).
  destruct (Books_reachable E body us w c Hc) as [Hv _ Hpv _ _].
  split; [done|]. rewrite Hv, <- Hpv. apply elem_of_list_to_set.
  unfold pushedUrls. by apply list_elem_of_fmap_2.
Qed.

(** X9: the handler only ever appends.  Running longer extends the
    results and the trace at their ends, and nothing leaves the visited
    set. *)
Theorem run_only_appends n m c :
  results (store (run E body n c))
    `prefix_of` results (store (run E body (n + m) c))
  ∧ visited (store (run E body n c))
    ⊆ visited (store (run E body (n + m) c))
  ∧ trace (store (run E body n c))
    `prefix_of` trace (store (run E body (n + m) c)).
Proof. rewrite run_add. apply run_grows. Qed.

(** X10: the crawl is given up only for want of room.  If a response
    leaves pages on the frontier, the number of results has reached
    [maxUrls]; when [maxUrls] is not negative and the link extractor
    yields absolute URLs, it is [maxUrls] rounded up to the next
    integer: the one number of results from [maxUrls] up to, but not
    including, [maxUrls + 1], which is [maxUrls] if that is an
    integer. *)
Theorem frontier_left_only_at_cap us w resp w' tr :
  urls body = UrlsArray us →
  handler E body w = (inr resp, w', tr) →
  (0 < Stats.remaining (Response.stats resp))%nat →
  (maxUrls body
   <= inject_Z (Z.of_nat (Stats.totalLinks (Response.stats resp))))%Q
  ∧ ((0 <= maxUrls body)%Q → extractsAbsolute E →
     (inject_Z (Z.of_nat (Stats.totalLinks (Response.stats resp)))
      < maxUrls body + 1)%Q
     ∧ Z.of_nat (Stats.totalLinks (Response.stats resp))
       = Qceiling (maxUrls body)
     ∧ ∀ k : Z, (maxUrls body == inject_Z k)%Q →
                Z.of_nat (Stats.totalLinks (Response.stats resp)) = k).
Proof.
  intros Hus Hh Hrem.
  destruct (handler_end us w resp w' tr Hus Hh) as (c & Hc & Hend & -> & _ & _).
  simpl in *. apply step_None in Hend as [_ [Hq|Hcap]].
  { rewrite Hq in Hrem. simpl in Hrem. lia. }
  unfold belowCap in Hcap. apply below_ge in Hcap. split; [done|].
  intros Hpos Hext.
  destruct (Capped_reachable E body us w c Hpos Hext Hc) as [Hle _].
  apply ceiling_le in Hcap.
  assert (Z.of_nat (length (results (store c))) = Qceiling (maxUrls body))
    as Heq by lia.
  split_and!; [by apply le_ceiling|done|].
  intros k Hk. by rewrite Hk, Qceiling_Z in Heq.
Qed.

(** X11: without [recursive] only the seeds are audited: the source of
    every result is the normalization of one of the [urls]. *)
Theorem flat_audit_reports_seeds_only us w c :
  recursive body = false →
  reachable E body us w c →
  ∀ r, r ∈ results (store c) →
       ∃ u, u ∈ us ∧ normalizeUrl E u = Some (Result.sourceUrl r).
Proof.
  intros Hrec Hc r Hr.
  destruct (Origins_reachable E body us w c Hc) as [_ _ Ho].
  destruct (Ho r Hr) as (it & Hit & _ & -> & _).
  destruct (Scope_reachable E body us w c Hc) as [_ Hp].
  destruct (Hp it Hit) as [[_ ?]|(_ & ? & _)]; [done|congruence].
Qed.

(** X23: the pauses are paid for.  The handler calls [sleep] at most
    once per page fetched and once per result, and so at most once per
    seed and twice per result; and every call is [sleep(delayMs)] or
    [sleep(delayMs / 2)]. *)
Theorem pause_bounded us w c :
  reachable E body us w c →
  (length (sleeps (trace (store c)))
   ≤ length (fetchedUrls (trace (store c))) + length (results (store c)))%nat
  ∧ (length (sleeps (trace (store c)))
     ≤ length us + 2 * length (results (store c)))%nat
  ∧ Forall (λ ms, ms = delayMs body ∨ ms = halfDelay body)
      (sleeps (trace (store c))).
Proof.
  intros Hc.
  assert (Rested c) as HR.
  { revert c Hc. apply reachable_ind_inv.
    - unfold Rested. simpl. lia.
    - intros ??. by apply Rested_step. }
  unfold Rested in HR.
  destruct (Traffic_reachable E body us w c Hc) as [Hr Hp].
  destruct (Books_reachable E body us w c Hc) as [_ _ _ Hf _].
  apply (f_equal length) in Hf. unfold pushedUrls in Hf.
  rewrite length_app, !length_fmap in Hf.
  split_and!; [done|lia|].
  destruct (Paced_reachable E body us w c Hc) as [_ _ Hfix _].
  apply Forall_forall. intros ms Hms. apply Hfix.
  unfold sleeps in Hms. apply list_elem_of_omap in Hms as (e & He & Heq).
  destruct e; by simplify_eq.
Qed.

Lemma omap_none {A B : Type} (f : A → option B) (l : list A) :
  (∀ x, x ∈ l → f x = None) → omap f l = [].
Proof.
  induction l as [|x l IH]; intros Hl; [done|]. simpl.
  rewrite (Hl x) by by left. apply IH. intros y Hy. apply Hl. by right.
Qed.

(** X24: a same-domain crawl without a base domain stays on the seeds.
    If [sameDomainOnly] is set and no seed has a host name ([new URL]
    throws on it, or the host name is empty), no link is ever pushed:
    every page pushed and every result has depth 0, and the source of
    every result is the normalization of a seed. *)
Theorem no_base_domain_no_crawl us w c :
  urls body = UrlsArray us →
  sameDomainOnly body = true →
  (∀ u, u ∈ us → seedHost E u = None) →
  reachable E body us w c →
  (∀ it, it ∈ pushedItems (trace (store c)) → Item.depth it = 0%nat)
  ∧ ∀ r, r ∈ results (store c) →
         Result.depth r = 0%nat
         ∧ ∃ u, u ∈ us ∧ normalizeUrl E u = Some (Result.sourceUrl r).
Proof.
  intros Hus Hsame Hhost Hc.
  assert (baseDomains E body = ∅) as Hbase.
  { unfold baseDomains, baseDomainsOf. rewrite Hus. simpl.
    by rewrite omap_none. }
  destruct (Scope_reachable E body us w c Hc) as [_ Hp].
  assert (∀ it, it ∈ pushedItems (trace (store c)) → seedItem E us it)
    as Hseed.
  { intros it [?|(_ & _ & Hin)]%Hp; [done|].
    destruct (Hin Hsame) as (h & _ & Hh). rewrite Hbase in Hh.
    by apply not_elem_of_empty in Hh. }
  split; [intros it [? _]%Hseed; done|]. intros r Hr.
  destruct (Origins_reachable E body us w c Hc) as [_ _ Ho].
  destruct (Ho r Hr) as (it & [Hd Hu]%Hseed & _ & -> & ->). done.
Qed.

(** The response counts its results. *)
Lemma handler_totalLinks w resp w' tr :
  handler E body w = (inr resp, w', tr) →
  Stats.totalLinks (Response.stats resp) = length (Response.results resp).
Proof.
  unfold handler. destruct (_ || _); [done|]. by intros [= <- _ _].
Qed.

End CrawlProperties.

(** ** The results table *)

Lemma countWhere_cons {A : Type} (p : A → bool) x l :
  countWhere p (x :: l) = ((if p x then 1 else 0) + countWhere p l)%nat.
Proof. unfold countWhere. simpl. by destruct (p x). Qed.

Lemma countWhere_app {A : Type} (p : A → bool) l1 l2 :
  countWhere p (l1 ++ l2) = (countWhere p l1 + countWhere p l2)%nat.
Proof.
  induction l1 as [|x l1 IH]; [done|].
  simpl. rewrite !countWhere_cons, IH. lia.
Qed.

(** The counts of [linkStats] are taken over all of [rs]. *)
Lemma linkStats_Some rs st :
  linkStats (Some rs) = Some st →
  rs ≠ []
  ∧ st = {|
      LinkStats.total := length rs;
      LinkStats.status200 :=
        countWhere (λ r, (200 <=? Result.status r) && (Result.status r <? 300)) rs;
      LinkStats.status3xx :=
        countWhere (λ r, (300 <=? Result.status r) && (Result.status r <? 400)) rs;
      LinkStats.status4xx :=
        countWhere (λ r, (400 <=? Result.status r) && (Result.status r <? 500)) rs;
      LinkStats.status5xx := countWhere (λ r, 500 <=? Result.status r) rs;
      LinkStats.errors := countWhere (λ r, Result.status r =? 0) rs;
      LinkStats.internal := countWhere (hasType internal) rs;
      LinkStats.external := countWhere (hasType external) rs
    |}.
Proof. destruct rs; [done|]. intros [= <-]. done. Qed.

(** Case analysis on the comparisons made on a status. *)
Ltac status_cases :=
  repeat match goal with
    | |- context [(?a <=? ?b)] => destruct (Z.leb_spec a b); simpl
    | |- context [(?a <? ?b)] => destruct (Z.ltb_spec a b); simpl
    | |- context [(?a =? ?b)] => destruct (Z.eqb_spec a b); simpl
    end; try lia.

(** X12: the bar above the table accounts for every row.  [internal]
    and [external] add up to [total]; the five status counts are taken
    over disjoint sets of rows, and what they miss of [total] are the
    rows with a negative status or one from 1 to 199.  There is no bar
    exactly when there is no row. *)
Theorem linkStats_accounts rs :
  (linkStats (Some rs) = None ↔ rs = [])
  ∧ ∀ st, linkStats (Some rs) = Some st →
      LinkStats.total st = length rs
      ∧ (LinkStats.internal st + LinkStats.external st
         = LinkStats.total st)%nat
      ∧ (LinkStats.status200 st + LinkStats.status3xx st
         + LinkStats.status4xx st + LinkStats.status5xx st
         + LinkStats.errors st + countWhere uncounted rs
         = LinkStats.total st)%nat.
Proof.
  split; [by destruct rs|].
  intros st [_ ->]%linkStats_Some. simpl. split; [done|]. clear.
  induction rs as [|r rs [IH1 IH2]]; [done|].
  rewrite !countWhere_cons. simpl. split.
  - unfold hasType in *. destruct (Result.type r); lia.
  - unfold uncounted in *. status_cases.
Qed.

(** X13: badges and counts agree.  The rows badged [status-ok] are
    those counted under 2xx, the rows badged [status-redirect] those
    under 3xx, every other row is badged [status-error]; these include
    the rows counted under 4xx, 5xx and as errors. *)
Theorem badges_agree_with_counts rs st :
  linkStats (Some rs) = Some st →
  badged "status-ok" rs = LinkStats.status200 st
  ∧ badged "status-redirect" rs = LinkStats.status3xx st
  ∧ (badged "status-ok" rs + badged "status-redirect" rs
     + badged "status-error" rs = LinkStats.total st)%nat
  ∧ (LinkStats.status4xx st + LinkStats.status5xx st + LinkStats.errors st
     ≤ badged "status-error" rs)%nat.
Proof.
  intros [_ ->]%linkStats_Some. simpl. clear. unfold badged.
  induction rs as [|r rs (IH1 & IH2 & IH3 & IH4)]; [by split_and!|].
  rewrite !countWhere_cons. simpl. unfold getStatusClass in *.
  split_and!; status_cases.
Qed.

(** X14: a record of the [catch] block of the crawl is shown as an
    error: it is badged [status-error], and it is counted under errors
    and under internal links. *)
Theorem failure_records_shown_as_errors rs st item e :
  failureResult item e ∈ rs →
  linkStats (Some rs) = Some st →
  getStatusClass (Result.status (failureResult item e)) = "status-error"
  ∧ (0 < LinkStats.errors st)%nat
  ∧ (0 < LinkStats.internal st)%nat
  ∧ (0 < badged "status-error" rs)%nat.
Proof.
  intros (l1 & l2 & ->)%list_elem_of_split [_ ->]%linkStats_Some.
  simpl. split; [done|]. unfold badged.
  rewrite !countWhere_app, !countWhere_cons. simpl. lia.
Qed.

(** ** The page and its URL input *)

(** *** The log *)

Lemma addLogs_snoc calls call logs :
  addLogs (calls ++ [call]) logs
  = addLog call.1.1 call.1.2 call.2 (addLogs calls logs).
Proof. unfold addLogs. by rewrite foldl_snoc. Qed.

Lemma tail_drop_snoc {A : Type} (k : nat) (l : list A) (x : A) :
  (k < length l)%nat → tail (drop k l ++ [x]) = drop (S k) (l ++ [x]).
Proof.
  revert l. induction k as [|k IH]; intros [|y l] Hk; simpl in *; try lia.
  - done.
  - apply IH. lia.
Qed.

(** One call on a log that is not over-full. *)
Lemma addLog_window timestamp message type logs :
  (length logs ≤ 100)%nat →
  addLog timestamp message type logs
  = drop (length logs + 1 - 100)
      (logs ++ [logEntry (timestamp, message, type)])
  ∧ (length (addLog timestamp message type logs) ≤ 100)%nat.
Proof.
  intros Hlen. unfold addLog, logEntry. simpl.
  set (e := Log.mk timestamp message (default Log.info type)).
  rewrite length_app. simpl.
  destruct (Nat.ltb_spec 100 (length logs + 1)) as [Hgt|Hle].
  - replace (length logs + 1 - 100)%nat with 1%nat by lia.
    destruct logs as [|x logs]; simpl in *; [lia|].
    split; [done|]. rewrite length_app. simpl. lia.
  - replace (length logs + 1 - 100)%nat with 0%nat by lia.
    split; [done|]. rewrite length_app. simpl. lia.
Qed.

(** X15: the log is a window on the last 100 entries.  Starting from a
    log of at most 100 entries, after any sequence of [addLog] calls the
    log holds the last 100 of the old entries followed by the new ones
    (all of them when there are fewer), in order. *)
Theorem addLog_keeps_latest calls logs :
  (length logs ≤ 100)%nat →
  addLogs calls logs
  = drop (length (logs ++ (logEntry <$> calls)) - 100)
      (logs ++ (logEntry <$> calls))
  ∧ (length (addLogs calls logs) ≤ 100)%nat.
Proof.
  intros Hlen. induction calls as [|call calls [IH IHlen]] using rev_ind.
  - simpl. rewrite app_nil_r.
    replace (length logs - 100)%nat with 0%nat by lia. done.
  - rewrite addLogs_snoc.
    destruct (addLog_window call.1.1 call.1.2 call.2 _ IHlen) as [Hw Hwlen].
    split; [|done]. rewrite Hw, IH. clear Hw Hwlen IHlen.
    rewrite fmap_app, app_assoc. simpl.
    set (all := logs ++ (logEntry <$> calls)) in *.
    replace (logEntry (call.1.1, call.1.2, call.2)) with (logEntry call)
      by (by destruct call as [[??]?]).
    rewrite length_drop, length_app. simpl.
    destruct (Nat.le_gt_cases 100 (length all)) as [Hge|Hlt].
    + replace (length all - (length all - 100) + 1 - 100)%nat with 1%nat
        by lia.
      replace (length all + 1 - 100)%nat with (S (length all - 100)) by lia.
      rewrite <- (tail_drop_snoc (length all - 100) all) by lia.
      by destruct (drop (length all - 100) all ++ [logEntry call]).
    + replace (length all - (length all - 100) + 1 - 100)%nat with 0%nat
        by lia.
      replace (length all + 1 - 100)%nat with 0%nat by lia.
      replace (length all - 100)%nat with 0%nat by lia. done.
Qed.

(** *** Splitting and trimming *)

(** Every piece is a stretch of the text without a separator in it. *)
Lemma splitRuns_pieces cur inRun s p :
  Forall (λ u, isSeparator u = false) cur →
  p ∈ splitRuns cur inRun s →
  Forall (λ u, isSeparator u = false) p
  ∧ ∃ pre post, cur ++ s = pre ++ p ++ post.
Proof.
  revert cur inRun. induction s as [|u s IH]; intros cur inRun Hcur; simpl.
  - intros ->%list_elem_of_singleton. split; [done|].
    exists [], []. by rewrite !app_nil_r.
  - destruct (isSeparator u) eqn:Hu.
    + assert (p ∈ splitRuns [] true s →
              Forall (λ u, isSeparator u = false) p
              ∧ ∃ pre post, cur ++ u :: s = pre ++ p ++ post) as Hrest.
      { intros [Hp (pre & post & Heq)]%IH; [|done]. split; [done|].
        exists (cur ++ u :: pre), post. simpl in Heq.
        rewrite Heq, <- !app_assoc. done. }
      destruct inRun; [done|].
      intros [->|Hp]%elem_of_cons; [|by auto].
      split; [done|]. by exists [], (u :: s).
    + intros [Hp (pre & post & Heq)]%IH.
      * split; [done|]. exists pre, post. rewrite <- Heq, <- app_assoc. done.
      * apply Forall_app. split; [done|]. by constructor.
Qed.

Lemma trimStart_suffix s :
  ∃ ws, s = ws ++ trimStart s.
Proof.
  induction s as [|u s [ws IH]]; [by exists []|]. simpl.
  destruct (isWhiteSpace u); [|by exists []].
  exists (u :: ws). simpl. by rewrite <- IH.
Qed.

Lemma trimStart_head s u :
  head (trimStart s) = Some u → isWhiteSpace u = false.
Proof.
  induction s as [|v s IH]; [done|]. simpl.
  destruct (isWhiteSpace v) eqn:Hv; [done|]. simpl. by intros [= <-].
Qed.

Lemma trimEnd_prefix s : ∃ ws, s = trimEnd s ++ ws.
Proof.
  unfold trimEnd. destruct (trimStart_suffix (reverse s)) as [ws Hws].
  exists (reverse ws). rewrite <- reverse_app, <- Hws.
  by rewrite reverse_involutive.
Qed.

Lemma trimEnd_last s u : last (trimEnd s) = Some u → isWhiteSpace u = false.
Proof. unfold trimEnd. rewrite last_reverse. apply trimStart_head. Qed.

(** What [trim] leaves is a stretch of the string that neither starts
    nor ends with white space. *)
Lemma trim_spec s :
  (∃ pre post, s = pre ++ trim s ++ post)
  ∧ (∀ u, head (trim s) = Some u → isWhiteSpace u = false)
  ∧ (∀ u, last (trim s) = Some u → isWhiteSpace u = false).
Proof.
  unfold trim. destruct (trimStart_suffix s) as [pre Hpre].
  destruct (trimEnd_prefix (trimStart s)) as [post Hpost].
  split_and!.
  - exists pre, post. by rewrite <- Hpost.
  - intros u Hu. apply (trimStart_head s). rewrite Hpost.
    destruct (trimEnd (trimStart s)); [done|]. done.
  - apply trimEnd_last.
Qed.

Lemma trim_nil : trim [] = [].
Proof. done. Qed.

(** A run of separators is as good as one separator: before the
    filter, pieces differ by empty ones only. *)
Lemma splitRuns_inRun s :
  List.filter nonEmpty (splitRuns [] true s)
  = List.filter nonEmpty (splitRuns [] false s).
Proof. destruct s as [|u s]; [done|]. simpl. by destruct (isSeparator u). Qed.

Lemma splitRuns_app_separator cur inRun a c b :
  isSeparator c = true →
  (inRun = true → cur = []) →
  List.filter nonEmpty (splitRuns cur inRun (a ++ c :: b))
  = List.filter nonEmpty (splitRuns cur inRun a)
    ++ List.filter nonEmpty (split b).
Proof.
  intros Hc. revert cur inRun.
  induction a as [|u a IH]; intros cur inRun Hrun; simpl.
  - rewrite Hc. unfold split. destruct inRun.
    + rewrite Hrun by done. simpl. apply splitRuns_inRun.
    + simpl. rewrite splitRuns_inRun. by destruct (nonEmpty cur).
  - destruct (isSeparator u).
    + destruct inRun; simpl; rewrite IH by done; [done|].
      by destruct (nonEmpty cur).
    + by apply IH.
Qed.

Section UrlInputProperties.
Variable isUrl : JsString → bool.

(** Empty pieces do not make it through the filter of [parseUrls]. *)
Lemma parseUrls_nonEmpty pieces :
  List.filter (λ url, if negb (nonEmpty url) then false else isUrl url)
    (trim <$> List.filter nonEmpty pieces)
  = List.filter (λ url, if negb (nonEmpty url) then false else isUrl url)
      (trim <$> pieces).
Proof.
  induction pieces as [|p pieces IH]; [done|].
  destruct p as [|u p].
  - change (List.filter nonEmpty ([] :: pieces))
      with (List.filter nonEmpty pieces).
    rewrite IH, fmap_cons, trim_nil. done.
  - change (List.filter nonEmpty ((u :: p) :: pieces))
      with ((u :: p) :: List.filter nonEmpty pieces).
    rewrite !fmap_cons. cbn [List.filter]. by rewrite IH.
Qed.

(** X16: what [parseUrls] returns.  Every string in the result is
    accepted by [new URL], is not empty, is a stretch of the input text,
    holds neither a line feed nor a comma, and neither starts nor ends
    with white space. *)
Theorem parseUrls_sound input url :
  url ∈ parseUrls isUrl input →
  isUrl url = true
  ∧ url ≠ []
  ∧ (∃ pre post, input = pre ++ url ++ post)
  ∧ Forall (λ u, isSeparator u = false) url
  ∧ (∀ u, head url = Some u → isWhiteSpace u = false)
  ∧ (∀ u, last url = Some u → isWhiteSpace u = false).
Proof.
  unfold parseUrls. rewrite list_elem_of_In, List.filter_In.
  rewrite <- list_elem_of_In. intros [Hin Hok].
  apply list_elem_of_fmap in Hin as (p & -> & Hp).
  apply (splitRuns_pieces [] false) in Hp as [Hsep (pre & post & Heq)];
    [|done].
  destruct (trim_spec p) as ((pre' & post' & Hp) & Hhead & Hlast).
  destruct (trim p) as [|u t] eqn:Ht; [done|]. simpl in Hok.
  split_and!; try done.
  - exists (pre ++ pre'), (post' ++ post). simpl in Heq.
    rewrite Heq, Hp, <- !app_assoc. done.
  - rewrite Hp in Hsep. by apply Forall_app in Hsep as [_ [? _]%Forall_app].
Qed.

(** X17: a line feed or a comma between two texts keeps their URLs
    apart: the URLs of the whole are those of the first text followed
    by those of the second. *)
Theorem parseUrls_app_separator a c b :
  isSeparator c = true →
  parseUrls isUrl (a ++ c :: b) = parseUrls isUrl a ++ parseUrls isUrl b.
Proof.
  intros Hc. unfold parseUrls.
  rewrite <- (parseUrls_nonEmpty (split (a ++ c :: b))).
  unfold split at 1. rewrite splitRuns_app_separator by done.
  rewrite fmap_app, List.filter_app.
  fold (split a). by rewrite !parseUrls_nonEmpty.
Qed.

(** X18: the counter beside the URL field shows the number of URLs a
    scrape is started with. *)
Theorem urlCount_parseUrls text :
  urlCount isUrl text = length (parseUrls isUrl text).
Proof.
  unfold urlCount, parseUrls, isValidUrl. f_equal.
  apply List.filter_ext. by intros [|u s].
Qed.

End UrlInputProperties.

(** *** The link audit started from the page *)

Section LinkPageProperties.
Import LinkPage.
Context (C : Client) (settings : Settings) (us : list string).

(** X25: [scrapeLinks] shows what it got.  The request it sends has
    the parsed URLs as its [urls] array, so the handler of
    [/api/scrape-links] does not refuse it.  If the request fails the
    page stays as it was.  Otherwise, with a server whose [totalLinks]
    counts its results, the table holds the results of the response and
    the progress stands complete at their number; nothing is saved when
    there is no result, and else one request to save exactly these
    results is made, whose files are shown unless it fails. *)
Theorem scrapeLinks_shows_response page page' thrown :
  countsResults C →
  scrapeLinks C settings us page = (page', thrown) →
  (∀ (World : Type) (E : Env World) (w : World),
     ∃ resp, (handler E (linkRequest settings us) w).1.1 = inr resp)
  ∧ (∀ e, post C (linkRequest settings us) = Throw e →
          page' = page ∧ thrown = Some e)
  ∧ (∀ response,
       post C (linkRequest settings us) = Ok response →
       linkResults page' = Response.results response
       ∧ progressDone page' = length (linkResults page')
       ∧ progressTotal page' = length (linkResults page')
       ∧ (linkResults page' = [] →
          saves page' = saves page ∧ savedFiles page' = savedFiles page
          ∧ thrown = None)
       ∧ (linkResults page' ≠ [] →
          ∃ request,
            saves page' = saves page ++ [request]
            ∧ results request = linkResults page'
            ∧ match save C request with
              | Ok files => savedFiles page' = files ∧ thrown = None
              | Throw e => savedFiles page' = savedFiles page
                           ∧ thrown = Some e
              end)).
Proof.
  intros Hcount Hs. split_and!.
  - intros World E w. unfold handler. simpl. by eexists.
  - intros e He. unfold scrapeLinks in Hs. rewrite He in Hs. by simplify_eq.
  - intros response Hr. unfold scrapeLinks in Hs. rewrite Hr in Hs.
    rewrite (Hcount _ _ Hr) in Hs. unfold saveResults in Hs.
    destruct (Response.results response) as [|r rs] eqn:Hres.
    + simplify_eq. simpl. by split_and!.
    + simpl in Hs.
      destruct (save C _) as [files|e] eqn:Hsave; simplify_eq; simpl;
        (split_and!; [done|done|done|done|]); intros _;
        eexists; (split_and!; [done|done|]); simpl; by rewrite Hsave.
Qed.

End LinkPageProperties.

(** ** The HTML scraper *)

(** A batch is cut out of the list where the loop stands. *)
Lemma slice_batch {A : Type} (i b : Z) (l : list A) :
  0 ≤ i → 0 < b →
  slice i (i + b) l = take (Z.to_nat b) (drop (Z.to_nat i) l).
Proof.
  intros Hi Hb. unfold slice, sliceIndex.
  destruct (Z.ltb_spec i 0) as [|_]; [lia|].
  destruct (Z.ltb_spec (i + b) 0) as [|_]; [lia|].
  destruct (Z.le_gt_cases (Z.of_nat (length l)) i) as [Hout|Hin].
  - rewrite Z.min_r by lia. rewrite Nat2Z.id.
    rewrite !drop_ge by lia. by rewrite !take_nil.
  - rewrite (Z.min_l i) by lia.
    destruct (Z.le_gt_cases (i + b) (Z.of_nat (length l))) as [Hfull|Hpart].
    + rewrite Z.min_l by lia. f_equal. lia.
    + rewrite Z.min_r by lia. rewrite Nat2Z.id.
      rewrite !take_ge; [done| |]; rewrite length_drop; lia.
Qed.

Lemma take_batch {A : Type} (i b : nat) (l : list A) :
  take i l ++ take b (drop i l) = take (i + b) l.
Proof. by rewrite take_take_drop. Qed.

Section HtmlScraper.
Import ScrapeHtml.

Section ServerSide.
Context (E : Env) (body : Request).

Lemma batchLoop_spec us fuel i results :
  urlList (urls body) = us →
  0 ≤ i →
  results = imap (scrapeOne E body) (take (Z.to_nat i) us) →
  (length us - Z.to_nat i ≤ fuel)%nat →
  batchStep E body (batchLoop E body fuel (i, results)) = None
  ∧ (batchLoop E body fuel (i, results)).2 = imap (scrapeOne E body) us.
Proof.
  intros Hus. revert i results.
  induction fuel as [|fuel IH]; intros i results Hi Hres Hfuel;
    cbn [batchLoop].
  - unfold batchStep. rewrite Hus.
    destruct (Z.ltb_spec i (Z.of_nat (length us))) as [|Hge]; [lia|].
    split; [done|]. simpl. rewrite Hres, take_ge by lia. done.
  - destruct (batchStep E body (i, results)) as [st'|] eqn:Hstep;
      unfold batchStep in Hstep; rewrite Hus in Hstep;
      destruct (Z.ltb_spec i (Z.of_nat (length us))) as [Hlt|Hge];
      try done.
    + injection Hstep as <-.
      apply IH; [unfold batchSize; lia| |unfold batchSize; lia].
      rewrite slice_batch by (unfold batchSize; lia).
      replace (Z.to_nat (i + batchSize))
        with (Z.to_nat i + Z.to_nat batchSize)%nat by (unfold batchSize; lia).
      rewrite <- take_batch, imap_app, Hres, length_take.
      replace (Z.to_nat i `min` length us)%nat with (Z.to_nat i) by lia.
      done.
    + split; [|by simpl; rewrite Hres, take_ge by lia].
      unfold batchStep. rewrite Hus.
      by destruct (Z.ltb_spec i (Z.of_nat (length us))); [lia|].
Qed.

Lemma scrapeOne_url i url : HtmlResult.url (scrapeOne E body i url) = url.
Proof.
  unfold scrapeOne. repeat case_match; done.
Qed.

Lemma imap_urls us :
  HtmlResult.url <$> imap (scrapeOne E body) us = us.
Proof.
  generalize (scrapeOne_url). generalize (scrapeOne E body). intros f Hf.
  revert f Hf. induction us as [|u us IH]; intros f Hf; [done|].
  simpl. rewrite Hf. f_equal. apply IH. intros i url. apply Hf.
Qed.

(** The loop carried out. *)
Lemma handler_records us :
  urls body = UrlsArray us →
  batchStep E body (batchLoop E body (length us) (0, [])) = None
  ∧ handler E body = inr (imap (scrapeOne E body) us).
Proof.
  intros Hus.
  destruct (batchLoop_spec us (length us) 0 []) as [Hend Hres];
    [by rewrite Hus|done|done|simpl; lia|].
  split; [done|]. unfold handler. rewrite Hus. simpl. by rewrite Hres.
Qed.

(** What the page relies on. *)
Lemma handler_urls rs :
  handler E body = inr rs → HtmlResult.url <$> rs = urlList (urls body).
Proof.
  destruct (urls body) as [|t|us] eqn:Hus;
    [by unfold handler; rewrite Hus
    |unfold handler; rewrite Hus; by destruct t|].
  destruct (handler_records us Hus) as [_ ->]. intros [= <-]. simpl.
  apply imap_urls.
Qed.

(** X19: the handler of [/api/scrape-html] answers with one record per
    URL, in the order of [urls], whatever happens to the single
    requests: the loop over the batches ends, the record at position [i]
    is the one of the task run for the URL at position [i], and it
    carries that URL. *)
Theorem scrape_html_one_record_per_url us :
  urls body = UrlsArray us →
  batchStep E body (batchLoop E body (length us) (0, [])) = None
  ∧ handler E body = inr (imap (scrapeOne E body) us)
  ∧ ∀ rs, handler E body = inr rs → HtmlResult.url <$> rs = us.
Proof.
  intros Hus. destruct (handler_records us Hus) as [Hend Hh].
  split_and!; [done|done|]. intros rs Hrs%handler_urls.
  by rewrite Hus in Hrs.
Qed.

End ServerSide.

Section PageSide.
Context (C : Client) (settings : Settings) (us : list string).

Abbreviation next := (scrapeStep C settings us).
Abbreviation rounds := (scrapeLoop C settings us).
Abbreviation width := (clientBatchSize settings).
Abbreviation Batched := (Batched settings us).
Abbreviation answersInOrder := (answersInOrder C).

Lemma Batched_step st st' :
  0 < width → answersInOrder →
  Batched st → next st = Some st' → Batched st'.
Proof.
  intros Hb Hpost [Hi Hr Hl Hs] Hstep. unfold scrapeStep in Hstep.
  destruct (Z.ltb_spec (index st) (Z.of_nat (length us))) as [Hlt|]; [|done].
  injection Hstep as <-. split; simpl.
  - lia.
  - rewrite slice_batch by lia.
    replace (Z.to_nat (index st + width))
      with (Z.to_nat (index st) + Z.to_nat width)%nat by lia.
    rewrite <- take_batch.
    destruct (post C (calls st) _) as [response|e] eqn:Hp.
    + apply Hpost in Hp. cbn [urls urlList] in Hp.
      by rewrite fmap_app, Hr, Hp.
    + rewrite fmap_app, Hr, <- list_fmap_compose. simpl.
      by rewrite list_fmap_id.
  - right. lia.
  - right. done.
Qed.

Lemma scrapeLoop_spec fuel st :
  0 < width → answersInOrder →
  Batched st →
  (length us - Z.to_nat (index st) ≤ fuel)%nat →
  next (rounds fuel st) = None ∧ Batched (rounds fuel st).
Proof.
  intros Hb Hpost. revert st.
  induction fuel as [|fuel IH]; intros st Hst Hfuel; simpl.
  - split; [|done]. unfold scrapeStep.
    destruct (Z.ltb_spec (index st) (Z.of_nat (length us))) as [Hlt|]; [|done].
    destruct Hst as [Hi _ _ _]. lia.
  - destruct (next st) as [st'|] eqn:Hstep; [|done].
    apply IH; [by eapply Batched_step|].
    unfold scrapeStep in Hstep.
    destruct (Z.ltb_spec (index st) (Z.of_nat (length us))) as [Hlt|]; [|done].
    injection Hstep as <-. simpl. destruct Hst as [Hi _ _ _]. lia.
Qed.


(** X21: with a negative [parallelRequests] the loop over the batches
    does not end: as long as there is a URL, another round follows
    every round. *)
Theorem scrapeHtml_negative_batch_never_ends fuel done shown :
  parallelRequests settings < 0 → us ≠ [] →
  is_Some (next (scrapeHtml C settings us fuel done shown)).
Proof.
  intros Hneg Hne. unfold scrapeHtml.
  set (st0 := {| index := 0; calls := 0; results := [];
                 progressDone := done; htmlResults := shown |}).
  assert (index st0 ≤ 0) as Hst by done. clearbody st0. revert st0 Hst.
  assert (width < 0) as Hb.
  { unfold clientBatchSize. destruct (Z.eqb_spec (parallelRequests settings) 0); lia. }
  assert (∀ st, index st ≤ 0 → ∃ st', next st = Some st' ∧ index st' ≤ 0)
    as Hstep.
  { intros st Hst. unfold scrapeStep.
    destruct (Z.ltb_spec (index st) (Z.of_nat (length us))) as [|Hge].
    - eexists. split; [done|]. simpl. lia.
    - destruct us; [done|]. simpl in Hge. lia. }
  induction fuel as [|fuel IH]; intros st Hst; simpl.
  - destruct (Hstep st Hst) as (st' & -> & _). done.
  - destruct (Hstep st Hst) as (st' & -> & Hst'). by apply IH.
Qed.

End PageSide.

End HtmlScraper.

(** ** File access *)

Lemma prefix_append p s :
  String.prefix p s = true ↔ ∃ rest, s = String.append p rest.
Proof.
  revert s. induction p as [|a p IH]; intros s.
  - split; [by exists s|by destruct s].
  - destruct s as [|b s]; [split; [done|by intros [? ?]]|].
    cbn [String.prefix String.append].
    destruct (Ascii.ascii_dec a b) as [->|Hne].
    + rewrite IH. split; intros [rest Hrest]; exists rest;
        [by rewrite Hrest|by injection Hrest].
    + split; [done|]. intros [rest [= ? _]]. done.
Qed.

Lemma append_assoc (a b c : string) :
  String.append (String.append a b) c = String.append a (String.append b c).
Proof.
  induction a as [|x a IH]; [done|].
  change (String x (String.append (String.append a b) c)
          = String x (String.append a (String.append b c))).
  by rewrite IH.
Qed.

Lemma append_cancel (a b c : string) :
  String.append a b = String.append a c → b = c.
Proof. apply (inj (String.append a)). Qed.

(** X22: the handler of [/api/read-file] reads inside the output
    directory only.  It calls [readFile] at most once, on the resolved
    path, and only if that is the output directory or lies below it;
    content it answers with was read from there.  A path that resolves
    to a neighbour of the output directory whose name merely starts
    with the same characters is refused, and nothing is read. *)
Theorem read_file_confined (E : ReadFile.Env) path answer reads :
  ReadFile.handler E path = (answer, reads) →
  (∀ p, p ∈ reads →
        reads = [p]
        ∧ (∃ filePath, path = ReadFile.PathString filePath
                       ∧ p = ReadFile.resolve E filePath)
        ∧ (p = ReadFile.outputDir E
           ∨ ∃ rest, p = String.append (ReadFile.outputDir E)
                           (String.append "/" rest)))
  ∧ (∀ content, answer = ReadFile.Content content →
                ∃ p, reads = [p] ∧ ReadFile.readFile E p = Ok content)
  ∧ (∀ filePath tail,
       path = ReadFile.PathString filePath →
       ReadFile.resolve E filePath
       = String.append (ReadFile.outputDir E) tail →
       tail ≠ "" → String.prefix "/" tail = false →
       reads = [] ∧ ∃ e, answer = ReadFile.Refused e).
Proof.
  intros Hh. unfold ReadFile.handler in Hh.
  destruct path as [|filePath|l]; simplify_eq;
    try (split_and!; [by intros ? ?%elem_of_nil|done|done]).
  destruct (truthy filePath); simpl in Hh; simplify_eq;
    [|split_and!; [by intros ? ?%elem_of_nil|done|by eauto]].
  destruct (String.prefix _ (ReadFile.resolve E filePath)) eqn:Hpre;
    simpl in Hh.
  - (* below the output directory *)
    apply prefix_append in Hpre as [rest Hrest].
    rewrite append_assoc in Hrest.
    assert (∃ r, (answer, reads) = (r, [ReadFile.resolve E filePath])
                 ∧ ∀ content, r = ReadFile.Content content →
                     ReadFile.readFile E (ReadFile.resolve E filePath)
                     = Ok content) as (r & [= -> ->] & Hr).
    { destruct (ReadFile.readFile E _); eexists; split; try done;
        by intros ? [= ->]. }
    split_and!.
    + intros p ->%list_elem_of_singleton. by eauto 10.
    + intros content Hc%Hr. by eauto.
    + intros ? tail [= <-] Htail Hne Hslash. rewrite Htail in Hrest.
      apply append_cancel in Hrest. subst tail.
      assert (String.prefix "/" (String.append "/" rest) = true)
        by (apply prefix_append; eauto).
      congruence.
  - destruct (String.eqb_spec (ReadFile.resolve E filePath)
                (ReadFile.outputDir E)) as [Heq|Hne]; simpl in Hh.
    + (* the output directory itself *)
      assert (∃ r, (answer, reads) = (r, [ReadFile.resolve E filePath])
                   ∧ ∀ content, r = ReadFile.Content content →
                       ReadFile.readFile E (ReadFile.resolve E filePath)
                       = Ok content) as (r & [= -> ->] & Hr).
      { destruct (ReadFile.readFile E _); eexists; split; try done;
          by intros ? [= ->]. }
      split_and!.
      * intros p ->%list_elem_of_singleton. by eauto 10.
      * intros content Hc%Hr. by eauto.
      * intros ? tail [= <-] Htail Hne Hslash. rewrite Htail in Heq.
        destruct Hne. clear -Heq.
        induction (ReadFile.outputDir E) as [|x a IH]; simpl in *;
          [done|]. injection Heq as Heq. auto.
    + simplify_eq. split_and!; [by intros ? ?%elem_of_nil|done|by eauto].
Qed.

(** ** The output browser *)

Section OutputDirProperties.
Import OutputDir.

(** Induction on the entries of a tree. *)
Lemma Entry_nested_ind (P : Entry → Prop) :
  (∀ entryName st, P (File entryName st)) →
  (∀ entryName st e, P (Directory entryName st (Throw e))) →
  (∀ entryName st es, Forall P es → P (Directory entryName st (Ok es))) →
  ∀ entry, P entry.
Proof.
  intros Hfile Hclosed Hdir. fix IH 1. intros [entryName st|entryName st [es|e]].
  - apply Hfile.
  - apply Hdir. induction es as [|e es IHes]; constructor; [apply IH|done].
  - apply Hclosed.
Qed.

Lemma totalSize_from (n : nat) (fs : list OutputFile) :
  foldl (λ sum f, sum + size f)%nat n fs = (n + totalSize fs)%nat.
Proof.
  unfold totalSize. revert n. induction fs as [|f fs IH]; intros n; simpl.
  - lia.
  - rewrite IH, (IH (size f)). lia.
Qed.

Lemma totalSize_cons f fs : totalSize (f :: fs) = (size f + totalSize fs)%nat.
Proof. unfold totalSize at 1. simpl. by rewrite totalSize_from. Qed.

Lemma totalSize_app fs1 fs2 :
  totalSize (fs1 ++ fs2) = (totalSize fs1 + totalSize fs2)%nat.
Proof.
  induction fs1 as [|f fs1 IH]; [done|].
  simpl. rewrite !totalSize_cons, IH. lia.
Qed.

Lemma totalSize_prefixed entryName fs :
  totalSize (prefixed entryName <$> fs) = totalSize fs.
Proof.
  induction fs as [|f fs IH]; [done|].
  rewrite fmap_cons, !totalSize_cons, IH. done.
Qed.

Lemma inflated_app files1 files2 :
  inflated (files1 ++ files2) = (inflated files1 + inflated files2)%nat.
Proof. unfold inflated. by rewrite sum_list_with_app. Qed.

Section Listing.
Context (join : string → string → string) (extension : string → string).

(** The loop inside [round] is the loop of [getFilesRecursive]. *)
Lemma round_Directory dir entryName st es :
  round join extension dir (Directory entryName st (Ok es))
  = if hidden entryName then Ok []
    else match st with
         | Throw e => Throw e
         | Ok folderStat =>
             Ok ({| name := entryName;
                    path := join dir entryName;
                    size := totalSize
                              (rounds join extension (join dir entryName) es);
                    modified := mtime folderStat;
                    type := folder |}
                 :: (prefixed entryName
                     <$> rounds join extension (join dir entryName) es))
         end.
Proof.
  simpl. destruct (hidden entryName); [done|].
  assert ((fix rounds (es : list Entry) : list OutputFile :=
            match es with
            | [] => []
            | e :: es' =>
                match round join extension (join dir entryName) e with
                | Ok pushed => pushed ++ rounds es'
                | Throw _ => []
                end
            end) es
          = rounds join extension (join dir entryName) es) as ->; [|done].
  induction es as [|e es IH]; [done|]. simpl. by rewrite IH.
Qed.

Lemma filesBelow_Directory depth entryName st es :
  filesBelow depth (Directory entryName st (Ok es))
  = if hidden entryName then [] else filesIn (S depth) es.
Proof.
  simpl. destruct (hidden entryName); [done|]. unfold filesIn.
  induction es as [|e es IH]; [done|]. simpl. by rewrite IH.
Qed.

Lemma readable_Directory entryName st es :
  readable (Directory entryName st (Ok es))
  ↔ (∃ s, st = Ok s) ∧ Forall readable es.
Proof.
  simpl. apply and_iff_compat_l.
  induction es as [|e es IH]; [by split|].
  rewrite Forall_cons, IH. done.
Qed.

(** One level further down counts twice. *)
Lemma inflated_deeper depth entry :
  inflated (filesBelow (S depth) entry)
  = (2 * inflated (filesBelow depth entry))%nat.
Proof.
  revert depth. induction entry as [entryName st|entryName st e|entryName st es IH]
    using Entry_nested_ind; intros depth.
  - simpl. destruct (hidden entryName); [done|]. destruct st; [|done].
    unfold inflated. simpl. lia.
  - simpl. by destruct (hidden entryName).
  - rewrite !filesBelow_Directory. destruct (hidden entryName); [done|].
    unfold filesIn. induction IH as [|e es He _ IHes]; [done|].
    simpl. rewrite !inflated_app, He, IHes. lia.
Qed.

Lemma inflated_filesIn_deeper depth es :
  inflated (filesIn (S depth) es) = (2 * inflated (filesIn depth es))%nat.
Proof.
  unfold filesIn. induction es as [|e es IH]; [done|].
  simpl. rewrite !inflated_app, inflated_deeper, IH. lia.
Qed.

(** What one round pushes adds up to the inflated size of its entry. *)
Lemma round_readable dir entry :
  readable entry →
  ∃ pushed, round join extension dir entry = Ok pushed
            ∧ totalSize pushed = inflated (filesBelow 0 entry).
Proof.
  revert dir. induction entry as [entryName st|entryName st e|entryName st es IH]
    using Entry_nested_ind; intros dir Hr.
  - destruct Hr as [s ->]. simpl. destruct (hidden entryName); eexists; split;
      try done. unfold inflated. simpl. rewrite totalSize_cons. simpl.
    unfold totalSize. simpl. lia.
  - by destruct Hr as [_ []].
  - apply readable_Directory in Hr as [[s ->] Hes].
    rewrite round_Directory, filesBelow_Directory.
    destruct (hidden entryName); [by eexists|].
    eexists. split; [done|].
    rewrite totalSize_cons, totalSize_prefixed. simpl.
    rewrite inflated_filesIn_deeper.
    assert (totalSize (rounds join extension (join dir entryName) es)
            = inflated (filesIn 0 es)) as ->; [|lia].
    generalize (join dir entryName) as sub. intros sub.
    unfold filesIn.
    induction IH as [|e es He _ IHes]; [done|].
    apply Forall_cons in Hes as [Hre Hres]. simpl.
    destruct (He sub Hre) as (pushed & -> & Hsum).
    rewrite totalSize_app, inflated_app, Hsum, IHes by done. done.
Qed.

Lemma rounds_readable dir es :
  Forall readable es →
  totalSize (rounds join extension dir es) = inflated (filesIn 0 es).
Proof.
  unfold filesIn. induction 1 as [|e es He _ IH]; [done|]. simpl.
  destruct (round_readable dir e He) as (pushed & -> & Hsum).
  by rewrite totalSize_app, inflated_app, Hsum, IH.
Qed.

(** X26: the size shown for a folder counts nested files more than
    once.  On a tree nothing of which throws, the entry listed for a
    folder that is not hidden has as its size the sum, over the files
    below the folder that are not hidden, of the file's size times
    [2 ^ k], where [k] is the number of folders between the two. *)
Theorem folder_size_inflated dir entryName st es pushed :
  readable (Directory entryName st (Ok es)) →
  hidden entryName = false →
  round join extension dir (Directory entryName st (Ok es)) = Ok pushed →
  ∃ shown rest,
    pushed = shown :: rest
    ∧ name shown = entryName
    ∧ type shown = folder
    ∧ size shown = inflated (filesIn 0 es)
    ∧ totalSize rest = size shown.
Proof.
  intros [[s ->] Hes]%readable_Directory Hvis.
  rewrite round_Directory, Hvis. intros [= <-].
  eexists _, _. split; [done|]. simpl.
  rewrite totalSize_prefixed, rounds_readable by done. done.
Qed.

Lemma hidden_append entryName rest :
  hidden entryName = false →
  hidden (String.append entryName (String.append "/" rest)) = false.
Proof.
  unfold hidden. destruct entryName as [|a entryName]; [done|].
  change (String a entryName +:+ "/" +:+ rest)
    with (String a (entryName +:+ "/" +:+ rest)).
  cbn [String.prefix].
  destruct (Ascii.ascii_dec _ a); [by destruct entryName|done].
Qed.

Lemma VisibleName_round dir entry pushed f :
  round join extension dir entry = Ok pushed → f ∈ pushed →
  VisibleName (name f).
Proof.
  revert dir pushed f.
  induction entry as [entryName st|entryName st e|entryName st es IH]
    using Entry_nested_ind; intros dir pushed f.
  - simpl. destruct (hidden entryName) eqn:Hh.
    + by intros [= <-] ?%elem_of_nil.
    + destruct st; [|done]. intros [= <-] ->%list_elem_of_singleton.
      by constructor.
  - simpl. destruct (hidden entryName) eqn:Hh.
    + by intros [= <-] ?%elem_of_nil.
    + destruct st; [|done]. intros [= <-] ->%list_elem_of_singleton.
      by constructor.
  - rewrite round_Directory. destruct (hidden entryName) eqn:Hh.
    + by intros [= <-] ?%elem_of_nil.
    + destruct st; [|done]. intros [= <-] [->|Hin]%elem_of_cons.
      * by constructor.
      * apply list_elem_of_fmap in Hin as (sub & -> & Hsub). simpl.
        constructor 2; [done|]. revert Hsub.
        generalize (join dir entryName) as subdir. intros subdir.
        induction IH as [|e es He _ IHes]; simpl; [by intros ?%elem_of_nil|].
        destruct (round join extension subdir e) as [ps|] eqn:Hround;
          [|by intros ?%elem_of_nil].
        intros [?|?]%elem_of_app; [by eapply He|by apply IHes].
Qed.

(** X27: nothing hidden is listed.  Whatever throws on the way, the
    name of every file and folder [getFilesRecursive] lists is made of
    names of directory entries that do not start with a dot, joined by
    [/]. *)
Theorem listing_skips_hidden dir entries f :
  f ∈ getFilesRecursive join extension dir entries →
  VisibleName (name f) ∧ hidden (name f) = false.
Proof.
  intros Hf.
  assert (VisibleName (name f)) as Hv.
  { destruct entries as [es|]; [|by apply elem_of_nil in Hf]. simpl in Hf.
    induction es as [|e es IH]; simpl in Hf; [by apply elem_of_nil in Hf|].
    destruct (round join extension dir e) as [ps|] eqn:Hround;
      [|by apply elem_of_nil in Hf].
    apply elem_of_app in Hf as [?|?]; [by eapply VisibleName_round|auto]. }
  split; [done|]. clear Hf. induction Hv; [done|by apply hidden_append].
Qed.

End Listing.

End OutputDirProperties.

(** ** More theorems at work on the small site *)

Lemma lastConfig_reachable body :
  reachable site body (urlList (urls body)) tt (lastConfig body).
Proof. apply run_reachable, reach_initial. Qed.

(** X1 on the small site: with half a level of depth the links of the
    seed page are crawled, and nothing below them. *)
Lemma depth_within_limit_witness :
  reachable site shallowAudit [home] tt (lastConfig shallowAudit)
  ∧ (∀ r, r ∈ results (store (lastConfig shallowAudit)) →
          Z.of_nat (Result.depth r) ≤ 1)
  ∧ ∃ r, r ∈ results (store (lastConfig shallowAudit))
         ∧ Result.depth r = 1%nat.
Proof.
  split; [exact (lastConfig_reachable shallowAudit)|]. split.
  - intros r Hr.
    exact (proj1 (proj2 (proj1 (proj1 (depth_within_limit site shallowAudit
                                         [home] tt (lastConfig shallowAudit)
                                         (lastConfig_reachable shallowAudit))
                                  r Hr)))).
  - assert (results (store (lastConfig shallowAudit)) !! 3%nat
            = Some (linkResult site (Item.mk pageB 1 None) (anchor home true)
                      (Redirect.mk 200 [] None))) as Hr
      by (vm_compute; reflexivity).
    eexists. split; [exact (list_elem_of_lookup_2 _ _ _ Hr)|reflexivity].
Defined.

(** X2 on the small site. *)
Lemma requests_bounded_witness :
  (length (List.filter isRequest (trace (store (auditAfter 45))))
   ≤ length [home] + 2 * length (results (store (auditAfter 45))))%nat.
Proof.
  exact (proj2 (proj2 (requests_bounded site auditRequest [home] tt
                         (auditAfter 45) (audit_reachable 45)))).
Defined.

(** X3 on the small site. *)
Lemma visited_fetched_or_remaining_witness :
  handler site auditRequest tt
  = (inr (respond (store (lastConfig auditRequest))), tt,
     trace (store (lastConfig auditRequest)))
  ∧ Stats.visited (Response.stats (respond (store (lastConfig auditRequest))))
    = (length (fetchedUrls (trace (store (lastConfig auditRequest))))
       + Stats.remaining
           (Response.stats (respond (store (lastConfig auditRequest)))))%nat.
Proof.
  assert (handler site auditRequest tt
          = (inr (respond (store (lastConfig auditRequest))), tt,
             trace (store (lastConfig auditRequest)))) as Hh
    by (vm_compute; reflexivity).
  split; [exact Hh|].
  exact (proj1 (visited_fetched_or_remaining site auditRequest [home] tt
                  _ _ _ eq_refl Hh)).
Defined.

(** X4 on the small site, for the request with a negative cap. *)
Lemma no_room_no_request_witness :
  (maxUrls negativeCap <= 0)%Q
  ∧ handler site negativeCap tt
    = (inr (respond (store (lastConfig negativeCap))), tt,
       trace (store (lastConfig negativeCap)))
  ∧ Forall (λ e, isRequest e = false ∧ isSleep e = false)
      (trace (store (lastConfig negativeCap)))
  ∧ Stats.remaining (Response.stats (respond (store (lastConfig negativeCap))))
    = Stats.visited (Response.stats (respond (store (lastConfig negativeCap)))).
Proof.
  assert (maxUrls negativeCap <= 0)%Q as Hcap by (vm_compute; discriminate).
  assert (handler site negativeCap tt
          = (inr (respond (store (lastConfig negativeCap))), tt,
             trace (store (lastConfig negativeCap)))) as Hh
    by (vm_compute; reflexivity).
  split; [exact Hcap|]. split; [exact Hh|].
  destruct (no_room_no_request site negativeCap [home] tt _ _ _
              eq_refl Hcap Hh) as (_ & _ & Htr & _ & Hrem).
  exact (conj Htr Hrem).
Defined.

(** X5 on the small site: of the seeds [home], [pageB], [home] the
    frontier holds [home] and [pageB], in this order. *)
Lemma frontier_after_seeding_witness :
  control (flatAfter 4) = AtWhile
  ∧ fetchedUrls (trace (store (flatAfter 4))) = []
  ∧ firstOccurrences (validSeeds site [home; pageB; home]) = [home; pageB]
  ∧ queue (store (flatAfter 4))
    = (λ u, Item.mk u 0 None)
      <$> firstOccurrences (validSeeds site [home; pageB; home]).
Proof.
  assert (control (flatAfter 4) = AtWhile) as Hctl
    by (vm_compute; reflexivity).
  assert (fetchedUrls (trace (store (flatAfter 4))) = []) as Hnil
    by (vm_compute; reflexivity).
  assert (reachable site flatAudit [home; pageB; home] tt (flatAfter 4))
    as Hc by apply run_reachable, reach_initial.
  split; [exact Hctl|]. split; [exact Hnil|].
  split; [vm_compute; reflexivity|].
  exact (proj1 (frontier_after_seeding site flatAudit [home; pageB; home] tt
                  (flatAfter 4) Hc Hctl Hnil)).
Defined.

(** X6 on the small site: the empty string is not a URL. *)
Lemma no_valid_seed_no_work_witness :
  validSeeds site [""] = []
  ∧ handler site blankRequest tt
    = (inr {| Response.results := [];
              Response.stats := {| Stats.totalLinks := 0; Stats.visited := 0;
                                   Stats.remaining := 0 |} |}, tt, []).
Proof.
  assert (validSeeds site [""] = []) as Hnone by (vm_compute; reflexivity).
  split; [exact Hnone|].
  exact (no_valid_seed_no_work site blankRequest [""] tt eq_refl Hnone).
Defined.

(** X7 on the small site. *)
Lemma deeper_results_trace_back_witness :
  reachable site auditRequest [home] tt (auditAfter 45)
  ∧ ∀ r, r ∈ results (store (auditAfter 45)) → (0 < Result.depth r)%nat →
         ∃ r', r' ∈ results (store (auditAfter 45))
               ∧ Result.targetUrl r' = Result.sourceUrl r
               ∧ Result.type r' = internal
               ∧ S (Result.depth r') = Result.depth r.
Proof.
  split; [exact (audit_reachable 45)|].
  exact (deeper_results_trace_back site auditRequest [home] tt
           (auditAfter 45) (audit_reachable 45)).
Defined.

(** X8 on the small site. *)
Lemma results_come_from_fetched_pages_witness :
  reachable site auditRequest [home] tt (auditAfter 45)
  ∧ ∀ r, r ∈ results (store (auditAfter 45)) →
         Result.sourceUrl r ∈ fetchedUrls (trace (store (auditAfter 45)))
         ∧ Result.sourceUrl r ∈ visited (store (auditAfter 45)).
Proof.
  split; [exact (audit_reachable 45)|].
  exact (results_come_from_fetched_pages site auditRequest [home] tt
           (auditAfter 45) (audit_reachable 45)).
Defined.

(** X10 on the small site: with room for two results, two pages are
    left on the frontier. *)
Lemma frontier_left_only_at_cap_witness :
  handler site shortAudit tt
  = (inr (respond (store (lastConfig shortAudit))), tt,
     trace (store (lastConfig shortAudit)))
  ∧ (0 < Stats.remaining
           (Response.stats (respond (store (lastConfig shortAudit)))))%nat
  ∧ Z.of_nat (Stats.totalLinks
                (Response.stats (respond (store (lastConfig shortAudit)))))
    = 2.
Proof.
  assert (handler site shortAudit tt
          = (inr (respond (store (lastConfig shortAudit))), tt,
             trace (store (lastConfig shortAudit)))) as Hh
    by (vm_compute; reflexivity).
  assert (0 < Stats.remaining
                (Response.stats (respond (store (lastConfig shortAudit)))))%nat
    as Hrem by (vm_compute; lia).
  assert (0 <= maxUrls shortAudit)%Q as Hcap by (vm_compute; discriminate).
  assert (maxUrls shortAudit == inject_Z 2)%Q as Htwo by reflexivity.
  split; [exact Hh|]. split; [exact Hrem|].
  exact (proj2 (proj2 (proj2 (frontier_left_only_at_cap site shortAudit [home]
                                tt _ _ _ eq_refl Hh Hrem)
                         Hcap site_extractsAbsolute))
           2 Htwo).
Defined.

(** X11 on the small site. *)
Lemma flat_audit_reports_seeds_only_witness :
  recursive flatAudit = false
  ∧ ∀ r, r ∈ results (store (lastConfig flatAudit)) →
         ∃ u, u ∈ [home; pageB; home]
              ∧ normalizeUrl site u = Some (Result.sourceUrl r).
Proof.
  split; [reflexivity|].
  exact (flat_audit_reports_seeds_only site flatAudit [home; pageB; home] tt
           (lastConfig flatAudit) eq_refl (lastConfig_reachable flatAudit)).
Defined.

(** X12 on the small site: the response of the audit. *)
Lemma linkStats_accounts_witness :
  ∃ st, linkStats (Some (results (store (auditAfter 45)))) = Some st
        ∧ (LinkStats.internal st + LinkStats.external st
           = LinkStats.total st)%nat.
Proof.
  destruct (linkStats (Some (results (store (auditAfter 45))))) as [st|] eqn:Hst.
  - exists st. split; [reflexivity|].
    exact (proj1 (proj2 (proj2 (linkStats_accounts
                                  (results (store (auditAfter 45)))) st Hst))).
  - exfalso. revert Hst. vm_compute. discriminate.
Defined.

(** X13 on the small site. *)
Lemma badges_agree_with_counts_witness :
  ∃ st, linkStats (Some (results (store (auditAfter 45)))) = Some st
        ∧ (LinkStats.status4xx st + LinkStats.status5xx st
           + LinkStats.errors st
           ≤ badged "status-error" (results (store (auditAfter 45))))%nat.
Proof.
  destruct (linkStats (Some (results (store (auditAfter 45))))) as [st|] eqn:Hst.
  - exists st. split; [reflexivity|].
    destruct (badges_agree_with_counts (results (store (auditAfter 45))) st Hst)
      as (_ & _ & _ & Herr).
    exact Herr.
  - exfalso. revert Hst. vm_compute. discriminate.
Defined.

(** X14 on the small site: the page that cannot be fetched. *)
Lemma failure_records_shown_as_errors_witness :
  failureResult downItem fetchFailed ∈ results (store (auditAfter 45))
  ∧ ∃ st, linkStats (Some (results (store (auditAfter 45)))) = Some st
          ∧ (0 < LinkStats.errors st)%nat.
Proof.
  assert (results (store (auditAfter 45)) !! 5%nat
          = Some (failureResult downItem fetchFailed)) as Hat
    by (vm_compute; reflexivity).
  apply list_elem_of_lookup_2 in Hat. split; [exact Hat|].
  destruct (linkStats (Some (results (store (auditAfter 45))))) as [st|] eqn:Hst.
  - exists st. split; [reflexivity|].
    destruct (failure_records_shown_as_errors
                (results (store (auditAfter 45))) st downItem fetchFailed
                Hat Hst) as (_ & Herr & _).
    exact Herr.
  - exfalso. revert Hst. vm_compute. discriminate.
Defined.

(** X15 on a full log: the oldest entry goes. *)
Lemma addLog_keeps_latest_witness :
  (length fullLog ≤ 100)%nat
  ∧ addLogs [("12:00:01", "new", None)] fullLog
    = drop (length (fullLog ++ (logEntry <$> [("12:00:01", "new", None)]))
            - 100)
        (fullLog ++ (logEntry <$> [("12:00:01", "new", None)])).
Proof.
  assert (length fullLog ≤ 100)%nat as Hlen by (vm_compute; lia).
  split; [exact Hlen|].
  exact (proj1 (addLog_keeps_latest [("12:00:01", "new", None)] fullLog Hlen)).
Defined.

(** X16 on a text of two lines. *)
Lemma parseUrls_sound_witness :
  units "a:b" ∈ parseUrls hasScheme (units " a:b , c")
  ∧ hasScheme (units "a:b") = true
  ∧ ∃ pre post, units " a:b , c" = pre ++ units "a:b" ++ post.
Proof.
  assert (units "a:b" ∈ parseUrls hasScheme (units " a:b , c")) as Hin
    by (vm_compute; apply list_elem_of_here).
  split; [exact Hin|].
  destruct (parseUrls_sound hasScheme _ _ Hin) as (Hok & _ & Hpart & _).
  exact (conj Hok Hpart).
Defined.

(** X17 on two texts and a line feed. *)
Lemma parseUrls_app_separator_witness :
  isSeparator 10 = true
  ∧ parseUrls hasScheme (units "a:b, c" ++ 10%N :: units "d:e")
    = parseUrls hasScheme (units "a:b, c") ++ parseUrls hasScheme (units "d:e").
Proof.
  split; [reflexivity|].
  exact (parseUrls_app_separator hasScheme (units "a:b, c") 10%N
           (units "d:e") eq_refl).
Defined.

(** X19 on the small site: a page that cannot be fetched does not fail
    the batch. *)
Lemma scrape_html_one_record_per_url_witness :
  ScrapeHtml.urls htmlRequest
  = UrlsArray [home; pageB; pageDown; pageC; elsewhere; home]
  ∧ ∀ rs, ScrapeHtml.handler pages htmlRequest = inr rs →
          HtmlResult.url <$> rs
          = [home; pageB; pageDown; pageC; elsewhere; home].
Proof.
  split; [reflexivity|].
  exact (proj2 (proj2 (scrape_html_one_record_per_url pages htmlRequest
                         [home; pageB; pageDown; pageC; elsewhere; home]
                         eq_refl))).
Defined.

(** The server keeps the contract of the page. *)
Lemma served_answersInOrder : ScrapeHtml.answersInOrder served.
Proof.
  intros k request response. unfold served. simpl.
  destruct (ScrapeHtml.handler pages request) as [e|rs] eqn:Hh; [done|].
  intros [= <-]. by apply handler_urls in Hh.
Qed.


(** X21 on the small site: a thousand rounds on, the loop goes on. *)
Lemma scrapeHtml_negative_batch_never_ends_witness :
  ScrapeHtml.parallelRequests backwards < 0
  ∧ is_Some (ScrapeHtml.scrapeStep served backwards [home]
               (ScrapeHtml.scrapeHtml served backwards [home] 1000 0 [])).
Proof.
  assert (ScrapeHtml.parallelRequests backwards < 0) as Hneg
    by (vm_compute; reflexivity).
  assert ([home] ≠ []) as Hne by discriminate.
  split; [exact Hneg|].
  exact (scrapeHtml_negative_batch_never_ends served backwards [home]
           1000 0 [] Hneg Hne).
Defined.

(** X22 on the file system: a file of the output directory is read, a
    file of its neighbour [output-old] is not. *)
Lemma read_file_confined_witness :
  ReadFile.handler disk (ReadFile.PathString "/srv/output/a.json")
  = (ReadFile.Content "[]", ["/srv/output/a.json"])
  ∧ (∃ p, ["/srv/output/a.json"] = [p]
          ∧ ReadFile.readFile disk p = Ok "[]")
  ∧ ∀ answer reads,
      ReadFile.handler disk (ReadFile.PathString "/srv/output-old/a.json")
      = (answer, reads) →
      reads = [] ∧ ∃ e, answer = ReadFile.Refused e.
Proof.
  assert (ReadFile.handler disk (ReadFile.PathString "/srv/output/a.json")
          = (ReadFile.Content "[]", ["/srv/output/a.json"])) as Hh
    by (vm_compute; reflexivity).
  split; [exact Hh|]. split.
  - exact (proj1 (proj2 (read_file_confined disk _ _ _ Hh)) "[]" eq_refl).
  - intros answer reads Hold.
    exact (proj2 (proj2 (read_file_confined disk _ _ _ Hold))
             "/srv/output-old/a.json" "-old/a.json" eq_refl eq_refl
             ltac:(discriminate) eq_refl).
Defined.

(** X23 on the small site. *)
Lemma pause_bounded_witness :
  reachable site auditRequest [home] tt (auditAfter 45)
  ∧ (length (sleeps (trace (store (auditAfter 45))))
     ≤ length (fetchedUrls (trace (store (auditAfter 45))))
       + length (results (store (auditAfter 45))))%nat
  ∧ (0 < length (sleeps (trace (store (auditAfter 45)))))%nat.
Proof.
  split; [exact (audit_reachable 45)|]. split.
  - exact (proj1 (pause_bounded site auditRequest [home] tt (auditAfter 45)
                    (audit_reachable 45))).
  - vm_compute. lia.
Defined.

(** X24 on the small site, seen through URLs without a host name. *)
Lemma no_base_domain_no_crawl_witness :
  sameDomainOnly auditRequest = true
  ∧ seedHost hostless home = None
  ∧ ∀ r, r ∈ results (store (run hostless auditRequest 45 (initial [home] tt))) →
         Result.depth r = 0%nat.
Proof.
  assert (∀ u, u ∈ [home] → seedHost hostless u = None) as Hhost
    by (intros u _; reflexivity).
  split; [reflexivity|]. split; [reflexivity|]. intros r Hr.
  exact (proj1 (proj2 (no_base_domain_no_crawl hostless auditRequest [home] tt
                         (run hostless auditRequest 45 (initial [home] tt))
                         eq_refl eq_refl Hhost
                         (run_reachable hostless auditRequest [home] tt 45 _
                            (reach_initial hostless auditRequest [home] tt)))
                  r Hr)).
Defined.

(** The handler keeps the contract of the page. *)
Lemma linked_countsResults : LinkPage.countsResults linked.
Proof.
  intros request response. unfold linked. simpl.
  destruct (handler site request tt) as [[[e|resp] w'] tr] eqn:Hh; [done|].
  intros [= <-]. by eapply handler_totalLinks.
Qed.

(** X25 on the small site: six rows, saved to one file. *)
Lemma scrapeLinks_shows_response_witness :
  ∃ page' response,
    LinkPage.scrapeLinks linked auditSettings [home] blankPage = (page', None)
    ∧ LinkPage.post linked (LinkPage.linkRequest auditSettings [home])
      = Ok response
    ∧ LinkPage.progressDone page' = length (LinkPage.linkResults page')
    ∧ LinkPage.linkResults page' = Response.results response.
Proof.
  destruct (LinkPage.scrapeLinks linked auditSettings [home] blankPage)
    as [page' thrown] eqn:Hs.
  destruct (LinkPage.post linked (LinkPage.linkRequest auditSettings [home]))
    as [response|e] eqn:Hp.
  - assert (thrown = None) as ->.
    { revert Hs. unfold LinkPage.scrapeLinks. rewrite Hp.
      unfold LinkPage.saveResults. simpl.
      destruct (Response.results response); by intros [= _ <-]. }
    exists page', response. split; [reflexivity|]. split; [reflexivity|].
    destruct (scrapeLinks_shows_response linked auditSettings [home]
                blankPage page' None linked_countsResults Hs)
      as (_ & _ & Hok).
    destruct (Hok response Hp) as (Hrows & Hdone & _).
    exact (conj Hdone Hrows).
  - exfalso. revert Hp. vm_compute. discriminate.
Defined.

(** X26 on the output directory: the folder [a] holds 10 visible
    bytes and is shown with 20. *)
Lemma folder_size_inflated_witness :
  ∃ shown rest,
    OutputDir.round slashJoin (λ _, ".json") "/srv/output"
      (OutputDir.Directory "a" (Ok noon) (Ok folderA))
    = Ok (shown :: rest)
    ∧ OutputDir.size shown = OutputDir.inflated (OutputDir.filesIn 0 folderA)
    ∧ OutputDir.inflated (OutputDir.filesIn 0 folderA) = 20%nat.
Proof.
  assert (OutputDir.readable (OutputDir.Directory "a" (Ok noon) (Ok folderA)))
    as Hr by (vm_compute; eauto 10).
  destruct (OutputDir.round slashJoin (λ _, ".json") "/srv/output"
              (OutputDir.Directory "a" (Ok noon) (Ok folderA)))
    as [pushed|e] eqn:Hround.
  - destruct (folder_size_inflated slashJoin (λ _, ".json") "/srv/output"
                "a" (Ok noon) folderA pushed Hr eq_refl Hround)
      as (shown & rest & -> & _ & _ & Hsize & _).
    exists shown, rest. split; [reflexivity|]. split; [exact Hsize|].
    vm_compute. reflexivity.
  - exfalso. revert Hround. vm_compute. discriminate.
Defined.

(** X27 on the output directory. *)
Lemma listing_skips_hidden_witness :
  ∃ f, f ∈ OutputDir.getFilesRecursive slashJoin (λ _, ".json") "/srv/output"
             (Ok folderA)
       ∧ OutputDir.name f = "b/c.json"
       ∧ OutputDir.hidden (OutputDir.name f) = false.
Proof.
  assert (∃ f, OutputDir.getFilesRecursive slashJoin (λ _, ".json")
                 "/srv/output" (Ok folderA) !! 1%nat = Some f
               ∧ OutputDir.name f = "b/c.json") as (f & Hat & Hname)
    by (eexists; split; vm_compute; reflexivity).
  apply list_elem_of_lookup_2 in Hat. exists f.
  split; [exact Hat|]. split; [exact Hname|].
  exact (proj2 (listing_skips_hidden slashJoin (λ _, ".json") "/srv/output"
                  (Ok folderA) f Hat)).
Defined.
